(** * Route finder: a shallow embedding of [RouteFinderService]

    The service of [route-finder.service.ts] is embedded function by function.
    - A JavaScript [Map<string, V>] is an association list in insertion order
      ([JsMap]); [set] on a present key keeps the key's position, as the
      language specifies, and iteration follows the list.  A [Set<string>] is a
      list without repetition in insertion order ([JsSet]).
    - A [number] is an IEEE-754 binary64 value, as in JavaScript: Rocq's
      primitive [float], with its addition and comparison.  Sums round as
      the source's sums do.  [undefined] read as a number behaves as [NaN].
    - [throw] and non-termination are made explicit by the [result] type.
    - [while] loops take an iteration budget; running out of it is the
      outcome [OutOfFuel], and the budget used by [dijkstra] is shown to be
      sufficient for every graph. *)

From Stdlib Require Import Floats.
From Stdlib Require Import String Ascii List ZArith Lia Bool Arith.
Import ListNotations.

Local Open Scope string_scope.
Local Open Scope list_scope.

Set Implicit Arguments.

(** ** Numbers *)

Definition number : Type := float.

Bind Scope float_scope with number.

(** [a + b] on numbers. *)
Definition num_add (a b : number) : number := (a + b)%float.

(** [a < b] on numbers: false as soon as one side is [NaN]. *)
Definition num_lt (a b : number) : bool := (a <? b)%float.

Definition Infinity : number := infinity.

Definition NaN : number := nan.

(** ** Maps and sets in insertion order *)

Module JsMap.
Section Ops.
Variable V : Type.

Definition t := list (string * V).

Definition empty : t := [].

Fixpoint get (m : t) (k : string) : option V :=
  match m with
  | [] => None
  | (k', v) :: r => if String.eqb k' k then Some v else get r k
  end.

Definition has (m : t) (k : string) : bool :=
  match get m k with Some _ => true | None => false end.

Fixpoint set (m : t) (k : string) (v : V) : t :=
  match m with
  | [] => [(k, v)]
  | (k', v') :: r =>
      if String.eqb k' k then (k', v) :: r else (k', v') :: set r k v
  end.

Definition keys (m : t) : list string := map fst m.

Definition size (m : t) : nat := length m.
End Ops.
End JsMap.

Module JsSet.
Definition t := list string.

Definition has (s : t) (x : string) : bool :=
  existsb (String.eqb x) s.

Definition add (s : t) (x : string) : t :=
  if has s x then s else s ++ [x].

Definition delete (s : t) (x : string) : t :=
  filter (fun y => negb (String.eqb x y)) s.

(** [new Set(iterable)]. *)
Definition of_list (l : list string) : t := fold_left add l [].

Definition size (s : t) : nat := length s.
End JsSet.

(** [Array.prototype.includes] on an array of strings. *)
Definition includes (l : list string) (x : string) : bool :=
  existsb (String.eqb x) l.

(** [Array.prototype.join]. *)
Definition join (sep : string) (l : list string) : string :=
  String.concat sep l.

(** A string is falsy exactly when it is empty; [null] is falsy. *)
Definition truthy (s : string) : bool := negb (String.eqb s "").

Definition truthy_opt (o : option string) : bool :=
  match o with Some s => truthy s | None => false end.

(** ** Outcomes *)

Definition BAD_REQUEST : nat := 400.

Record HttpException : Type := mkHttpException {
  message : string;
  status : nat
}.

Inductive result (A : Type) : Type :=
| Ok (a : A)
| Throw (e : HttpException)
| TypeError
| OutOfFuel.

Arguments Ok {A} a.
Arguments Throw {A} e.
Arguments TypeError {A}.
Arguments OutOfFuel {A}.

Definition bind {A B : Type} (r : result A) (k : A -> result B) : result B :=
  match r with
  | Ok a => k a
  | Throw e => Throw e
  | TypeError => TypeError
  | OutOfFuel => OutOfFuel
  end.

Notation "x <- r ;; k" := (bind r (fun x => k))
  (at level 61, r at next level, right associativity).

(** The three failures of the service, by the message they carry. *)
Definition MissingNodes (missing : list string) : HttpException :=
  mkHttpException ("Missing required nodes: " ++ join ", " missing)%string
                  BAD_REQUEST.

Definition InvalidEdgeNodes (invalid : list string) : HttpException :=
  mkHttpException ("Invalid edge nodes: " ++ join ", " invalid)%string
                  BAD_REQUEST.

Definition NoPathFound (requiredStops : list string) : HttpException :=
  mkHttpException
    ("No valid path found that satisfies all constraints of "
       ++ join "," requiredStops)%string
    BAD_REQUEST.

(** ** Request and response *)

Record EdgeDto : Type := mkEdge {
  from : string;
  to : string;
  cost : number
}.

Record ConstraintsDto : Type := mkConstraints {
  blockedNodes : list string;
  requiredStops : list string
}.

Record PathRequestDto : Type := mkRequest {
  start : string;
  end_ : string;
  nodes : list string;
  edges : list EdgeDto;
  constraints : ConstraintsDto
}.

Record PathResult : Type := mkPathResult {
  path : list string;
  totalCost : number
}.

(** The [{ path, cost }] object returned by the searches. *)
Record Segment : Type := mkSegment {
  seg_path : list string;
  seg_cost : number
}.

Definition Graph := JsMap.t (JsMap.t number).

(** ** validateNodesExist *)

Definition missingOf (validNodes mustExistNodes : list string) : list string :=
  filter (fun node => negb (includes validNodes node)) mustExistNodes.

Definition invalidEdgeNodesOf (validNodes : list string) (es : list EdgeDto)
  : list string :=
  filter (fun n => negb (includes validNodes n))
         (flat_map (fun e => [from e; to e]) es).

Definition validateNodesExist (validNodes : list string) (es : list EdgeDto)
    (mustExistNodes : list string) : result unit :=
  let missing := missingOf validNodes mustExistNodes in
  if negb (Nat.eqb (length missing) 0) then Throw (MissingNodes missing)
  else
    let invalidEdgeNodes := invalidEdgeNodesOf validNodes es in
    if negb (Nat.eqb (length invalidEdgeNodes) 0)
    then Throw (InvalidEdgeNodes invalidEdgeNodes)
    else Ok tt.

(** ** buildGraph *)

(** [graph.get(k)!.set(n, c)]: dereferencing an absent entry is a
    [TypeError]. *)
Definition setNeighbor (graph : Graph) (k n : string) (c : number) : result Graph :=
  match JsMap.get graph k with
  | Some m => Ok (JsMap.set graph k (JsMap.set m n c))
  | None => TypeError
  end.

(** One iteration of the loop of [buildGraph]. *)
Definition addEdge (blocked : list string) (graph : Graph) (e : EdgeDto)
  : result Graph :=
  if includes blocked (from e) || includes blocked (to e) then Ok graph
  else
    let graph :=
      if negb (JsMap.has graph (from e))
      then JsMap.set graph (from e) (JsMap.empty number) else graph in
    let graph :=
      if negb (JsMap.has graph (to e))
      then JsMap.set graph (to e) (JsMap.empty number) else graph in
    graph <- setNeighbor graph (from e) (to e) (cost e) ;;
    setNeighbor graph (to e) (from e) (cost e).

Fixpoint buildGraph_from (graph : Graph) (es : list EdgeDto)
    (blocked : list string) : result Graph :=
  match es with
  | [] => Ok graph
  | e :: rest =>
      graph <- addEdge blocked graph e ;;
      buildGraph_from graph rest blocked
  end.

Definition buildGraph (es : list EdgeDto) (blocked : list string)
  : result Graph :=
  buildGraph_from (JsMap.empty (JsMap.t number)) es blocked.

(** ** The single-pair search *)

(** [m.get(k)!] read as a number: an absent key gives [undefined], which
    behaves as [NaN] under [+] and [<]. *)
Definition getNum (m : JsMap.t number) (k : string) : number :=
  match JsMap.get m k with Some d => d | None => NaN end.

(** The state of the loop in [getMinDistanceNode]. *)
Definition minStep (distances : JsMap.t number)
    (acc : option string * number) (node : string) : option string * number :=
  let dist := getNum distances node in
  if num_lt dist (snd acc) then (Some node, dist) else acc.

Definition getMinDistanceNode (unvisited : JsSet.t)
    (distances : JsMap.t number) : option string :=
  fst (fold_left (minStep distances) unvisited (None, Infinity)).

(** One iteration of the loop in [processNeighbors]. *)
Definition relax (current : string) (unvisited : JsSet.t)
    (acc : JsMap.t number * JsMap.t (option string))
    (entry : string * number) : JsMap.t number * JsMap.t (option string) :=
  let '(distances, previous) := acc in
  let '(neighbor, c) := entry in
  if negb (JsSet.has unvisited neighbor) then acc
  else
    let newDist := num_add (getNum distances current) c in
    if num_lt newDist (getNum distances neighbor)
    then (JsMap.set distances neighbor newDist,
          JsMap.set previous neighbor (Some current))
    else acc.

Definition processNeighbors (current : string) (graph : Graph)
    (unvisited : JsSet.t) (distances : JsMap.t number)
    (previous : JsMap.t (option string))
  : JsMap.t number * JsMap.t (option string) :=
  let neighbors :=
    match JsMap.get graph current with
    | Some m => m
    | None => JsMap.empty number
    end in
  fold_left (relax current unvisited) neighbors (distances, previous).

(** [previous.get(current) || null]. *)
Definition previousOf (previous : JsMap.t (option string)) (current : string)
  : option string :=
  match JsMap.get previous current with
  | Some (Some p) => if truthy p then Some p else None
  | _ => None
  end.

(** The loop of [reconstructPath]: [current] and [path] after it, or nothing
    when the budget is spent. *)
Fixpoint walkBack (fuel : nat) (start : string)
    (previous : JsMap.t (option string)) (current : option string)
    (path : list string) : option (option string * list string) :=
  match fuel with
  | O => None
  | S fuel' =>
      match current with
      | Some c =>
          if truthy c && negb (String.eqb c start)
          then walkBack fuel' start previous (previousOf previous c) (c :: path)
          else Some (current, path)
      | None => Some (current, path)
      end
  end.

Definition reconstructPath (fuel : nat) (start end_ : string)
    (previous : JsMap.t (option string)) : result (option (list string)) :=
  match walkBack fuel start previous (Some end_) [] with
  | None => OutOfFuel
  | Some (current, path) =>
      if negb (truthy_opt current) then Ok None
      else Ok (Some (start :: path))
  end.

Record SearchState : Type := mkSearchState {
  unvisited : JsSet.t;
  distances : JsMap.t number;
  previous : JsMap.t (option string)
}.

(** The [while] loop of [dijkstra]. *)
Fixpoint searchLoop (fuel : nat) (graph : Graph) (end_ : string)
    (st : SearchState) : result SearchState :=
  match fuel with
  | O => OutOfFuel
  | S fuel' =>
      if Nat.ltb 0 (JsSet.size (unvisited st)) then
        match getMinDistanceNode (unvisited st) (distances st) with
        | None => Ok st
        | Some current =>
            if negb (truthy current) || String.eqb current end_ then Ok st
            else
              let unvisited' := JsSet.delete (unvisited st) current in
              let '(distances', previous') :=
                processNeighbors current graph unvisited'
                                 (distances st) (previous st) in
              searchLoop fuel' graph end_
                         (mkSearchState unvisited' distances' previous')
        end
      else Ok st
  end.

Definition initialState (graph : Graph) (start : string) : SearchState :=
  let unvisited := JsSet.of_list (JsMap.keys graph) in
  let distances :=
    fold_left (fun d node => JsMap.set d node Infinity) unvisited
              (JsMap.empty number) in
  let distances := JsMap.set distances start 0%float in
  mkSearchState unvisited distances (JsMap.empty (option string)).

Definition dijkstra (graph : Graph) (start end_ : string)
  : result (option Segment) :=
  let st0 := initialState graph start in
  st <- searchLoop (S (JsSet.size (unvisited st0))) graph end_ st0 ;;
  path <- reconstructPath (2 + JsSet.size (unvisited st0)) start end_
                          (previous st) ;;
  Ok (match path with
      | Some p => Some (mkSegment p (getNum (distances st) end_))
      | None => None
      end).

(** ** findPathWithRequiredStops *)

(** The loop over [i], with [sequence[i]] the head of [sequence]. *)
Fixpoint stopsLoop (graph : Graph) (i : nat) (sequence : list string)
    (totalPath : list string) (totalCost : number)
  : result (option Segment) :=
  match sequence with
  | a :: ((b :: _) as rest) =>
      segment <- dijkstra graph a b ;;
      match segment with
      | None => Ok None
      | Some s =>
          let totalCost := num_add totalCost (seg_cost s) in
          let totalPath :=
            if Nat.eqb i 0 then seg_path s
            else totalPath ++ tl (seg_path s) in
          stopsLoop graph (S i) rest totalPath totalCost
      end
  | _ => Ok (Some (mkSegment totalPath totalCost))
  end.

Definition findPathWithRequiredStops (graph : Graph) (start end_ : string)
    (requiredStops : list string) : result (option Segment) :=
  let sequence := start :: requiredStops ++ [end_] in
  stopsLoop graph 0 sequence [] 0%float.

(** ** findOptimalPath *)

Definition findOptimalPath (request : PathRequestDto) : result PathResult :=
  let blocked := blockedNodes (constraints request) in
  let stops := requiredStops (constraints request) in
  _ <- validateNodesExist (nodes request) (edges request)
                          (stops ++ [end_ request]) ;;
  graph <- buildGraph (edges request) blocked ;;
  r <- findPathWithRequiredStops graph (start request) (end_ request) stops ;;
  match r with
  | None => Throw (NoPathFound stops)
  | Some s => Ok (mkPathResult (seg_path s) (seg_cost s))
  end.


Unset Implicit Arguments.

(** ** Notions used to state the properties *)

(** The cost recorded for the ordered pair [(a, b)]. *)
Definition costOf (graph : Graph) (a b : string) : option number :=
  match JsMap.get graph a with
  | Some m => JsMap.get m b
  | None => None
  end.

(** An edge is dropped by [buildGraph] when one of its endpoints is blocked. *)
Definition touchesBlocked (blocked : list string) (e : EdgeDto) : bool :=
  includes blocked (from e) || includes blocked (to e).

(** The ordered pairs an edge is recorded under. *)
Definition recordedUnder (e : EdgeDto) (a b : string) : bool :=
  (String.eqb a (from e) && String.eqb b (to e))
  || (String.eqb a (to e) && String.eqb b (from e)).

(** What [buildGraph] guarantees about a graph, given the blocked list: keys
    are unique, no key and no neighbour key is blocked, and no adjacency map
    is empty. *)
Definition cleanNeighbors (blocked : list string) (m : JsMap.t number) : Prop :=
  NoDup (JsMap.keys m) /\ forall n, In n (JsMap.keys m) -> ~ In n blocked.

Definition cleanGraph (blocked : list string) (graph : Graph) : Prop :=
  NoDup (JsMap.keys graph) /\
  forall k m, JsMap.get graph k = Some m ->
              ~ In k blocked /\ cleanNeighbors blocked m.

Definition noEmptyNeighbors (graph : Graph) : Prop :=
  forall k m, JsMap.get graph k = Some m -> m <> [].

(** The consecutive pairs of a sequence of stops. *)
Fixpoint consecutivePairs (sequence : list string) : list (string * string) :=
  match sequence with
  | a :: ((b :: _) as rest) => (a, b) :: consecutivePairs rest
  | _ => []
  end.

(** The stitched route as the specification words it: the first segment
    whole, every later segment without its first node. *)
Definition stitchedPath (segments : list Segment) : list string :=
  match segments with
  | [] => []
  | s :: rest => seg_path s ++ flat_map (fun s' => tl (seg_path s')) rest
  end.

(** The sum of the costs of the segments. *)
Definition sumCosts (segments : list Segment) : number :=
  fold_left (fun acc s => num_add acc (seg_cost s)) segments 0%float.

(** The search on the pair [ab] returns the segment [s]. *)
Definition searchReturns (graph : Graph) (ab : string * string) (s : Segment)
  : Prop :=
  dijkstra graph (fst ab) (snd ab) = Ok (Some s).

(** *** The shape of the predecessor map during a search

    [settled] lists the nodes removed from [unvisited], the latest first.
    [olderIn settled q n]: [q] was settled before [n]. *)
Fixpoint olderIn (settled : list string) (q n : string) : Prop :=
  match settled with
  | [] => False
  | v :: rest => if String.eqb v n then In q rest else olderIn rest q n
  end.

(** Every predecessor is a settled node, never [null], and the predecessor
    of a settled node was settled before it. *)
Definition predecessorsSettled (settled : list string)
    (previous : JsMap.t (option string)) : Prop :=
  forall n x, JsMap.get previous n = Some x ->
    exists q, x = Some q /\ In q settled /\ (In n settled -> olderIn settled q n).

Definition searchShape (all settled : list string) (st : SearchState) : Prop :=
  NoDup settled /\
  incl settled all /\
  incl (unvisited st) all /\
  (forall x, In x settled -> ~ In x (unvisited st)) /\
  predecessorsSettled settled (previous st) /\
  (forall n x, JsMap.get (previous st) n = Some x -> In n all).

(** The loop of [dijkstra] stops in [st]. *)
Definition searchStops (end_ : string) (st : SearchState) : Prop :=
  unvisited st = [] \/
  getMinDistanceNode (unvisited st) (distances st) = None \/
  exists current,
    getMinDistanceNode (unvisited st) (distances st) = Some current /\
    (truthy current = false \/ current = end_).

(** *** Numbers in order *)

(** [a <= b] on numbers, and the test for [NaN]. *)
Definition num_le (a b : number) : bool := (a <=? b)%float.

Definition isNaN (a : number) : bool := negb (a =? a)%float.

(** The place of a number in the order of the doubles: its class from
    [-Infinity] to [Infinity], then exponent and mantissa; none for [NaN]. *)
Definition rank (x : spec_float) : option (Z * Z * Z) :=
  match x with
  | S754_nan => None
  | S754_infinity true => Some ((-2)%Z, 0%Z, 0%Z)
  | S754_finite true m e => Some ((-1)%Z, (- e)%Z, Z.neg m)
  | S754_zero _ => Some (0%Z, 0%Z, 0%Z)
  | S754_finite false m e => Some (1%Z, e, Z.pos m)
  | S754_infinity false => Some (2%Z, 0%Z, 0%Z)
  end.

Definition below (a b : Z * Z * Z) : Prop :=
  let '(a1, a2, a3) := a in
  let '(b1, b2, b3) := b in
  (a1 < b1 \/ (a1 = b1 /\ (a2 < b2 \/ (a2 = b2 /\ a3 < b3))))%Z.

(** *** Paths and the invariant of the search *)

(** [Path graph a b p d]: [p] lists the nodes of a path of [graph] from [a]
    to [b], and [d] is the sum of the costs of its edges as the search forms
    it: added one by one to 0, in the order of the path, each sum rounded. *)
Inductive Path (graph : Graph) (a : string)
  : string -> list string -> number -> Prop :=
| Path_start : Path graph a a [a] 0%float
| Path_step b c p d w :
    Path graph a b p d -> costOf graph b c = Some w ->
    Path graph a c (p ++ [c]) (num_add d w).

(** [p] lists the nodes of a walk of [graph] from [a] to [b]. *)
Definition Walk (graph : Graph) (a b : string) (p : list string) : Prop :=
  exists d, Path graph a b p d.

(** Keys of an adjacency map are unique, as in every [Map]. *)
Definition uniqueNeighbors (graph : Graph) : Prop :=
  forall k m, JsMap.get graph k = Some m -> NoDup (JsMap.keys m).

Definition nonEmptyIds (graph : Graph) : Prop :=
  forall k, In k (JsMap.keys graph) -> k <> "".

(** What holds of the state of a search from [start] before every iteration,
    whatever the costs are; [all] are the keys of the graph, [settled] the
    nodes taken so far.  The predecessors form a tree rooted at [start] whose
    edges are edges of the graph, and the distance of a node is the distance
    of its predecessor plus the cost of the edge between them. *)
Record treeInv (graph : Graph) (start : string)
    (all settled : list string) (st : SearchState) : Prop := mkTreeInv {
  tree_shape : searchShape all settled st;
  tree_start : getNum (distances st) start = 0%float;
  tree_edges : forall n q, JsMap.get (previous st) n = Some (Some q) ->
      exists w, costOf graph q n = Some w /\
                getNum (distances st) n = num_add (getNum (distances st) q) w;
  tree_first : ~ In start (unvisited st) \/
      forall k, In k (unvisited st) ->
                num_lt (getNum (distances st) k) Infinity = true -> k = start
}.

Arguments tree_shape {graph start all settled st}.
Arguments tree_start {graph start all settled st}.
Arguments tree_edges {graph start all settled st}.
Arguments tree_first {graph start all settled st}.

(** A route that calls at the required stops in order: one path of the graph
    for each consecutive pair of [a :: stops ++ [b]], stitched at the stops;
    its cost adds the costs of these paths to 0, one after the other. *)
Definition Route (graph : Graph) (a : string) (stops : list string) (b : string)
    (p : list string) (d : number) : Prop :=
  exists segments,
    Forall2 (fun ab s => Path graph (fst ab) (snd ab) (seg_path s) (seg_cost s))
            (consecutivePairs (a :: stops ++ [b])) segments /\
    p = stitchedPath segments /\ d = sumCosts segments.

(** Executable checks of conditions on a graph. *)
Fixpoint distinct (l : list string) : bool :=
  match l with
  | [] => true
  | x :: rest => negb (includes rest x) && distinct rest
  end.

Definition uniqueNeighborsb (graph : Graph) : bool :=
  forallb (fun kv => distinct (JsMap.keys (snd kv))) graph.

Definition nonEmptyIdsb (graph : Graph) : bool :=
  forallb truthy (JsMap.keys graph).

(** *** Sample requests *)

(** Nodes A, B, C with edges A-B (1), A-C (4), B-C (2). *)
Definition triangleEdges : list EdgeDto :=
  [mkEdge "A" "B" 1; mkEdge "A" "C" 4; mkEdge "B" "C" 2].

Definition triangleGraph : Graph :=
  [("A", [("B", 1%float); ("C", 4%float)]);
   ("B", [("A", 1%float); ("C", 2%float)]);
   ("C", [("A", 4%float); ("B", 2%float)])].

(** A-B (1), B-C (2) with B blocked: nothing joins A and C. *)
Definition blockedLineRequest : PathRequestDto :=
  mkRequest "A" "C" ["A"; "B"; "C"]
            [mkEdge "A" "B" 1; mkEdge "B" "C" 2]
            (mkConstraints ["B"] []).

(** Edges that mention the undeclared identifiers C and D. *)
Definition undeclaredEdgeRequest : PathRequestDto :=
  mkRequest "A" "B" ["A"; "B"]
            [mkEdge "A" "C" 1; mkEdge "D" "A" 2; mkEdge "C" "B" 1]
            (mkConstraints [] []).

(** Start and end are the blocked node A. *)
Definition blockedStartRequest : PathRequestDto :=
  mkRequest "A" "A" ["A"; "B"]
            [mkEdge "A" "B" 1]
            (mkConstraints ["A"] []).

(** The empty identifier as a declared node, joined to A. *)
Definition emptyIdEdges : list EdgeDto := [mkEdge "A" "" 1].

Definition emptyIdGraph : Graph :=
  [("A", [("", 1%float)]); ("", [("A", 1%float)])].

Definition emptyIdRequest : PathRequestDto :=
  mkRequest "" "" [""; "A"] emptyIdEdges (mkConstraints [] []).

(** Start and end are the empty identifier, which is not declared. *)
Definition emptyIdUndeclaredRequest : PathRequestDto :=
  mkRequest "" "" ["A"; "B"] [mkEdge "A" "B" 1] (mkConstraints [] []).

(** A detour: A-B (1), B-C (2), A-C (4), C-D (1), and D blocked. *)
Definition detourRequest : PathRequestDto :=
  mkRequest "A" "C" ["A"; "B"; "C"; "D"]
            [mkEdge "A" "B" 1; mkEdge "B" "C" 2; mkEdge "A" "C" 4;
             mkEdge "C" "D" 1]
            (mkConstraints ["D"] ["B"]).

(** Start and end are the declared node B, no stop is required. *)
Definition roundTripRequest : PathRequestDto :=
  mkRequest "B" "B" ["A"; "B"; "C"] triangleEdges (mkConstraints [] []).

(** *** Notions for the further properties *)

(** The edge [e] survives blocking and joins [a] and [b], in one of the two
    directions. *)
Definition joins (blocked : list string) (a b : string) (e : EdgeDto) : bool :=
  negb (touchesBlocked blocked e) && recordedUnder e a b.

(** The cost of the last edge of the list that joins [a] and [b]. *)
Definition lastCost (blocked : list string) (es : list EdgeDto) (a b : string)
  : option number :=
  option_map cost (find (joins blocked a b) (rev es)).

(** Every neighbour key of a graph is one of its keys. *)
Definition closedGraph (graph : Graph) : Prop :=
  forall k m n, JsMap.get graph k = Some m -> In n (JsMap.keys m) ->
                In n (JsMap.keys graph).

(** Each node of [p] is the predecessor, as [reconstructPath] reads it, of
    the node that follows it. *)
Definition linked (previous : JsMap.t (option string)) (p : list string)
  : Prop :=
  Forall (fun xy => previousOf previous (snd xy) = Some (fst xy))
         (consecutivePairs p).

(** Predecessors that lead from B to C and back, never to A. *)
Definition cyclicPrevious : JsMap.t (option string) :=
  [("B", Some "C"); ("C", Some "B")].

Definition chainPrevious : JsMap.t (option string) :=
  [("A", None); ("B", Some "A"); ("C", Some "B")].

(** The required stop B is blocked. *)
Definition blockedStopRequest : PathRequestDto :=
  mkRequest "A" "C" ["A"; "B"; "C"] triangleEdges (mkConstraints ["B"] ["B"]).

(** ** The earlier draft of the service

    The source keeps an earlier version of [RouteFinderService]: it searches
    before it validates, keeps a [visited] set next to [unvisited], names the
    absent node by the empty string, and rebuilds a segment with a different
    loop.  Its [buildGraph] has the statements of the one above, with
    [edge.from], [edge.to] and [edge.cost] for the destructured fields. *)

Module Draft.

Definition MissingNodes (missing : list string) : HttpException :=
  mkHttpException ("Missing required nodes " ++ join ", " missing)%string
                  BAD_REQUEST.

Definition InvalidEdgeNodes (invalid : list string) : HttpException :=
  mkHttpException ("Invalid edge nodes " ++ join "," invalid)%string
                  BAD_REQUEST.

Record State : Type := mkState {
  visited : JsSet.t;
  unvisited : JsSet.t;
  distances : JsMap.t number;
  previous : JsMap.t string
}.

Definition initializeDijkstra (graph : Graph) (start : string)
  : JsMap.t number * JsMap.t string :=
  let distances :=
    fold_left (fun d node => JsMap.set d node Infinity) (JsMap.keys graph)
              (JsMap.empty number) in
  let distances := JsMap.set distances start 0%float in
  (distances, JsMap.empty string).

(** The state of the loop in [findNextNode]. *)
Definition nextStep (distances : JsMap.t number)
    (acc : string * number) (node : string) : string * number :=
  if num_lt (getNum distances node) (snd acc)
  then (node, getNum distances node) else acc.

Definition findNextNode (unvisited : JsSet.t) (distances : JsMap.t number)
  : string :=
  fst (fold_left (nextStep distances) unvisited ("", Infinity)).

(** One iteration of the loop in [updateNeighbors]. *)
Definition update (current : string) (visited : JsSet.t)
    (acc : JsMap.t number * JsMap.t string) (entry : string * number)
  : JsMap.t number * JsMap.t string :=
  let '(distances, previous) := acc in
  let '(neighbor, c) := entry in
  if JsSet.has visited neighbor then acc
  else
    let newDistance := num_add (getNum distances current) c in
    if num_lt newDistance (getNum distances neighbor)
    then (JsMap.set distances neighbor newDistance,
          JsMap.set previous neighbor current)
    else acc.

Definition updateNeighbors (current : string) (graph : Graph) (st : State)
  : State :=
  let unvisited' := JsSet.delete (unvisited st) current in
  let visited' := JsSet.add (visited st) current in
  let neighbors :=
    match JsMap.get graph current with
    | Some m => m
    | None => JsMap.empty number
    end in
  let '(distances', previous') :=
    fold_left (update current visited') neighbors
              (distances st, previous st) in
  mkState visited' unvisited' distances' previous'.

(** The [while] loop of a segment. *)
Fixpoint searchLoop (fuel : nat) (graph : Graph) (currentEnd : string)
    (st : State) : result State :=
  match fuel with
  | O => OutOfFuel
  | S fuel' =>
      if Nat.ltb 0 (JsSet.size (unvisited st)) then
        let current := findNextNode (unvisited st) (distances st) in
        if negb (truthy current) || String.eqb current currentEnd then Ok st
        else searchLoop fuel' graph currentEnd
                        (updateNeighbors current graph st)
      else Ok st
  end.

(** The loop of [reconstructSegmentPath], entered at its test. *)
Fixpoint walk (fuel : nat) (start : string) (previous : JsMap.t string)
    (current : string) (path : list string) : result (option (list string)) :=
  match fuel with
  | O => OutOfFuel
  | S fuel' =>
      if String.eqb current start then Ok (Some (start :: path))
      else
        match JsMap.get previous current with
        | Some p =>
            if truthy p then walk fuel' start previous p (current :: path)
            else Ok None
        | None => Ok None
        end
  end.

Definition reconstructSegmentPath (fuel : nat) (start end_ : string)
    (previous : JsMap.t string) : result (option (list string)) :=
  walk fuel start previous end_ [].

(** The search of one segment: the state after the loop. *)
Definition searchSegment (graph : Graph) (currentStart currentEnd : string)
  : result State :=
  let '(distances, previous) := initializeDijkstra graph currentStart in
  let unvisited := JsSet.of_list (JsMap.keys graph) in
  searchLoop (S (JsSet.size unvisited)) graph currentEnd
             (mkState [] unvisited distances previous).

(** The loop over [i] of the draft's [dijkstra]. *)
Fixpoint segmentsLoop (graph : Graph) (i : nat) (sequence : list string)
    (totalPath : list string) (totalCost : number)
  : result (option Segment) :=
  match sequence with
  | currentStart :: ((currentEnd :: _) as rest) =>
      st <- searchSegment graph currentStart currentEnd ;;
      segmentPath <-
        reconstructSegmentPath (2 + JsSet.size (JsSet.of_list (JsMap.keys graph)))
                               currentStart currentEnd (previous st) ;;
      match segmentPath with
      | None => Ok None
      | Some p =>
          let totalPath := if Nat.eqb i 0 then p else totalPath ++ tl p in
          let totalCost := num_add totalCost (getNum (distances st) currentEnd) in
          segmentsLoop graph (S i) rest totalPath totalCost
      end
  | _ => Ok (Some (mkSegment totalPath totalCost))
  end.

Definition dijkstra (graph : Graph) (start end_ : string)
    (requiredStops : list string) : result (option Segment) :=
  segmentsLoop graph 0 (start :: requiredStops ++ [end_]) [] 0%float.

Definition findOptimalPath (request : PathRequestDto) : result PathResult :=
  let blocked := blockedNodes (constraints request) in
  let stops := requiredStops (constraints request) in
  graph <- buildGraph (edges request) blocked ;;
  r <- dijkstra graph (start request) (end_ request) stops ;;
  let missingNodes := missingOf (nodes request) (stops ++ [end_ request]) in
  if Nat.ltb 0 (length missingNodes) then Throw (MissingNodes missingNodes)
  else
    let invalidEdgeNodes :=
      invalidEdgeNodesOf (nodes request) (edges request) in
    if Nat.ltb 0 (length invalidEdgeNodes)
    then Throw (InvalidEdgeNodes invalidEdgeNodes)
    else
      match r with
      | None => Throw (NoPathFound stops)
      | Some s => Ok (mkPathResult (seg_path s) (seg_cost s))
      end.

End Draft.

(** The final service's view of the draft's predecessor map. *)
Definition lift (previous : JsMap.t string) : JsMap.t (option string) :=
  map (fun kv => (fst kv, Some (snd kv))) previous.

(** The draft's state [ds] and the final service's state [fs] describe the
    same point of a search over [graph]. *)
Definition sameSearch (graph : Graph) (ds : Draft.State) (fs : SearchState)
  : Prop :=
  Draft.unvisited ds = unvisited fs /\
  Draft.distances ds = distances fs /\
  lift (Draft.previous ds) = previous fs /\
  forall n, In n (JsMap.keys graph) ->
            JsSet.has (Draft.visited ds) n =
            negb (JsSet.has (Draft.unvisited ds) n).

(** Start and end are the declared empty identifier. *)
Definition emptyRoundTripRequest : PathRequestDto :=
  mkRequest "" "" [""; "A"] [mkEdge "" "A" 1] (mkConstraints [] []).

(** The nodes of the result of a search through stops. *)
Definition pathOf (r : result (option Segment))
  : result (option (list string)) :=
  s <- r ;; Ok (option_map seg_path s).

(** A chain A-B-C-D whose first edge costs 2^53, where adding 1 is lost to
    rounding. *)
Definition longChainGraph : Graph :=
  [("A", [("B", 9007199254740992%float)]);
   ("B", [("A", 9007199254740992%float); ("C", 1%float)]);
   ("C", [("B", 1%float); ("D", 1%float)]);
   ("D", [("C", 1%float)])].

(** *** Integer costs, where the sums of doubles are exact *)

(** The integer [z] as a double. *)
Fixpoint ofPos (p : positive) : number :=
  match p with
  | xH => 1%float
  | xO q => num_add (ofPos q) (ofPos q)
  | xI q => num_add (num_add (ofPos q) (ofPos q)) 1%float
  end.

Definition ofZ (z : Z) : number :=
  match z with
  | Z0 => 0%float
  | Zpos p => ofPos p
  | Zneg p => (- ofPos p)%float
  end.

(** On the integers from 0 to [B], the addition and the comparison of
    doubles are those of the integers.  IEEE-754 grants this for every [B] up
    to 2^53; here it is a condition, which [exactUpTob] checks by computation
    for a given bound. *)
Record exactUpTo (B : Z) : Prop := mkExactUpTo {
  exact_add : forall a b, (0 <= a)%Z -> (0 <= b)%Z -> (a + b <= B)%Z ->
      num_add (ofZ a) (ofZ b) = ofZ (a + b);
  exact_lt : forall a b, (0 <= a <= B)%Z -> (0 <= b <= B)%Z ->
      num_lt (ofZ a) (ofZ b) = (a <? b)%Z;
  exact_fin : forall a, (0 <= a <= B)%Z -> num_lt (ofZ a) Infinity = true
}.

Arguments exact_add {B}.
Arguments exact_lt {B}.
Arguments exact_fin {B}.

(** The graph records the integer [w], between 0 and [W], for [(a, b)]. *)
Definition intCost (graph : Graph) (W : Z) (a b : string) (w : Z) : Prop :=
  costOf graph a b = Some (ofZ w) /\ (0 <= w <= W)%Z.

(** Every cost of the graph is an integer between 0 and [W]. *)
Definition intCosts (graph : Graph) (W : Z) : Prop :=
  forall a b c, costOf graph a b = Some c ->
                exists w, (0 <= w <= W)%Z /\ c = ofZ w.

(** [ExactPath graph W a b p d]: [p] lists the nodes of a path of [graph]
    from [a] to [b] along edges of integer cost, and [d] is the sum of these
    costs, as an integer. *)
Inductive ExactPath (graph : Graph) (W : Z) (a : string)
  : string -> list string -> Z -> Prop :=
| ExactPath_start : ExactPath graph W a a [a] 0%Z
| ExactPath_step b c p d w :
    ExactPath graph W a b p d -> intCost graph W b c w ->
    ExactPath graph W a c (p ++ [c]) (d + w)%Z.

(** A route through the stops along edges of integer cost, with the sum of
    these costs. *)
Fixpoint ExactRoute (graph : Graph) (W : Z) (a : string) (stops : list string)
    (b : string) (p : list string) (d : Z) : Prop :=
  match stops with
  | [] => ExactPath graph W a b p d
  | s :: rest =>
      exists p1 d1 p2 d2,
        ExactPath graph W a s p1 d1 /\ ExactRoute graph W s rest b p2 d2 /\
        p = p1 ++ tl p2 /\ d = (d1 + d2)%Z
  end.

(** The number [x] is the integer [z], between 0 and [B]. *)
Definition isFin (B : Z) (x : number) (z : Z) : Prop :=
  (0 <= z <= B)%Z /\ x = ofZ z.

Definition typed (B : Z) (x : number) : Prop :=
  x = Infinity \/ exists z, isFin B x z.

(** [atMost B x d]: the number [x] is an integer at most [d]. *)
Definition atMost (B : Z) (x : number) (d : Z) : Prop :=
  exists z, isFin B x z /\ (z <= d)%Z.

(** What holds of the state of a search in addition, when the costs are
    integers whose sums are exact: the distances are integers or [Infinity],
    the distance of a settled node is the cost of a cheapest path to it, and
    no edge out of a settled node can improve the distance of an unvisited
    one. *)
Record searchInv (B W : Z) (graph : Graph) (start end_ : string)
    (all settled : list string) (st : SearchState) : Prop := mkSearchInv {
  inv_base : treeInv graph start all settled st;
  inv_cover : forall k, In k all -> In k settled \/ In k (unvisited st);
  inv_end : ~ In end_ settled;
  inv_typed : forall k, In k all ->
      getNum (distances st) k = Infinity \/
      exists z, isFin B (getNum (distances st) k) z /\
                (z <= Z.of_nat (length settled) * W)%Z;
  inv_reached : forall k z, In k all -> isFin B (getNum (distances st) k) z ->
      k = start \/ exists q, JsMap.get (previous st) k = Some (Some q);
  inv_unreached : forall k x, JsMap.get (previous st) k = Some x ->
      exists z, isFin B (getNum (distances st) k) z;
  inv_edges : forall n q, JsMap.get (previous st) n = Some (Some q) ->
      exists dq w, isFin B (getNum (distances st) q) dq /\
                   intCost graph W q n w /\
                   isFin B (getNum (distances st) n) (dq + w);
  inv_optimal : forall s, In s settled ->
      exists ds, isFin B (getNum (distances st) s) ds /\
                 forall p d, ExactPath graph W start s p d -> (ds <= d)%Z;
  inv_relaxed : forall s v w, In s settled -> intCost graph W s v w ->
      In v (unvisited st) ->
      exists ds, isFin B (getNum (distances st) s) ds /\
                 atMost B (getNum (distances st) v) (ds + w)
}.

Arguments inv_base {B W graph start end_ all settled st}.
Arguments inv_cover {B W graph start end_ all settled st}.
Arguments inv_end {B W graph start end_ all settled st}.
Arguments inv_typed {B W graph start end_ all settled st}.
Arguments inv_reached {B W graph start end_ all settled st}.
Arguments inv_unreached {B W graph start end_ all settled st}.
Arguments inv_edges {B W graph start end_ all settled st}.
Arguments inv_optimal {B W graph start end_ all settled st}.
Arguments inv_relaxed {B W graph start end_ all settled st}.

(** Executable checks of the two conditions on integer costs. *)
Definition upTo (n : nat) : list Z := map Z.of_nat (seq 0 (S n)).

Definition exactUpTob (n : nat) : bool :=
  forallb
    (fun a =>
       num_lt (ofZ a) Infinity &&
       forallb
         (fun b =>
            Bool.eqb (num_lt (ofZ a) (ofZ b)) (a <? b)%Z &&
            ((Z.of_nat n <? a + b)%Z ||
             PrimFloat.Leibniz.eqb (num_add (ofZ a) (ofZ b)) (ofZ (a + b))))
         (upTo n))
    (upTo n).

Definition intCostsb (graph : Graph) (n : nat) : bool :=
  forallb
    (fun kv =>
       forallb
         (fun nw =>
            existsb (fun w => PrimFloat.Leibniz.eqb (snd nw) (ofZ w)) (upTo n))
         (snd kv))
    graph.

(** *** Costs whose sums are rounded *)

(** Two ways from A to D: through B for 2^53 + 1, which rounds to 2^53, and
    through C for 2^53. *)
Definition roundingGraph : Graph :=
  [("A", [("B", 0x1p53%float); ("C", 0x1p53%float)]);
   ("B", [("A", 0x1p53%float); ("D", 1%float)]);
   ("C", [("A", 0x1p53%float); ("D", 0%float)]);
   ("D", [("B", 1%float); ("C", 0%float)])].

(** The chain A-B-C-D with the costs 0.1, 0.2 and 0.3, as the doubles
    nearest to them, and the given required stops. *)
Definition fractionRequest (stops : list string) : PathRequestDto :=
  mkRequest "A" "D" ["A"; "B"; "C"; "D"]
            [mkEdge "A" "B" 0x1.999999999999ap-4;
             mkEdge "B" "C" 0x1.999999999999ap-3;
             mkEdge "C" "D" 0x1.3333333333333p-2]
            (mkConstraints [] stops).

(** * Properties *)

(** ** Numbers: the order of the doubles *)

Lemma SFcompare_rank x y :
  match SFcompare x y with
  | None => rank x = None \/ rank y = None
  | Some c =>
      exists a b, rank x = Some a /\ rank y = Some b /\
        match c with
        | Lt => below a b
        | Eq => a = b
        | Gt => below b a
        end
  end.
Proof.
  destruct x as [sx|sx| |sx mx ex], y as [sy|sy| |sy my ey];
    try destruct sx; try destruct sy; cbn [SFcompare rank]; auto;
    try (do 2 eexists; split; [reflexivity|split; [reflexivity|]];
         cbn; solve [auto | lia]).
  - do 2 eexists; split; [reflexivity|split; [reflexivity|]].
    destruct (Z.compare_spec ex ey) as [->|H|H]; cbn; try lia.
    change (Pos.compare_cont Eq mx my) with (Pos.compare mx my).
    destruct (Pos.compare_spec mx my) as [->|H|H]; cbn; auto; lia.
  - do 2 eexists; split; [reflexivity|split; [reflexivity|]].
    destruct (Z.compare_spec ex ey) as [->|H|H]; cbn; try lia.
    change (Pos.compare_cont Eq mx my) with (Pos.compare mx my).
    destruct (Pos.compare_spec mx my) as [->|H|H]; cbn; auto; lia.
Qed.

Ltac triples :=
  repeat match goal with
  | H : rank ?x = Some ?a, H' : rank ?x = Some ?b |- _ =>
      rewrite H in H'; injection H' as H'
  end;
  subst;
  repeat match goal with x : (Z * Z * Z)%type |- _ => destruct x as [[? ?] ?] end;
  repeat match goal with
  | H : (_, _, _) = (_, _, _) |- _ => injection H as ? ? ?
  end;
  cbn [below] in *.

Lemma num_lt_below x y :
  num_lt x y = true <->
  exists a b, rank (Prim2SF x) = Some a /\ rank (Prim2SF y) = Some b /\
              below a b.
Proof.
  unfold num_lt. rewrite FloatAxioms.ltb_spec. unfold SFltb.
  pose proof (SFcompare_rank (Prim2SF x) (Prim2SF y)) as H.
  destruct (SFcompare (Prim2SF x) (Prim2SF y)) as [[]|].
  - destruct H as (a & b & Ha & Hb & Hab). split; [discriminate|].
    intros (a' & b' & Ha' & Hb' & Hlt). triples. lia.
  - destruct H as (a & b & Ha & Hb & Hlt). split; eauto.
  - destruct H as (a & b & Ha & Hb & Hgt). split; [discriminate|].
    intros (a' & b' & Ha' & Hb' & Hlt). triples. lia.
  - split; [discriminate|].
    intros (a' & b' & Ha' & Hb' & Hlt). destruct H; congruence.
Qed.

Lemma num_le_below x y :
  num_le x y = true <->
  exists a b, rank (Prim2SF x) = Some a /\ rank (Prim2SF y) = Some b /\
              (below a b \/ a = b).
Proof.
  unfold num_le. rewrite FloatAxioms.leb_spec. unfold SFleb.
  pose proof (SFcompare_rank (Prim2SF x) (Prim2SF y)) as H.
  destruct (SFcompare (Prim2SF x) (Prim2SF y)) as [[]|].
  - destruct H as (a & b & Ha & Hb & Hab). split; eauto 6.
  - destruct H as (a & b & Ha & Hb & Hlt). split; eauto 6.
  - destruct H as (a & b & Ha & Hb & Hgt). split; [discriminate|].
    intros (a' & b' & Ha' & Hb' & [Hlt|Heq]); triples; lia.
  - split; [discriminate|].
    intros (a' & b' & Ha' & Hb' & Hlt). destruct H; congruence.
Qed.

Lemma isNaN_rank x : isNaN x = false <-> exists a, rank (Prim2SF x) = Some a.
Proof.
  unfold isNaN. rewrite FloatAxioms.eqb_spec. unfold SFeqb.
  pose proof (SFcompare_rank (Prim2SF x) (Prim2SF x)) as H.
  destruct (SFcompare (Prim2SF x) (Prim2SF x)) as [[]|]; cbn [negb].
  - destruct H as (a & _ & Ha & _). split; eauto.
  - destruct H as (a & b & Ha & Hb & Hlt). triples. lia.
  - destruct H as (a & b & Ha & Hb & Hlt). triples. lia.
  - split; [discriminate|]. intros [a Ha]. destruct H; congruence.
Qed.

Ltac ranks :=
  repeat match goal with
  | H : num_lt _ _ = true |- _ =>
      apply num_lt_below in H; destruct H as (? & ? & ? & ? & ?)
  | H : num_le _ _ = true |- _ =>
      apply num_le_below in H; destruct H as (? & ? & ? & ? & ?)
  | H : isNaN _ = false |- _ => apply isNaN_rank in H; destruct H as (? & ?)
  end.

Lemma num_lt_trans a b c :
  num_lt a b = true -> num_lt b c = true -> num_lt a c = true.
Proof.
  intros H1 H2. ranks. apply num_lt_below.
  do 2 eexists. split; [eassumption|split; [eassumption|]]. triples. lia.
Qed.

Lemma num_lt_irrefl a : num_lt a a = false.
Proof.
  destruct (num_lt a a) eqn:E; auto. ranks. triples. lia.
Qed.

Lemma num_lt_isNaN a b :
  num_lt a b = true -> isNaN a = false /\ isNaN b = false.
Proof. intros H. ranks. split; apply isNaN_rank; eauto. Qed.

Lemma num_le_total a b :
  isNaN a = false -> isNaN b = false -> num_lt b a = false ->
  num_le a b = true.
Proof.
  intros Ha Hb Hlt. ranks. apply num_le_below.
  do 2 eexists. split; [eassumption|split; [eassumption|]].
  match goal with
  | Ha : rank (Prim2SF a) = Some ?x, Hb : rank (Prim2SF b) = Some ?y |- _ =>
      assert (Hn : ~ below y x)
        by (intros Hbel;
            assert (num_lt b a = true) by (apply num_lt_below; eauto);
            congruence)
  end.
  triples.
  match goal with
  | |- _ \/ (?a1, ?a2, ?a3) = (?b1, ?b2, ?b3) =>
      assert (Hc : ((a1 = b1 /\ a2 = b2 /\ a3 = b3) \/
                    (a1 < b1 \/ a1 = b1 /\ (a2 < b2 \/ a2 = b2 /\ a3 < b3)))%Z)
        by lia;
      destruct Hc as [(-> & -> & ->)|]; auto
  end.
Qed.

Lemma num_lt_le_trans a b c :
  num_lt a b = true -> num_le b c = true -> num_lt a c = true.
Proof.
  intros H1 H2. ranks. apply num_lt_below.
  do 2 eexists. split; [eassumption|split; [eassumption|]].
  match goal with H : _ \/ _ = _ |- _ => destruct H end; triples; lia.
Qed.

Lemma num_lt_asym a b : num_lt a b = true -> num_lt b a = false.
Proof.
  intros H. destruct (num_lt b a) eqn:E; auto. ranks. triples. lia.
Qed.

Lemma rank_Infinity x a :
  rank x = Some a -> below a (2%Z, 0%Z, 0%Z) \/ a = (2%Z, 0%Z, 0%Z).
Proof.
  destruct x as [s|[]| |[] m e]; cbn [rank]; intros [= <-]; cbn [below];
    auto; left; lia.
Qed.

Lemma num_lt_Infinity_l a : num_lt Infinity a = false.
Proof.
  destruct (num_lt Infinity a) eqn:E; auto. ranks.
  match goal with H : rank (Prim2SF Infinity) = _ |- _ =>
    vm_compute in H; injection H as <- end.
  match goal with H : rank (Prim2SF a) = _ |- _ =>
    destruct (rank_Infinity _ _ H) end; triples; lia.
Qed.

Lemma num_lt_NaN_l a : num_lt NaN a = false.
Proof.
  destruct (num_lt NaN a) eqn:E; auto.
  apply num_lt_isNaN in E. destruct E as [E _]. discriminate E.
Qed.

Lemma num_lt_NaN_r a : num_lt a NaN = false.
Proof.
  destruct (num_lt a NaN) eqn:E; auto.
  apply num_lt_isNaN in E. destruct E as [_ E]. discriminate E.
Qed.

(** A number that is not [NaN] and not below [Infinity] is at least
    [Infinity]. *)
Lemma num_le_Infinity a :
  isNaN a = false -> num_lt a Infinity = false -> num_le Infinity a = true.
Proof. intros Ha Hlt. apply num_le_total; auto. Qed.

(** ** Maps *)

Section MapFacts.
Context {V : Type}.
Implicit Types (m : JsMap.t V) (k : string) (v : V).

Lemma get_set_same m k v : JsMap.get (JsMap.set m k v) k = Some v.
Proof.
  induction m as [|[k' v'] r IH]; simpl.
  - now rewrite String.eqb_refl.
  - destruct (String.eqb k' k) eqn:E; simpl; rewrite E; auto.
Qed.

Lemma get_set_other m k k' v :
  k <> k' -> JsMap.get (JsMap.set m k v) k' = JsMap.get m k'.
Proof.
  intros Hne. induction m as [|[k0 v0] r IH]; simpl.
  - apply String.eqb_neq in Hne. now rewrite Hne.
  - destruct (String.eqb k0 k) eqn:E; simpl.
    + apply String.eqb_eq in E. subst k0.
      apply String.eqb_neq in Hne. now rewrite Hne.
    + destruct (String.eqb k0 k'); auto.
Qed.

Lemma get_set m k k' v :
  JsMap.get (JsMap.set m k v) k' =
  if String.eqb k k' then Some v else JsMap.get m k'.
Proof.
  destruct (String.eqb k k') eqn:E.
  - apply String.eqb_eq in E. subst. apply get_set_same.
  - apply String.eqb_neq in E. now apply get_set_other.
Qed.

Lemma get_Some_keys m k v : JsMap.get m k = Some v -> In k (JsMap.keys m).
Proof.
  induction m as [|[k' v'] r IH]; simpl; [discriminate|].
  destruct (String.eqb k' k) eqn:E.
  - apply String.eqb_eq in E. auto.
  - auto.
Qed.

Lemma get_Some_In m k v : JsMap.get m k = Some v -> In (k, v) m.
Proof.
  induction m as [|[k' v'] r IH]; simpl; [discriminate|].
  destruct (String.eqb k' k) eqn:E.
  - apply String.eqb_eq in E. intros [= ->]. subst. auto.
  - auto.
Qed.

Lemma get_None_keys m k : JsMap.get m k = None <-> ~ In k (JsMap.keys m).
Proof.
  induction m as [|[k' v'] r IH]; simpl.
  - tauto.
  - destruct (String.eqb k' k) eqn:E.
    + apply String.eqb_eq in E. split; [discriminate|intros H; exfalso; auto].
    + apply String.eqb_neq in E. rewrite IH. tauto.
Qed.

Lemma keys_get m k : In k (JsMap.keys m) -> exists v, JsMap.get m k = Some v.
Proof.
  intros Hin. destruct (JsMap.get m k) eqn:E; eauto.
  apply get_None_keys in E. contradiction.
Qed.

Lemma In_get_NoDup m k v :
  NoDup (JsMap.keys m) -> In (k, v) m -> JsMap.get m k = Some v.
Proof.
  induction m as [|[k' v'] r IH]; simpl; [tauto|].
  intros Hnd [Heq|Hin].
  - injection Heq as -> ->. now rewrite String.eqb_refl.
  - inversion Hnd as [|? ? Hnotin Hnd']; subst.
    destruct (String.eqb k' k) eqn:E.
    + apply String.eqb_eq in E. subst. exfalso. apply Hnotin.
      change (In (fst (k, v)) (map fst r)). now apply in_map.
    + auto.
Qed.

Lemma has_true m k : JsMap.has m k = true <-> In k (JsMap.keys m).
Proof.
  unfold JsMap.has. destruct (JsMap.get m k) eqn:E.
  - split; auto. intros _. eapply get_Some_keys; eauto.
  - apply get_None_keys in E. split; [discriminate|contradiction].
Qed.

Lemma keys_set m k v x :
  In x (JsMap.keys (JsMap.set m k v)) <-> x = k \/ In x (JsMap.keys m).
Proof.
  induction m as [|[k' v'] r IH]; simpl.
  - intuition.
  - destruct (String.eqb k' k) eqn:E; simpl.
    + apply String.eqb_eq in E. subst. intuition.
    + rewrite IH. intuition.
Qed.

Lemma keys_set_present m k v :
  In k (JsMap.keys m) -> JsMap.keys (JsMap.set m k v) = JsMap.keys m.
Proof.
  induction m as [|[k' v'] r IH]; simpl; [tauto|].
  intros H. destruct (String.eqb k' k) eqn:E; simpl; auto.
  apply String.eqb_neq in E. destruct H; [contradiction|]. now rewrite IH.
Qed.

Lemma keys_set_absent m k v :
  ~ In k (JsMap.keys m) -> JsMap.keys (JsMap.set m k v) = JsMap.keys m ++ [k].
Proof.
  induction m as [|[k' v'] r IH]; simpl; auto.
  intros H. destruct (String.eqb k' k) eqn:E; simpl.
  - apply String.eqb_eq in E. exfalso. auto.
  - rewrite IH; auto.
Qed.

Lemma NoDup_keys_set m k v :
  NoDup (JsMap.keys m) -> NoDup (JsMap.keys (JsMap.set m k v)).
Proof.
  intros Hnd. destruct (in_dec string_dec k (JsMap.keys m)) as [Hin|Hout].
  - now rewrite keys_set_present.
  - rewrite keys_set_absent by assumption.
    apply NoDup_app; auto.
    + constructor; [simpl; tauto|constructor].
    + intros x Hx [<-|[]]. contradiction.
Qed.

End MapFacts.

Lemma includes_true l x : includes l x = true <-> In x l.
Proof.
  unfold includes. rewrite existsb_exists. split.
  - intros (y & Hy & E). apply String.eqb_eq in E. now subst.
  - intros H. exists x. split; auto. apply String.eqb_refl.
Qed.

Lemma includes_false l x : includes l x = false <-> ~ In x l.
Proof.
  rewrite <- includes_true. destruct (includes l x); split; congruence.
Qed.

(** ** buildGraph *)

Lemma bind_Ok {A B} (r : result A) (k : A -> result B) b :
  bind r k = Ok b -> exists a, r = Ok a /\ k a = Ok b.
Proof. destruct r; simpl; try discriminate. eauto. Qed.

(** [if (!graph.has(k)) graph.set(k, new Map())]. *)
Lemma ensure_keys (g : Graph) k :
  In k (JsMap.keys (if negb (JsMap.has g k)
                    then JsMap.set g k (JsMap.empty number) else g)).
Proof.
  destruct (JsMap.has g k) eqn:E; simpl.
  - now apply has_true.
  - apply keys_set. auto.
Qed.

Lemma ensure_costOf (g : Graph) k a b :
  costOf (if negb (JsMap.has g k)
          then JsMap.set g k (JsMap.empty number) else g) a b = costOf g a b.
Proof.
  destruct (JsMap.has g k) eqn:E; simpl; auto.
  unfold costOf. rewrite get_set.
  destruct (String.eqb k a) eqn:Ea; auto.
  apply String.eqb_eq in Ea. subst a.
  unfold JsMap.has in E. destruct (JsMap.get g k); [discriminate|reflexivity].
Qed.

Lemma ensure_get (g : Graph) k k' :
  JsMap.get (if negb (JsMap.has g k)
             then JsMap.set g k (JsMap.empty number) else g) k' =
  if String.eqb k k' && negb (JsMap.has g k)
  then Some (JsMap.empty number) else JsMap.get g k'.
Proof.
  destruct (JsMap.has g k) eqn:E; simpl.
  - now rewrite andb_false_r.
  - rewrite get_set, andb_true_r. reflexivity.
Qed.

Lemma setNeighbor_present (g : Graph) k n c :
  In k (JsMap.keys g) ->
  exists m, JsMap.get g k = Some m /\
            setNeighbor g k n c = Ok (JsMap.set g k (JsMap.set m n c)).
Proof.
  intros Hin. destruct (keys_get _ _ Hin) as [m Hm].
  exists m. split; auto. unfold setNeighbor. now rewrite Hm.
Qed.

Lemma setNeighbor_costOf (g g' : Graph) k n c a b :
  setNeighbor g k n c = Ok g' ->
  costOf g' a b =
  if String.eqb a k && String.eqb b n then Some c else costOf g a b.
Proof.
  unfold setNeighbor. destruct (JsMap.get g k) as [m|] eqn:E; [|discriminate].
  intros [= <-]. unfold costOf. rewrite get_set.
  rewrite (String.eqb_sym a k).
  destruct (String.eqb k a) eqn:Ea; simpl; auto.
  apply String.eqb_eq in Ea. subst a. rewrite E, get_set.
  now rewrite (String.eqb_sym b n).
Qed.

(** What one unblocked edge does to the graph. *)
Lemma addEdge_unblocked blocked (g : Graph) e :
  touchesBlocked blocked e = false ->
  exists g1 g2 m1 m2,
    g1 = (if negb (JsMap.has g (from e))
          then JsMap.set g (from e) (JsMap.empty number) else g) /\
    g2 = (if negb (JsMap.has g1 (to e))
          then JsMap.set g1 (to e) (JsMap.empty number) else g1) /\
    JsMap.get g2 (from e) = Some m1 /\
    JsMap.get (JsMap.set g2 (from e) (JsMap.set m1 (to e) (cost e))) (to e)
      = Some m2 /\
    addEdge blocked g e =
      Ok (JsMap.set (JsMap.set g2 (from e) (JsMap.set m1 (to e) (cost e)))
                    (to e) (JsMap.set m2 (from e) (cost e))).
Proof.
  intros Hb. unfold touchesBlocked in Hb. unfold addEdge. rewrite Hb.
  set (g1 := if negb (JsMap.has g (from e))
             then JsMap.set g (from e) (JsMap.empty number) else g).
  set (g2 := if negb (JsMap.has g1 (to e))
             then JsMap.set g1 (to e) (JsMap.empty number) else g1).
  assert (H1 : In (from e) (JsMap.keys g2)).
  { subst g2. destruct (JsMap.has g1 (to e)); simpl.
    - apply ensure_keys.
    - apply keys_set. right. apply ensure_keys. }
  destruct (setNeighbor_present g2 (from e) (to e) (cost e) H1) as (m1 & Hm1 & E1).
  assert (H2 : In (to e)
                  (JsMap.keys (JsMap.set g2 (from e)
                                         (JsMap.set m1 (to e) (cost e))))).
  { apply keys_set. right. apply ensure_keys. }
  destruct (setNeighbor_present _ (to e) (from e) (cost e) H2) as (m2 & Hm2 & E2).
  exists g1, g2, m1, m2. repeat split; auto.
  rewrite E1. simpl. exact E2.
Qed.

Lemma addEdge_total blocked (g : Graph) e :
  exists g', addEdge blocked g e = Ok g'.
Proof.
  destruct (touchesBlocked blocked e) eqn:Hb.
  - exists g. unfold addEdge. unfold touchesBlocked in Hb. now rewrite Hb.
  - destruct (addEdge_unblocked blocked g e Hb) as (g1 & g2 & m1 & m2 & _ & _ & _ & _ & E).
    eauto.
Qed.

Lemma addEdge_blocked blocked (g : Graph) e :
  touchesBlocked blocked e = true -> addEdge blocked g e = Ok g.
Proof. unfold touchesBlocked, addEdge. now intros ->. Qed.

Lemma addEdge_costOf blocked (g g' : Graph) e a b :
  touchesBlocked blocked e = false ->
  addEdge blocked g e = Ok g' ->
  costOf g' a b = if recordedUnder e a b then Some (cost e) else costOf g a b.
Proof.
  intros Hb E. unfold addEdge in E. unfold touchesBlocked in Hb.
  rewrite Hb in E. apply bind_Ok in E. destruct E as (g3 & E3 & E4).
  rewrite (setNeighbor_costOf _ _ _ _ _ a b E4).
  rewrite (setNeighbor_costOf _ _ _ _ _ a b E3).
  rewrite !ensure_costOf. unfold recordedUnder.
  destruct (String.eqb a (to e) && String.eqb b (from e));
    destruct (String.eqb a (from e) && String.eqb b (to e)); reflexivity.
Qed.

Lemma buildGraph_from_total blocked es : forall g : Graph,
  exists g', buildGraph_from g es blocked = Ok g'.
Proof.
  induction es as [|e es IH]; intros g; simpl; eauto.
  destruct (addEdge_total blocked g e) as [g1 ->]. simpl. apply IH.
Qed.

Lemma buildGraph_from_app blocked es1 es2 : forall g : Graph,
  buildGraph_from g (es1 ++ es2) blocked =
  (g1 <- buildGraph_from g es1 blocked ;; buildGraph_from g1 es2 blocked).
Proof.
  induction es1 as [|e es IH]; intros g; simpl; auto.
  destruct (addEdge blocked g e); simpl; auto.
Qed.

Lemma buildGraph_total es blocked : exists g, buildGraph es blocked = Ok g.
Proof. apply buildGraph_from_total. Qed.

(** C8: an edge with a blocked endpoint leaves the graph as it is; any other
    edge records its cost under (from, to) and (to, from), replacing what was
    recorded there, and changes no other pair; no edges give the empty graph;
    [buildGraph] always returns a graph. *)
Theorem buildGraph_records_each_edge : forall es blocked e,
  buildGraph [] blocked = Ok (JsMap.empty (JsMap.t number)) /\
  exists g g',
    buildGraph es blocked = Ok g /\
    buildGraph (es ++ [e]) blocked = Ok g' /\
    if touchesBlocked blocked e then g' = g
    else forall a b,
        costOf g' a b =
        if recordedUnder e a b then Some (cost e) else costOf g a b.
Proof.
  intros es blocked e. split; [reflexivity|].
  destruct (buildGraph_total es blocked) as [g Hg].
  destruct (addEdge_total blocked g e) as [g' Hg'].
  exists g, g'. split; [exact Hg|]. split.
  - unfold buildGraph in *. rewrite buildGraph_from_app, Hg. simpl.
    now rewrite Hg'.
  - destruct (touchesBlocked blocked e) eqn:Hb.
    + rewrite addEdge_blocked in Hg' by assumption. congruence.
    + intros a b. now apply addEdge_costOf with (blocked := blocked).
Qed.

Lemma set_nonempty {V} (m : JsMap.t V) k v : JsMap.set m k v <> [].
Proof.
  destruct m as [|[k' v'] r]; simpl; [discriminate|].
  destruct (String.eqb k' k); discriminate.
Qed.

Lemma cleanNeighbors_set blocked m n c :
  cleanNeighbors blocked m -> ~ In n blocked ->
  cleanNeighbors blocked (JsMap.set m n c).
Proof.
  intros [Hnd Hb] Hn. split.
  - now apply NoDup_keys_set.
  - intros x Hx. apply keys_set in Hx. destruct Hx as [->|Hx]; auto.
Qed.

Lemma cleanGraph_ensure blocked (g : Graph) k :
  cleanGraph blocked g -> ~ In k blocked ->
  cleanGraph blocked (if negb (JsMap.has g k)
                      then JsMap.set g k (JsMap.empty number) else g).
Proof.
  intros [Hnd Hg] Hk. destruct (JsMap.has g k); simpl; [split; auto|].
  split; [now apply NoDup_keys_set|].
  intros k' m. rewrite get_set. destruct (String.eqb k k') eqn:E.
  - apply String.eqb_eq in E. subst k'. intros [= <-]. split; auto.
    split; [constructor|intros n []].
  - apply Hg.
Qed.

Lemma cleanGraph_setNeighbor blocked (g g' : Graph) k n c :
  cleanGraph blocked g -> ~ In n blocked ->
  setNeighbor g k n c = Ok g' -> cleanGraph blocked g'.
Proof.
  intros [Hnd Hg] Hn. unfold setNeighbor.
  destruct (JsMap.get g k) as [m|] eqn:E; [|discriminate].
  intros [= <-]. split; [now apply NoDup_keys_set|].
  intros k' m'. rewrite get_set. destruct (String.eqb k k') eqn:E'.
  - apply String.eqb_eq in E'. subst k'. intros [= <-].
    destruct (Hg _ _ E) as [Hk Hm]. split; auto.
    now apply cleanNeighbors_set.
  - apply Hg.
Qed.

Lemma touchesBlocked_false blocked e :
  touchesBlocked blocked e = false ->
  ~ In (from e) blocked /\ ~ In (to e) blocked.
Proof.
  unfold touchesBlocked. intros H. apply orb_false_iff in H.
  destruct H as [H1 H2]. now rewrite <- !includes_false.
Qed.

Lemma addEdge_clean blocked (g g' : Graph) e :
  cleanGraph blocked g -> addEdge blocked g e = Ok g' -> cleanGraph blocked g'.
Proof.
  intros Hg E. destruct (touchesBlocked blocked e) eqn:Hb.
  - rewrite addEdge_blocked in E by assumption. now injection E as <-.
  - destruct (touchesBlocked_false _ _ Hb) as [Hf Ht].
    unfold addEdge in E. unfold touchesBlocked in Hb. rewrite Hb in E.
    apply bind_Ok in E. destruct E as (g3 & E3 & E4).
    eapply cleanGraph_setNeighbor; [| |exact E4]; auto.
    eapply cleanGraph_setNeighbor; [| |exact E3]; auto.
    apply cleanGraph_ensure; auto. apply cleanGraph_ensure; auto.
Qed.

Lemma addEdge_noEmpty blocked (g g' : Graph) e :
  noEmptyNeighbors g -> addEdge blocked g e = Ok g' -> noEmptyNeighbors g'.
Proof.
  intros Hg E. destruct (touchesBlocked blocked e) eqn:Hb.
  - rewrite addEdge_blocked in E by assumption. now injection E as <-.
  - destruct (addEdge_unblocked blocked g e Hb)
      as (g1 & g2 & m1 & m2 & E1 & E2 & Hm1 & Hm2 & E').
    rewrite E' in E. injection E as <-.
    intros k m. rewrite !get_set.
    destruct (String.eqb (to e) k) eqn:Et.
    { intros [= <-]. apply set_nonempty. }
    destruct (String.eqb (from e) k) eqn:Ef.
    { intros [= <-]. apply set_nonempty. }
    subst g2 g1. rewrite !ensure_get, Et, Ef. simpl. apply Hg.
Qed.

Lemma buildGraph_from_invariant blocked es : forall g g' : Graph,
  cleanGraph blocked g -> noEmptyNeighbors g ->
  buildGraph_from g es blocked = Ok g' ->
  cleanGraph blocked g' /\ noEmptyNeighbors g'.
Proof.
  induction es as [|e es IH]; intros g g' Hc Hn; simpl.
  - intros [= <-]. auto.
  - intros E. apply bind_Ok in E. destruct E as (g1 & E1 & E2).
    apply (IH g1 g'); auto.
    + eapply addEdge_clean; eauto.
    + eapply addEdge_noEmpty; eauto.
Qed.

Lemma buildGraph_invariant es blocked g :
  buildGraph es blocked = Ok g -> cleanGraph blocked g /\ noEmptyNeighbors g.
Proof.
  apply buildGraph_from_invariant.
  - split; [constructor|]. intros k m. discriminate.
  - intros k m. discriminate.
Qed.

(** C9: in the graph [buildGraph] returns, no blocked identifier is a key or
    a neighbour key, and every key has a non-empty adjacency map. *)
Theorem buildGraph_excludes_blocked_and_isolated : forall es blocked,
  exists g,
    buildGraph es blocked = Ok g /\
    forall k, In k (JsMap.keys g) ->
      ~ In k blocked /\
      exists m, JsMap.get g k = Some m /\ m <> [] /\
                forall n, In n (JsMap.keys m) -> ~ In n blocked.
Proof.
  intros es blocked. destruct (buildGraph_total es blocked) as [g Hg].
  exists g. split; [exact Hg|].
  destruct (buildGraph_invariant _ _ _ Hg) as [[Hnd Hc] Hn].
  intros k Hk. destruct (keys_get _ _ Hk) as [m Hm].
  destruct (Hc _ _ Hm) as [Hkb [_ Hmb]].
  split; auto. exists m. repeat split; auto. eapply Hn; eauto.
Qed.

(** ** Sets *)

Lemma set_has_true (s : JsSet.t) x : JsSet.has s x = true <-> In x s.
Proof. apply includes_true. Qed.

Lemma set_has_false (s : JsSet.t) x : JsSet.has s x = false <-> ~ In x s.
Proof. apply includes_false. Qed.

Lemma In_delete (s : JsSet.t) x y :
  In y (JsSet.delete s x) <-> In y s /\ y <> x.
Proof.
  unfold JsSet.delete. rewrite filter_In, negb_true_iff, String.eqb_neq.
  intuition congruence.
Qed.

Lemma length_delete (s : JsSet.t) x :
  In x s -> length (JsSet.delete s x) < length s.
Proof.
  unfold JsSet.delete. induction s as [|y s IH]; simpl; [tauto|].
  intros [->|Hin].
  - rewrite String.eqb_refl. simpl.
    pose proof (filter_length_le (fun y => negb (String.eqb x y)) s). lia.
  - destruct (negb (String.eqb x y)); simpl.
    + apply IH in Hin. lia.
    + pose proof (filter_length_le (fun y => negb (String.eqb x y)) s). lia.
Qed.

Lemma In_add (s : JsSet.t) x y : In y (JsSet.add s x) <-> In y s \/ y = x.
Proof.
  unfold JsSet.add. destruct (JsSet.has s x) eqn:E.
  - apply set_has_true in E. intuition congruence.
  - rewrite in_app_iff. simpl. intuition congruence.
Qed.

Lemma NoDup_add (s : JsSet.t) x : NoDup s -> NoDup (JsSet.add s x).
Proof.
  intros Hnd. unfold JsSet.add. destruct (JsSet.has s x) eqn:E; auto.
  apply set_has_false in E. apply NoDup_app; auto.
  - constructor; [simpl; tauto|constructor].
  - intros y Hy [<-|[]]. contradiction.
Qed.

Lemma of_list_spec l :
  NoDup (JsSet.of_list l) /\ forall x, In x (JsSet.of_list l) <-> In x l.
Proof.
  unfold JsSet.of_list.
  assert (H : forall acc, NoDup acc ->
            NoDup (fold_left JsSet.add l acc) /\
            forall x, In x (fold_left JsSet.add l acc) <-> In x acc \/ In x l).
  { induction l as [|y l IH]; intros acc Hacc; simpl.
    - split; auto. intuition.
    - destruct (IH (JsSet.add acc y) (NoDup_add acc y Hacc)) as [H1 H2].
      split; auto. intros x. rewrite H2, In_add. intuition. }
  destruct (H [] (NoDup_nil _)) as [H1 H2]. split; auto.
  intros x. rewrite H2. simpl. tauto.
Qed.

(** ** getMinDistanceNode *)

Lemma minFold_In distances (l : list string) : forall acc c,
  fst (fold_left (minStep distances) l acc) = Some c ->
  fst acc = Some c \/ In c l.
Proof.
  induction l as [|x l IH]; intros acc c; simpl; auto.
  intros H. apply IH in H. destruct H as [H|H]; auto.
  unfold minStep in H.
  destruct (num_lt (getNum distances x) (snd acc)); auto.
  simpl in H. injection H as ->. auto.
Qed.

Lemma getMinDistanceNode_In unvisited distances c :
  getMinDistanceNode unvisited distances = Some c -> In c unvisited.
Proof.
  intros H. apply minFold_In in H. destruct H as [H|H]; [discriminate|auto].
Qed.

(** ** The search loop, by invariant *)

Lemma relax_cases current unvisited distances previous n w :
  let newDist := num_add (getNum distances current) w in
  (relax current unvisited (distances, previous) (n, w) = (distances, previous)
   /\ (In n unvisited -> num_lt newDist (getNum distances n) = false))
  \/
  (In n unvisited /\ num_lt newDist (getNum distances n) = true /\
   relax current unvisited (distances, previous) (n, w) =
     (JsMap.set distances n newDist, JsMap.set previous n (Some current))).
Proof.
  intros newDist. unfold relax.
  destruct (JsSet.has unvisited n) eqn:Eh; simpl.
  - apply set_has_true in Eh. fold newDist.
    destruct (num_lt newDist (getNum distances n)) eqn:El; auto.
  - apply set_has_false in Eh. left. split; auto. contradiction.
Qed.

Lemma searchLoop_invariant (Inv : list string -> SearchState -> Prop)
    graph end_ :
  (forall settled st current distances' previous',
      Inv settled st ->
      getMinDistanceNode (unvisited st) (distances st) = Some current ->
      truthy current = true -> current <> end_ ->
      processNeighbors current graph (JsSet.delete (unvisited st) current)
                       (distances st) (previous st) = (distances', previous') ->
      Inv (current :: settled)
          (mkSearchState (JsSet.delete (unvisited st) current)
                         distances' previous')) ->
  forall fuel settled st,
    Inv settled st -> length (unvisited st) < fuel ->
    exists settled' st',
      searchLoop fuel graph end_ st = Ok st' /\
      Inv settled' st' /\ searchStops end_ st'.
Proof.
  intros Hstep. induction fuel as [|fuel IH]; intros settled st HI Hlen; [lia|].
  simpl. destruct (Nat.ltb 0 (JsSet.size (unvisited st))) eqn:Esz.
  2:{ apply Nat.ltb_ge in Esz. unfold JsSet.size in Esz.
      exists settled, st. repeat split; auto. left.
      apply length_zero_iff_nil. lia. }
  destruct (getMinDistanceNode (unvisited st) (distances st)) as [c|] eqn:Emin.
  2:{ exists settled, st. repeat split; auto. right. left. assumption. }
  destruct (truthy c) eqn:Et; simpl.
  2:{ exists settled, st. repeat split; auto. right. right. exists c. auto. }
  destruct (String.eqb c end_) eqn:Ee.
  { apply String.eqb_eq in Ee. exists settled, st. repeat split; auto.
    right. right. exists c. auto. }
  apply String.eqb_neq in Ee.
  destruct (processNeighbors c graph (JsSet.delete (unvisited st) c)
                             (distances st) (previous st))
    as [distances' previous'] eqn:Ep.
  apply (IH (c :: settled)).
  - eapply Hstep; eauto.
  - simpl. apply getMinDistanceNode_In in Emin.
    pose proof (length_delete (unvisited st) c Emin). lia.
Qed.

Lemma relaxFold_previous current unvisited (m : JsMap.t number) :
  forall distances previous distances' previous',
    fold_left (relax current unvisited) m (distances, previous)
      = (distances', previous') ->
    forall n x, JsMap.get previous' n = Some x ->
      JsMap.get previous n = Some x \/ (x = Some current /\ In n unvisited).
Proof.
  induction m as [|[k w] m IH]; intros D P D' P'; cbn [fold_left].
  - intros [= <- <-]. auto.
  - destruct (relax_cases current unvisited D P k w) as [[E _]|(Hin & _ & E)];
      rewrite E; intros Hfold n x Hx.
    + eapply IH; eauto.
    + destruct (IH _ _ _ _ Hfold n x Hx) as [H|H]; auto.
      rewrite get_set in H. destruct (String.eqb k n) eqn:Ek; auto.
      apply String.eqb_eq in Ek. subst k. injection H as <-. auto.
Qed.

Lemma processNeighbors_previous current graph unvisited D P D' P' :
  processNeighbors current graph unvisited D P = (D', P') ->
  forall n x, JsMap.get P' n = Some x ->
    JsMap.get P n = Some x \/ (x = Some current /\ In n unvisited).
Proof. unfold processNeighbors. apply relaxFold_previous. Qed.

Lemma olderIn_head rest q n : olderIn (n :: rest) q n <-> In q rest.
Proof. simpl. now rewrite String.eqb_refl. Qed.

Lemma olderIn_tail v rest q n :
  v <> n -> (olderIn (v :: rest) q n <-> olderIn rest q n).
Proof. intros H. apply String.eqb_neq in H. simpl. now rewrite H. Qed.

(** Settling [current] keeps the shape of the search. *)
Lemma searchShape_step all graph settled st current D' P' :
  searchShape all settled st ->
  In current (unvisited st) ->
  processNeighbors current graph (JsSet.delete (unvisited st) current)
                   (distances st) (previous st) = (D', P') ->
  searchShape all (current :: settled)
              (mkSearchState (JsSet.delete (unvisited st) current) D' P').
Proof.
  intros (Hnd & HV & HU & Hdisj & Hprev & Hkeys) Hin Hp.
  assert (Hc : ~ In current settled) by (intros H; exact (Hdisj _ H Hin)).
  split; [|split; [|split; [|split; [|split]]]]; simpl.
  - now constructor.
  - intros x [<-|Hx]; auto.
  - intros x Hx. apply In_delete in Hx. apply HU. tauto.
  - intros x [<-|Hx] Hd; apply In_delete in Hd; [tauto|].
    apply (Hdisj x); tauto.
  - intros n x Hx.
    destruct (processNeighbors_previous _ _ _ _ _ _ _ Hp n x Hx)
      as [Hold|[-> Hn]].
    + destruct (Hprev n x Hold) as (q & -> & Hq & Ho).
      exists q. split; [reflexivity|]. split; [now right|]. intros [<-|Hn].
      * now apply olderIn_head.
      * apply olderIn_tail; [congruence|auto].
    + exists current. split; [reflexivity|]. split; [now left|].
      apply In_delete in Hn.
      intros [<-|Hn']; [tauto|]. exfalso. apply (Hdisj n); tauto.
  - intros n x Hx.
    destruct (processNeighbors_previous _ _ _ _ _ _ _ Hp n x Hx)
      as [Hold|[_ Hn]]; eauto.
    apply In_delete in Hn. apply HU. tauto.
Qed.

Lemma searchShape_initial graph start :
  searchShape (unvisited (initialState graph start)) []
              (initialState graph start).
Proof.
  split; [|split; [|split; [|split; [|split]]]]; simpl; auto using incl_refl.
  - constructor.
  - intros x [].
  - intros n x. discriminate.
  - intros n x. discriminate.
Qed.

(** ** reconstructPath terminates on the predecessor maps of a search *)

Lemma walkBack_settled start previous : forall settled,
  NoDup settled ->
  (forall n x, In n settled -> JsMap.get previous n = Some x ->
     exists q, x = Some q /\ olderIn settled q n) ->
  forall c path fuel,
    In c settled -> length settled < fuel ->
    exists r, walkBack fuel start previous (Some c) path = Some r.
Proof.
  induction settled as [|v rest IH]; intros Hnd Hprev c path fuel Hin Hlen;
    [destruct Hin|].
  inversion Hnd as [|? ? Hv Hnd']; subst.
  assert (Hrest : forall n x, In n rest -> JsMap.get previous n = Some x ->
                    exists q, x = Some q /\ olderIn rest q n).
  { intros n x Hn Hx. destruct (Hprev n x (or_intror Hn) Hx) as (q & -> & Ho).
    exists q. split; auto. apply olderIn_tail in Ho; auto. congruence. }
  destruct Hin as [->|Hin].
  2:{ apply IH; auto. simpl in Hlen. lia. }
  destruct fuel as [|fuel]; [lia|]. simpl in Hlen. simpl.
  destruct (truthy c && negb (String.eqb c start)); [|eauto].
  unfold previousOf.
  destruct (JsMap.get previous c) as [[p|]|] eqn:Ep.
  - destruct (Hprev c _ (or_introl eq_refl) Ep) as (q & [= <-] & Ho).
    apply olderIn_head in Ho.
    destruct (truthy p).
    + apply IH; auto. lia.
    + destruct fuel; [lia|simpl; eauto].
  - destruct fuel; [lia|simpl; eauto].
  - destruct fuel; [lia|simpl; eauto].
Qed.

Lemma reconstructPath_total all settled st start end_ fuel :
  searchShape all settled st ->
  2 + length all <= fuel ->
  exists r, reconstructPath fuel start end_ (previous st) = Ok r.
Proof.
  intros (Hnd & HV & _ & _ & Hprev & _) Hfuel.
  assert (Hlen : length settled <= length all)
    by (apply NoDup_incl_length; auto).
  assert (Hw : exists r, walkBack fuel start (previous st) (Some end_) []
                         = Some r).
  { destruct fuel as [|fuel]; [lia|]. simpl.
    destruct (truthy end_ && negb (String.eqb end_ start)); [|eauto].
    unfold previousOf.
    destruct (JsMap.get (previous st) end_) as [[p|]|] eqn:Ep;
      try solve [destruct fuel; [lia|simpl; eauto]].
    destruct (Hprev _ _ Ep) as (q & [= <-] & Hq & _).
    destruct (truthy p); [|destruct fuel; [lia|simpl; eauto]].
    apply walkBack_settled with (settled := settled); auto; [|lia].
    intros n x Hn Hx. destruct (Hprev n x Hx) as (q & -> & _ & Ho). eauto. }
  destruct Hw as [[current path] Hw]. unfold reconstructPath. rewrite Hw.
  destruct (negb (truthy_opt current)); eauto.
Qed.

(** The search loop of [dijkstra] ends within its budget, in a state of the
    expected shape. *)
Lemma searchLoop_total graph start end_ :
  exists settled st,
    searchLoop (S (JsSet.size (unvisited (initialState graph start))))
               graph end_ (initialState graph start) = Ok st /\
    searchShape (unvisited (initialState graph start)) settled st /\
    searchStops end_ st.
Proof.
  apply searchLoop_invariant with (settled := []).
  - intros settled st c D' P' HI Hmin _ _ Hp.
    eapply searchShape_step; eauto using getMinDistanceNode_In.
  - apply searchShape_initial.
  - unfold JsSet.size. lia.
Qed.

Lemma dijkstra_total graph start end_ :
  exists r, dijkstra graph start end_ = Ok r.
Proof.
  unfold dijkstra.
  destruct (searchLoop_total graph start end_) as (settled & st & -> & HS & _).
  cbn [bind].
  destruct (reconstructPath_total _ settled st start end_
              (2 + JsSet.size (unvisited (initialState graph start))) HS)
    as [r ->]; [unfold JsSet.size; lia|].
  simpl. eauto.
Qed.

(** ** findPathWithRequiredStops *)

Lemma stopsLoop_total graph sequence : forall i totalPath totalCost,
  exists r, stopsLoop graph i sequence totalPath totalCost = Ok r.
Proof.
  induction sequence as [|a rest IH]; intros i tp tc; simpl; eauto.
  destruct rest as [|b rest]; eauto.
  destruct (dijkstra_total graph a b) as [[s|] ->]; simpl; eauto.
Qed.

Lemma findPathWithRequiredStops_total graph start end_ stops :
  exists r, findPathWithRequiredStops graph start end_ stops = Ok r.
Proof. apply stopsLoop_total. Qed.

Lemma stopsLoop_cons graph i a b rest totalPath totalCost :
  stopsLoop graph i (a :: b :: rest) totalPath totalCost =
  (segment <- dijkstra graph a b ;;
   match segment with
   | None => Ok None
   | Some s =>
       stopsLoop graph (S i) (b :: rest)
                 (if Nat.eqb i 0 then seg_path s
                  else totalPath ++ tl (seg_path s))
                 (num_add totalCost (seg_cost s))
   end).
Proof. reflexivity. Qed.

(** Once one segment is past, the loop appends tails and adds costs. *)
Lemma stopsLoop_later graph sequence : forall segments i totalPath totalCost,
  Forall2 (searchReturns graph) (consecutivePairs sequence) segments ->
  stopsLoop graph (S i) sequence totalPath totalCost =
  Ok (Some (mkSegment
              (totalPath ++ flat_map (fun s' => tl (seg_path s')) segments)
              (fold_left (fun acc s => num_add acc (seg_cost s))
                         segments totalCost))).
Proof.
  induction sequence as [|a rest IH]; intros segments i tp tc H.
  - inversion H; subst. simpl. now rewrite app_nil_r.
  - destruct rest as [|b rest].
    + inversion H; subst. simpl. now rewrite app_nil_r.
    + cbn [consecutivePairs] in H. inversion H as [|? s ? segs' Hs Hrest]; subst.
      unfold searchReturns in Hs. simpl in Hs.
      rewrite stopsLoop_cons, Hs. cbn [bind Nat.eqb].
      rewrite (IH segs' (S i)) by assumption.
      cbn [flat_map fold_left]. now rewrite app_assoc.
Qed.

Lemma stopsLoop_segments graph sequence segments :
  Forall2 (searchReturns graph) (consecutivePairs sequence) segments ->
  2 <= length sequence ->
  stopsLoop graph 0 sequence [] 0%float =
  Ok (Some (mkSegment (stitchedPath segments) (sumCosts segments))).
Proof.
  intros H Hlen. destruct sequence as [|a [|b rest]]; simpl in Hlen; try lia.
  cbn [consecutivePairs] in H. inversion H as [|? s ? segs' Hs Hrest]; subst.
  unfold searchReturns in Hs. simpl in Hs.
  rewrite stopsLoop_cons, Hs. cbn [bind Nat.eqb].
  rewrite (stopsLoop_later graph (b :: rest) segs') by assumption. reflexivity.
Qed.

(** C2: when the search returns a segment for every consecutive pair of
    [start :: requiredStops ++ [end]], [findPathWithRequiredStops] returns the
    first segment followed by the later segments without their first node,
    with the sum of the segment costs. *)
Theorem findPathWithRequiredStops_stitches :
  forall graph start end_ stops segments,
    Forall2 (searchReturns graph)
            (consecutivePairs (start :: stops ++ [end_])) segments ->
    findPathWithRequiredStops graph start end_ stops =
    Ok (Some (mkSegment (stitchedPath segments) (sumCosts segments))).
Proof.
  intros graph start end_ stops segments H.
  unfold findPathWithRequiredStops. apply stopsLoop_segments; auto.
  simpl. rewrite length_app. simpl. lia.
Qed.

(** A failed segment fails the whole loop. *)
Lemma stopsLoop_fails graph sequence a b : forall i totalPath totalCost,
  In (a, b) (consecutivePairs sequence) ->
  dijkstra graph a b = Ok None ->
  stopsLoop graph i sequence totalPath totalCost = Ok None.
Proof.
  induction sequence as [|x rest IH]; intros i tp tc Hin Hnone; [destruct Hin|].
  destruct rest as [|y rest]; [destruct Hin|].
  cbn [consecutivePairs] in Hin. rewrite stopsLoop_cons.
  destruct Hin as [Heq|Hin].
  - injection Heq as -> ->. now rewrite Hnone.
  - destruct (dijkstra_total graph x y) as [[s|] ->]; cbn [bind]; auto.
Qed.

(** ** validateNodesExist and the outcomes of findOptimalPath *)

Lemma validateNodesExist_cases validNodes es mustExist :
  match missingOf validNodes mustExist with
  | _ :: _ =>
      validateNodesExist validNodes es mustExist =
      Throw (MissingNodes (missingOf validNodes mustExist))
  | [] =>
      match invalidEdgeNodesOf validNodes es with
      | _ :: _ =>
          validateNodesExist validNodes es mustExist =
          Throw (InvalidEdgeNodes (invalidEdgeNodesOf validNodes es))
      | [] => validateNodesExist validNodes es mustExist = Ok tt
      end
  end.
Proof.
  unfold validateNodesExist.
  destruct (missingOf validNodes mustExist); simpl; auto.
  destruct (invalidEdgeNodesOf validNodes es); simpl; auto.
Qed.

Lemma MissingNodes_not_InvalidEdgeNodes l l' :
  MissingNodes l <> InvalidEdgeNodes l'.
Proof. unfold MissingNodes, InvalidEdgeNodes. simpl. congruence. Qed.

Lemma MissingNodes_not_NoPathFound l l' : MissingNodes l <> NoPathFound l'.
Proof. unfold MissingNodes, NoPathFound. simpl. congruence. Qed.

Lemma InvalidEdgeNodes_not_NoPathFound l l' :
  InvalidEdgeNodes l <> NoPathFound l'.
Proof. unfold InvalidEdgeNodes, NoPathFound. simpl. congruence. Qed.

(** After a successful validation the request is answered with a route or
    with [NoPathFound]; nothing else can happen. *)
Lemma findOptimalPath_validated request :
  validateNodesExist (nodes request) (edges request)
    (requiredStops (constraints request) ++ [end_ request]) = Ok tt ->
  exists graph r,
    buildGraph (edges request) (blockedNodes (constraints request)) = Ok graph /\
    findPathWithRequiredStops graph (start request) (end_ request)
      (requiredStops (constraints request)) = Ok r /\
    findOptimalPath request =
    match r with
    | None => Throw (NoPathFound (requiredStops (constraints request)))
    | Some s => Ok (mkPathResult (seg_path s) (seg_cost s))
    end.
Proof.
  intros Hv.
  destruct (buildGraph_total (edges request)
                             (blockedNodes (constraints request))) as [g Hg].
  destruct (findPathWithRequiredStops_total g (start request) (end_ request)
              (requiredStops (constraints request))) as [r Hr].
  exists g, r. repeat split; auto.
  unfold findOptimalPath. rewrite Hv. cbn [bind]. rewrite Hg. cbn [bind].
  rewrite Hr. reflexivity.
Qed.

Lemma findOptimalPath_missing request :
  missingOf (nodes request)
            (requiredStops (constraints request) ++ [end_ request]) <> [] ->
  findOptimalPath request =
  Throw (MissingNodes
           (missingOf (nodes request)
                      (requiredStops (constraints request) ++ [end_ request]))).
Proof.
  intros H. unfold findOptimalPath.
  pose proof (validateNodesExist_cases (nodes request) (edges request)
                (requiredStops (constraints request) ++ [end_ request])) as Hc.
  destruct (missingOf (nodes request)
              (requiredStops (constraints request) ++ [end_ request]));
    [congruence|].
  now rewrite Hc.
Qed.

(** C6: the identifiers checked first are those of
    [requiredStops ++ [end]], never [start]; when some are not declared the
    request fails with [MissingNodes] listing exactly those, in input order,
    whatever the edges, the blocked nodes and the start are; when all are
    declared the request never fails with [MissingNodes]. *)
Theorem findOptimalPath_checks_required_nodes_first : forall request,
  let mustExist := requiredStops (constraints request) ++ [end_ request] in
  let missing :=
    filter (fun node => negb (includes (nodes request) node)) mustExist in
  match missing with
  | _ :: _ =>
      findOptimalPath request = Throw (MissingNodes missing) /\
      message (MissingNodes missing) =
        ("Missing required nodes: " ++ join ", " missing)%string
  | [] => forall l, findOptimalPath request <> Throw (MissingNodes l)
  end.
Proof.
  intros request mustExist missing.
  pose proof (findOptimalPath_missing request) as Hm.
  pose proof (validateNodesExist_cases (nodes request) (edges request)
                mustExist) as Hc.
  fold mustExist in Hm. unfold missingOf in Hm, Hc. fold missing in Hm, Hc.
  destruct missing as [|x rest].
  - intros l.
    destruct (invalidEdgeNodesOf (nodes request) (edges request))
      as [|s l0] eqn:Ei.
    + destruct (findOptimalPath_validated request Hc) as (g & [s|] & _ & _ & ->).
      * discriminate.
      * intros H. apply (MissingNodes_not_NoPathFound
                           l (requiredStops (constraints request))).
        congruence.
    + unfold findOptimalPath. fold mustExist. rewrite Hc. cbn [bind].
      intros H. apply (MissingNodes_not_InvalidEdgeNodes l (s :: l0)).
      congruence.
  - split; [apply Hm; discriminate|reflexivity].
Qed.

(** C7: once the required nodes are all declared, the request fails with
    [InvalidEdgeNodes] exactly when some edge endpoint is not declared, and
    the error lists the undeclared endpoints of the edges flattened to
    [from, to], in edge order, repetitions kept. *)
Theorem findOptimalPath_rejects_undeclared_edge_nodes : forall request,
  missingOf (nodes request)
            (requiredStops (constraints request) ++ [end_ request]) = [] ->
  let invalid :=
    filter (fun n => negb (includes (nodes request) n))
           (flat_map (fun e => [from e; to e]) (edges request)) in
  ((exists l, findOptimalPath request = Throw (InvalidEdgeNodes l)) <->
   (exists e, In e (edges request) /\
              (~ In (from e) (nodes request) \/ ~ In (to e) (nodes request))))
  /\
  ((exists l, findOptimalPath request = Throw (InvalidEdgeNodes l)) ->
   findOptimalPath request = Throw (InvalidEdgeNodes invalid) /\
   message (InvalidEdgeNodes invalid) =
     ("Invalid edge nodes: " ++ join ", " invalid)%string).
Proof.
  intros request Hmiss invalid.
  pose proof (validateNodesExist_cases (nodes request) (edges request)
                (requiredStops (constraints request) ++ [end_ request])) as Hc.
  rewrite Hmiss in Hc. unfold invalidEdgeNodesOf in Hc. fold invalid in Hc.
  assert (Hiff : invalid <> [] <->
                 exists e, In e (edges request) /\
                           (~ In (from e) (nodes request) \/
                            ~ In (to e) (nodes request))).
  { split.
    - intros Hne. destruct invalid as [|x rest] eqn:Ei; [congruence|].
      assert (Hx : In x invalid) by (rewrite Ei; now left).
      unfold invalid in Hx. apply filter_In in Hx. destruct Hx as [Hx Hb].
      apply in_flat_map in Hx. destruct Hx as (e & He & Hxe).
      apply negb_true_iff, includes_false in Hb.
      exists e. split; auto. simpl in Hxe.
      destruct Hxe as [<-|[<-|[]]]; auto.
    - intros (e & He & Hbad) Hnil.
      assert (Hall : forall x, In x (flat_map (fun e => [from e; to e])
                                              (edges request)) ->
                               In x (nodes request)).
      { intros x Hx. destruct (in_dec string_dec x (nodes request)); auto.
        exfalso. assert (Hxi : In x invalid).
        { unfold invalid. apply filter_In. split; auto.
          now apply negb_true_iff, includes_false. }
        rewrite Hnil in Hxi. destruct Hxi. }
      destruct Hbad as [Hbad|Hbad]; apply Hbad, Hall, in_flat_map;
        exists e; simpl; auto. }
  assert (Hthrow : invalid <> [] ->
                   findOptimalPath request = Throw (InvalidEdgeNodes invalid)).
  { intros Hne. unfold findOptimalPath.
    destruct invalid; [congruence|]. now rewrite Hc. }
  assert (Honly : (exists l, findOptimalPath request
                             = Throw (InvalidEdgeNodes l)) -> invalid <> []).
  { intros [l Hl] Hnil. rewrite Hnil in Hc.
    destruct (findOptimalPath_validated request Hc) as (g & [s|] & _ & _ & E);
      rewrite E in Hl; [discriminate|].
    apply (InvalidEdgeNodes_not_NoPathFound
             l (requiredStops (constraints request))).
    congruence. }
  split; [split|].
  - intros H. apply Hiff, Honly, H.
  - intros H. exists invalid. apply Hthrow, Hiff, H.
  - intros H. split; [apply Hthrow, Honly, H|reflexivity].
Qed.

(** C5: when validation passes and the search fails on one consecutive pair
    of [start :: requiredStops ++ [end]], the request fails with
    [NoPathFound] carrying the required stops; no route is returned. *)
Theorem findOptimalPath_fails_when_a_segment_fails : forall request graph a b,
  validateNodesExist (nodes request) (edges request)
    (requiredStops (constraints request) ++ [end_ request]) = Ok tt ->
  buildGraph (edges request) (blockedNodes (constraints request)) = Ok graph ->
  In (a, b) (consecutivePairs
               (start request
                  :: requiredStops (constraints request) ++ [end_ request])) ->
  dijkstra graph a b = Ok None ->
  findOptimalPath request =
    Throw (NoPathFound (requiredStops (constraints request))) /\
  message (NoPathFound (requiredStops (constraints request))) =
    ("No valid path found that satisfies all constraints of "
       ++ join "," (requiredStops (constraints request)))%string.
Proof.
  intros request graph a b Hv Hg Hin Hnone. split; [|reflexivity].
  unfold findOptimalPath. rewrite Hv. cbn [bind]. rewrite Hg. cbn [bind].
  unfold findPathWithRequiredStops.
  now rewrite (stopsLoop_fails graph _ a b 0 [] 0%float Hin Hnone).
Qed.

(** ** The initial state of a search *)

Lemma minFold_finite distances (l : list string) : forall acc c,
  snd acc = Infinity \/ num_lt (snd acc) Infinity = true ->
  fst (fold_left (minStep distances) l acc) = Some c ->
  fst acc = Some c \/ num_lt (getNum distances c) Infinity = true.
Proof.
  induction l as [|x l IH]; intros acc c Hacc; simpl; auto.
  unfold minStep at 2.
  destruct (num_lt (getNum distances x) (snd acc)) eqn:E.
  - assert (Hx : num_lt (getNum distances x) Infinity = true).
    { destruct Hacc as [Hacc|Hacc]; [now rewrite <- Hacc|].
      eapply num_lt_trans; eauto. }
    intros H. apply IH in H; [|now right].
    destruct H as [[= <-]|H]; auto.
  - now apply IH.
Qed.

(** The node [getMinDistanceNode] returns has a distance below
    [Infinity]. *)
Lemma getMinDistanceNode_finite unvisited distances c :
  getMinDistanceNode unvisited distances = Some c ->
  num_lt (getNum distances c) Infinity = true.
Proof.
  intros H. apply minFold_finite in H; [|now left].
  destruct H as [H|H]; [discriminate|auto].
Qed.

Lemma get_fill_Infinity (l : list string) : forall (acc : JsMap.t number) k,
  JsMap.get (fold_left (fun d node => JsMap.set d node Infinity) l acc) k =
  if includes l k then Some Infinity else JsMap.get acc k.
Proof.
  induction l as [|x l IH]; intros acc k; simpl; auto.
  rewrite IH, get_set. unfold includes. simpl.
  rewrite (String.eqb_sym k x).
  destruct (existsb (String.eqb k) l); simpl; [now rewrite orb_true_r|].
  now rewrite orb_false_r.
Qed.

Lemma initial_distance graph start k :
  getNum (distances (initialState graph start)) k =
  if String.eqb start k then 0%float
  else if includes (unvisited (initialState graph start)) k then Infinity
       else NaN.
Proof.
  unfold getNum, initialState. simpl. rewrite get_set, get_fill_Infinity.
  destruct (String.eqb start k); auto.
  destruct (includes (JsSet.of_list (JsMap.keys graph)) k); reflexivity.
Qed.

Lemma initial_min graph start c :
  getMinDistanceNode (unvisited (initialState graph start))
                     (distances (initialState graph start)) = Some c ->
  c = start.
Proof.
  intros H. apply getMinDistanceNode_finite in H.
  rewrite initial_distance in H.
  destruct (String.eqb start c) eqn:E; [symmetry; now apply String.eqb_eq|].
  destruct (includes (unvisited (initialState graph start)) c);
    discriminate H.
Qed.

(** A search from a node to itself leaves the loop at once. *)
Lemma searchLoop_same_node graph s fuel :
  searchLoop (S fuel) graph s (initialState graph s) =
  Ok (initialState graph s).
Proof.
  cbn [searchLoop].
  destruct (Nat.ltb 0 (JsSet.size (unvisited (initialState graph s)))); auto.
  destruct (getMinDistanceNode (unvisited (initialState graph s))
                               (distances (initialState graph s)))
    as [c|] eqn:E; auto.
  apply initial_min in E. subst c. rewrite String.eqb_refl.
  now rewrite orb_true_r.
Qed.

(** The search between a non-empty identifier and itself: the one-node path,
    cost 0, for every graph. *)
Lemma dijkstra_same_node graph s :
  s <> "" -> dijkstra graph s s = Ok (Some (mkSegment [s] 0%float)).
Proof.
  intros Hs. unfold dijkstra. rewrite searchLoop_same_node. cbn [bind].
  unfold reconstructPath. cbn [plus walkBack].
  rewrite String.eqb_refl. cbn [negb]. rewrite andb_false_r.
  unfold truthy_opt, truthy. apply String.eqb_neq in Hs. rewrite Hs.
  cbn [negb bind]. rewrite initial_distance, String.eqb_refl. reflexivity.
Qed.

(** The search towards the empty identifier answers [null], for every graph
    and start. *)
Lemma dijkstra_empty_end graph start : dijkstra graph start "" = Ok None.
Proof.
  unfold dijkstra.
  destruct (searchLoop_total graph start "") as (settled & st & -> & _ & _).
  cbn [bind]. reflexivity.
Qed.

(** ** The claims on sample requests *)

Lemma findPathWithRequiredStops_stitches_witness :
  findPathWithRequiredStops triangleGraph "A" "C" ["B"] =
  Ok (Some (mkSegment ["A"; "B"; "C"] 3%float)).
Proof.
  apply (findPathWithRequiredStops_stitches triangleGraph "A" "C" ["B"]
           [mkSegment ["A"; "B"] 1%float; mkSegment ["B"; "C"] 2%float]).
  constructor; [vm_compute; reflexivity|].
  constructor; [vm_compute; reflexivity|].
  constructor.
Defined.

Lemma findOptimalPath_rejects_undeclared_edge_nodes_witness :
  missingOf (nodes undeclaredEdgeRequest)
            (requiredStops (constraints undeclaredEdgeRequest)
               ++ [end_ undeclaredEdgeRequest]) = [] /\
  findOptimalPath undeclaredEdgeRequest =
  Throw (InvalidEdgeNodes ["C"; "D"; "C"]).
Proof.
  split; [reflexivity|].
  destruct (findOptimalPath_rejects_undeclared_edge_nodes
              undeclaredEdgeRequest eq_refl) as [[_ Hif] Hthen].
  apply Hthen, Hif. exists (mkEdge "A" "C" 1). split; [now left|].
  right. simpl. intros [H|[H|[]]]; discriminate.
Defined.

Lemma findOptimalPath_fails_when_a_segment_fails_witness :
  findOptimalPath blockedLineRequest = Throw (NoPathFound []).
Proof.
  apply (findOptimalPath_fails_when_a_segment_fails
           blockedLineRequest [] "A" "C").
  - reflexivity.
  - reflexivity.
  - simpl. now left.
  - vm_compute. reflexivity.
Defined.

(** C10 as stated fails: with start = end = the empty identifier, no required
    stops, and the empty identifier not declared, the request fails with
    [MissingNodes], not with [NoPathFound]. *)
Lemma empty_identifier_undeclared_is_MissingNodes :
  start emptyIdUndeclaredRequest = "" /\
  end_ emptyIdUndeclaredRequest = "" /\
  requiredStops (constraints emptyIdUndeclaredRequest) = [] /\
  findOptimalPath emptyIdUndeclaredRequest = Throw (MissingNodes [""]) /\
  findOptimalPath emptyIdUndeclaredRequest <> Throw (NoPathFound []).
Proof.
  repeat split. vm_compute. discriminate.
Qed.

(** C10, amended: for every graph and start, the search towards the empty
    identifier answers [null]; and every request with start = end = the empty
    identifier and no required stops that passes validation fails with
    [NoPathFound]. *)
Theorem empty_identifier_end_is_never_reached :
  (forall graph start, dijkstra graph start "" = Ok None) /\
  (forall request,
      start request = "" -> end_ request = "" ->
      requiredStops (constraints request) = [] ->
      validateNodesExist (nodes request) (edges request)
        (requiredStops (constraints request) ++ [end_ request]) = Ok tt ->
      findOptimalPath request = Throw (NoPathFound [])).
Proof.
  split; [exact dijkstra_empty_end|].
  intros request Hs He Hr Hv.
  destruct (buildGraph_total (edges request)
                             (blockedNodes (constraints request))) as [g Hg].
  unfold findOptimalPath. rewrite Hv. cbn [bind]. rewrite Hg. cbn [bind].
  rewrite Hs, He, Hr. unfold findPathWithRequiredStops. cbn [app].
  rewrite stopsLoop_cons, dijkstra_empty_end. reflexivity.
Qed.

Lemma empty_identifier_end_is_never_reached_witness :
  dijkstra emptyIdGraph "A" "" = Ok None /\
  findOptimalPath emptyIdRequest = Throw (NoPathFound []).
Proof.
  destruct empty_identifier_end_is_never_reached as [Hsearch Hrequest].
  split.
  - apply Hsearch.
  - apply Hrequest; reflexivity.
Defined.

(** C3 at the empty identifier: the search from it to itself answers [null]
    and the validated request fails, where the one-node path of cost 0 is
    expected. *)
Theorem same_node_search_fails_on_empty_identifier :
  dijkstra emptyIdGraph "" "" = Ok None /\
  validateNodesExist (nodes emptyIdRequest) (edges emptyIdRequest)
    (requiredStops (constraints emptyIdRequest) ++ [end_ emptyIdRequest])
    = Ok tt /\
  findOptimalPath emptyIdRequest = Throw (NoPathFound []).
Proof. repeat split. Qed.

(** C4 at a blocked start that is also the end: A is blocked, buildGraph
    leaves it out of the graph as a node "that cannot be traversed", yet the
    request succeeds and the returned path is the blocked node itself, which
    the service tests expect no returned path to contain. *)
Theorem blocked_start_equal_to_end_is_returned :
  blockedNodes (constraints blockedStartRequest) = ["A"] /\
  findOptimalPath blockedStartRequest = Ok (mkPathResult ["A"] 0%float) /\
  In "A" (path (mkPathResult ["A"] 0%float)).
Proof. repeat split. now left. Qed.

(** C1 at the empty identifier: A and the empty identifier are keys of the
    graph joined by an edge of cost 1, yet the search from A to it answers
    [null]. *)
Theorem search_misses_edge_to_empty_identifier :
  buildGraph emptyIdEdges [] = Ok emptyIdGraph /\
  costOf emptyIdGraph "A" "" = Some 1%float /\
  dijkstra emptyIdGraph "A" "" = Ok None.
Proof. repeat split. Qed.

(** * The predecessors of a search form a tree of the graph *)

Lemma getNum_set (D : JsMap.t number) k v k' :
  getNum (JsMap.set D k v) k' = if String.eqb k k' then v else getNum D k'.
Proof. unfold getNum. rewrite get_set. now destruct (String.eqb k k'). Qed.

Lemma costOf_key graph a b w :
  costOf graph a b = Some w -> In a (JsMap.keys graph).
Proof.
  unfold costOf. destruct (JsMap.get graph a) eqn:E; [|discriminate].
  intros _. eapply get_Some_keys; eauto.
Qed.

Lemma truthy_nonempty s : s <> "" -> truthy s = true.
Proof.
  intros H. unfold truthy. apply String.eqb_neq in H. now rewrite H.
Qed.

Lemma walkBack_S fuel start P c path :
  walkBack (S fuel) start P (Some c) path =
  if truthy c && negb (String.eqb c start)
  then walkBack fuel start P (previousOf P c) (c :: path)
  else Some (Some c, path).
Proof. reflexivity. Qed.

(** The loop of [processNeighbors] for a node [current] that is no longer
    unvisited: an entry either stays, or belongs to an unvisited neighbour and
    becomes the distance of [current] plus the cost of the edge, with
    predecessor [current]. *)
Lemma relaxFold_edges current unvisited' (m : JsMap.t number) :
  ~ In current unvisited' ->
  forall D P D' P',
    fold_left (relax current unvisited') m (D, P) = (D', P') ->
    forall k,
      (getNum D' k = getNum D k /\ JsMap.get P' k = JsMap.get P k) \/
      (In k unvisited' /\
       exists w, In (k, w) m /\
                 getNum D' k = num_add (getNum D current) w /\
                 JsMap.get P' k = Some (Some current)).
Proof.
  intros Hcur. induction m as [|[n w] m IH]; intros D P D' P';
    cbn [fold_left].
  - intros [= <- <-]. auto.
  - destruct (relax_cases current unvisited' D P n w)
      as [[E _]|(Hn & _ & E)]; rewrite E; clear E; intros Hfold k.
    + destruct (IH _ _ _ _ Hfold k) as [?|(Hk & w' & Hw' & ?)]; auto.
      right. split; auto. exists w'. split; auto. now right.
    + assert (Hne : n <> current) by (intros ->; contradiction).
      assert (Hc : getNum (JsMap.set D n (num_add (getNum D current) w))
                     current = getNum D current).
      { rewrite getNum_set. apply String.eqb_neq in Hne. now rewrite Hne. }
      destruct (IH _ _ _ _ Hfold k) as [[Hd Hp]|(Hk & w' & Hw' & Hd & Hp)].
      * rewrite getNum_set in Hd. rewrite get_set in Hp.
        destruct (String.eqb n k) eqn:Ek; auto.
        apply String.eqb_eq in Ek. subst k. right. split; auto.
        exists w. split; [now left|auto].
      * right. split; auto. exists w'. split; [now right|].
        rewrite Hc in Hd. auto.
Qed.

(** The same for [processNeighbors], in terms of the edges of the graph. *)
Lemma processNeighbors_edges graph current unvisited' D P D' P' :
  uniqueNeighbors graph ->
  ~ In current unvisited' ->
  processNeighbors current graph unvisited' D P = (D', P') ->
  forall k,
    (getNum D' k = getNum D k /\ JsMap.get P' k = JsMap.get P k) \/
    (In k unvisited' /\
     exists w, costOf graph current k = Some w /\
               getNum D' k = num_add (getNum D current) w /\
               JsMap.get P' k = Some (Some current)).
Proof.
  intros Hunique Hcur Hp k. unfold processNeighbors in Hp.
  destruct (relaxFold_edges current unvisited' _ Hcur _ _ _ _ Hp k)
    as [?|(Hk & w & Hw & Hd & Hprev)]; auto.
  right. split; auto. exists w. split; auto.
  unfold costOf. destruct (JsMap.get graph current) as [m|] eqn:Em;
    [|destruct Hw].
  apply In_get_NoDup; eauto.
Qed.

Lemma treeInv_initial graph start :
  treeInv graph start (unvisited (initialState graph start)) []
          (initialState graph start).
Proof.
  constructor.
  - apply searchShape_initial.
  - rewrite initial_distance, String.eqb_refl. reflexivity.
  - intros n q. discriminate.
  - right. intros k _. rewrite initial_distance.
    destruct (String.eqb start k) eqn:E.
    + apply String.eqb_eq in E. auto.
    + destruct (includes _ k); discriminate.
Qed.

Lemma treeInv_step graph start all settled st current D' P' :
  uniqueNeighbors graph ->
  treeInv graph start all settled st ->
  getMinDistanceNode (unvisited st) (distances st) = Some current ->
  processNeighbors current graph (JsSet.delete (unvisited st) current)
                   (distances st) (previous st) = (D', P') ->
  treeInv graph start all (current :: settled)
          (mkSearchState (JsSet.delete (unvisited st) current) D' P').
Proof.
  intros Hunique HT Hmin Hp.
  pose proof (getMinDistanceNode_In _ _ _ Hmin) as Hcu.
  pose proof (getMinDistanceNode_finite _ _ _ Hmin) as Hdc.
  assert (HcU' : ~ In current (JsSet.delete (unvisited st) current))
    by (rewrite In_delete; tauto).
  pose proof (processNeighbors_edges graph current _ _ _ _ _
                Hunique HcU' Hp) as H2.
  assert (Hframe : forall k, ~ In k (JsSet.delete (unvisited st) current) ->
                             getNum D' k = getNum (distances st) k).
  { intros k Hk. destruct (H2 k) as [[? _]|[? _]]; tauto. }
  destruct (tree_shape HT) as (_ & _ & _ & Hdisj & Hprev & _).
  assert (Hstart : ~ In start (JsSet.delete (unvisited st) current)).
  { rewrite In_delete. intros [Hs Hne].
    destruct (tree_first HT) as [Hout|Hfirst]; [contradiction|].
    apply Hne. symmetry. eapply Hfirst; eauto. }
  constructor; cbn [unvisited distances previous].
  - eapply searchShape_step; eauto. apply HT.
  - rewrite (Hframe start Hstart). apply HT.
  - intros n q Hq. destruct (H2 n) as [[Hd Hpn]|(_ & w & Hw & Hd & Hpn)].
    + rewrite Hpn in Hq.
      destruct (tree_edges HT n q Hq) as (w & Hw & Hdn).
      destruct (Hprev _ _ Hq) as (q' & [= <-] & Hqs & _).
      exists w. rewrite Hd. rewrite (Hframe q); auto.
      rewrite In_delete. intros [Hqu _]. exact (Hdisj _ Hqs Hqu).
    + rewrite Hpn in Hq. injection Hq as <-. exists w.
      rewrite (Hframe current HcU'). auto.
  - left. exact Hstart.
Qed.

(** * The nodes of a returned route *)

Lemma walkBack_result (Good : string -> Prop) start P :
  (forall n q, previousOf P n = Some q -> Good q) ->
  forall fuel cur acc cur' path,
    walkBack fuel start P cur acc = Some (cur', path) ->
    (forall c, cur = Some c -> Good c) ->
    (forall n, In n acc -> Good n) ->
    (forall n, In n path -> Good n) /\
    (truthy_opt cur' = true -> cur' = Some start).
Proof.
  intros Hprev. induction fuel as [|fuel IH]; intros cur acc cur' path;
    [discriminate|].
  destruct cur as [c|].
  - rewrite walkBack_S.
    destruct (truthy c && negb (String.eqb c start)) eqn:E.
    + intros Hw Hc Hacc. apply (IH _ _ _ _ Hw).
      * intros q Hq. eapply Hprev; eauto.
      * intros n [<-|Hn]; auto.
    + intros [= <- <-] Hc Hacc. split; auto. cbn [truthy_opt]. intros Ht.
      rewrite Ht in E. cbn [andb] in E. apply negb_false_iff in E.
      apply String.eqb_eq in E. now subst.
  - cbn [walkBack]. intros [= <- <-] _ Hacc. split; auto. discriminate.
Qed.

(** A segment returned by the search is the one-node path of a search from
    a node to itself, or runs over keys of the graph only. *)
Lemma dijkstra_nodes graph a b s :
  dijkstra graph a b = Ok (Some s) ->
  (b = a /\ seg_path s = [a]) \/
  (In b (JsMap.keys graph) /\
   forall n, In n (seg_path s) -> In n (JsMap.keys graph)).
Proof.
  unfold dijkstra.
  destruct (searchLoop_total graph a b)
    as (settled & st & -> & (Hnd & HV & HU & Hdisj & Hprev & Hkeys) & _).
  cbn [bind]. unfold reconstructPath.
  set (all := unvisited (initialState graph a)) in *.
  assert (Hall : forall k, In k all -> In k (JsMap.keys graph))
    by (intros k; apply (proj2 (of_list_spec (JsMap.keys graph)))).
  change (2 + JsSet.size all) with (S (S (JsSet.size all))).
  rewrite walkBack_S.
  destruct (truthy b && negb (String.eqb b a)) eqn:E.
  - destruct (previousOf (previous st) b) as [q|] eqn:Eq;
      [|cbn [walkBack truthy_opt negb bind]; discriminate].
    assert (Hgood : forall n q0, previousOf (previous st) n = Some q0 ->
                                 In q0 all).
    { intros n q0. unfold previousOf.
      destruct (JsMap.get (previous st) n) as [[p|]|] eqn:Ep; try discriminate.
      destruct (truthy p); [|discriminate]. intros [= <-].
      destruct (Hprev _ _ Ep) as (q' & [= <-] & Hq' & _). auto. }
    assert (Hb : In b all).
    { unfold previousOf in Eq.
      destruct (JsMap.get (previous st) b) as [x|] eqn:Ex; [|discriminate].
      eauto. }
    destruct (walkBack (S (JsSet.size all)) a (previous st) (Some q) [b])
      as [[cur' path]|] eqn:Ew; [|discriminate].
    destruct (walkBack_result (fun n => In n all) a (previous st) Hgood
                _ _ _ _ _ Ew) as [Hpath Hcur].
    { intros c [= <-]. eauto. }
    { intros n [<-|[]]. exact Hb. }
    destruct (truthy_opt cur') eqn:Et; cbn [negb bind]; [|discriminate].
    intros [= <-]. cbn [seg_path]. right. split; auto.
    intros n [<-|Hn]; auto.
    specialize (Hcur eq_refl). subst cur'.
    apply Hall. clear - Ew Hgood Hb Eq.
    (* the walk ended on [a], a predecessor or [q] itself *)
    assert (Hlast : forall fuel cur acc cur1 path1,
              walkBack fuel a (previous st) cur acc = Some (cur1, path1) ->
              (forall c, cur = Some c -> In c all) ->
              forall c', cur1 = Some c' -> In c' all).
    { induction fuel as [|fuel IH]; intros cur acc cur1 path1; [discriminate|].
      destruct cur as [c|].
      - rewrite walkBack_S.
        destruct (truthy c && negb (String.eqb c a)).
        + intros Hw Hc. apply (IH _ _ _ _ Hw). intros q0 Hq0. eauto.
        + intros [= <- <-] Hc. auto.
      - cbn [walkBack]. intros [= <- <-] _ c'. discriminate. }
    apply (Hlast _ _ _ _ _ Ew); auto. intros c [= <-]. eauto.
  - cbn [truthy_opt]. destruct (truthy b) eqn:Et; cbn [negb bind];
      [|discriminate].
    cbn [andb] in E. apply negb_false_iff, String.eqb_eq in E.
    intros [= <-]. left. auto.
Qed.

Lemma stopsLoop_nodes (Good : string -> Prop) graph :
  (forall k, In k (JsMap.keys graph) -> Good k) ->
  forall sequence i totalPath totalCost r,
    stopsLoop graph i sequence totalPath totalCost = Ok (Some r) ->
    (forall a, hd_error sequence = Some a -> Good a) ->
    (forall n, In n totalPath -> Good n) ->
    forall n, In n (seg_path r) -> Good n.
Proof.
  intros Hkeys. induction sequence as [|a rest IH];
    intros i tp tc r; [intros [= <-] _ Htp; exact Htp|].
  destruct rest as [|b rest]; [intros [= <-] _ Htp; exact Htp|].
  rewrite stopsLoop_cons. intros H Hhd Htp.
  destruct (dijkstra graph a b) as [[s|]| | |] eqn:Ed; try discriminate.
  cbn [bind] in H. apply (IH _ _ _ _ H).
  - intros x [= <-].
    destruct (dijkstra_nodes _ _ _ _ Ed) as [[-> _]|[Hb _]]; auto.
  - assert (Hs : forall n, In n (seg_path s) -> Good n).
    { destruct (dijkstra_nodes _ _ _ _ Ed) as [[_ ->]|[_ Hs]].
      - intros n [<-|[]]. auto.
      - auto. }
    destruct (Nat.eqb i 0); auto.
    intros n Hn. apply in_app_iff in Hn. destruct Hn as [Hn|Hn]; auto.
    apply Hs. destruct (seg_path s); [destruct Hn|now right].
Qed.

Lemma dijkstra_head graph a b s :
  dijkstra graph a b = Ok (Some s) -> exists t, seg_path s = a :: t.
Proof.
  unfold dijkstra.
  destruct (searchLoop _ graph b (initialState graph a)) as [st| | |];
    cbn [bind]; try discriminate.
  unfold reconstructPath.
  destruct (walkBack _ a (previous st) (Some b) []) as [[cur route]|];
    [|discriminate].
  destruct (negb (truthy_opt cur)); cbn [bind]; [discriminate|].
  intros [= <-]. cbn [seg_path]. eauto.
Qed.

(** From a node that is no key of the graph, the only segment is the
    one-node path to itself. *)
Lemma dijkstra_from_absent graph a b s :
  ~ In a (JsMap.keys graph) ->
  dijkstra graph a b = Ok (Some s) -> b = a /\ seg_path s = [a].
Proof.
  intros Ha Hs. destruct (dijkstra_nodes _ _ _ _ Hs) as [?|[_ Hkeys]]; auto.
  destruct (dijkstra_head _ _ _ _ Hs) as [t Ht].
  exfalso. apply Ha, Hkeys. rewrite Ht. now left.
Qed.

Lemma stopsLoop_from_absent graph a :
  ~ In a (JsMap.keys graph) ->
  forall rest i totalPath totalCost r,
    stopsLoop graph (S i) (a :: rest) totalPath totalCost = Ok (Some r) ->
    (forall x, In x rest -> x = a) /\ seg_path r = totalPath.
Proof.
  intros Ha. induction rest as [|b rest IH]; intros i tp tc r.
  - intros [= <-]. split; [intros x []|reflexivity].
  - rewrite stopsLoop_cons.
    destruct (dijkstra graph a b) as [[s|]| | |] eqn:Ed; try discriminate.
    destruct (dijkstra_from_absent _ _ _ _ Ha Ed) as [-> Hs].
    cbn [bind Nat.eqb]. rewrite Hs. cbn [tl]. rewrite app_nil_r.
    intros H. destruct (IH _ _ _ _ H) as [Hall Hr]. split; auto.
    intros x [<-|Hx]; auto.
Qed.

(** When the start is not blocked, no blocked identifier is on the route a
    request is answered with. *)
Lemma unblocked_start_route request r :
  findOptimalPath request = Ok r ->
  ~ In (start request) (blockedNodes (constraints request)) ->
  forall b, In b (blockedNodes (constraints request)) -> ~ In b (path r).
Proof.
  intros H Hstart b Hb Hin.
  unfold findOptimalPath in H.
  apply bind_Ok in H. destruct H as (_ & _ & H).
  apply bind_Ok in H. destruct H as (g & Hg & H).
  apply bind_Ok in H. destruct H as ([s|] & Hs & H); [|discriminate].
  injection H as <-. cbn [path] in Hin.
  destruct (buildGraph_invariant _ _ _ Hg) as [[_ Hclean] _].
  revert b Hin Hb.
  change (forall b, In b (seg_path s) ->
            (fun n => ~ In n (blockedNodes (constraints request))) b).
  eapply stopsLoop_nodes; [|exact Hs| |].
  - intros k Hk. destruct (keys_get _ _ Hk) as [m Hm].
    exact (proj1 (Hclean _ _ Hm)).
  - intros a [= <-]. exact Hstart.
  - intros n [].
Qed.

(** When the start is blocked, a request is answered only if the end and
    every required stop are the start, and then with the one-node path. *)
Lemma blocked_start_route request r :
  findOptimalPath request = Ok r ->
  In (start request) (blockedNodes (constraints request)) ->
  path r = [start request] /\
  end_ request = start request /\
  forall s, In s (requiredStops (constraints request)) -> s = start request.
Proof.
  intros H Hstart. unfold findOptimalPath in H.
  apply bind_Ok in H. destruct H as (_ & _ & H).
  apply bind_Ok in H. destruct H as (g & Hg & H).
  apply bind_Ok in H. destruct H as ([s|] & Hs & H); [|discriminate].
  injection H as <-. cbn [path].
  destruct (buildGraph_invariant _ _ _ Hg) as [[_ Hclean] _].
  assert (Ha : ~ In (start request) (JsMap.keys g)).
  { intros Hk. destruct (keys_get _ _ Hk) as [m Hm].
    exact (proj1 (Hclean _ _ Hm) Hstart). }
  unfold findPathWithRequiredStops in Hs.
  destruct (requiredStops (constraints request) ++ [end_ request])
    as [|b rest] eqn:Eseq; [destruct (requiredStops _); discriminate|].
  rewrite stopsLoop_cons in Hs.
  destruct (dijkstra g (start request) b) as [[s0|]| | |] eqn:Ed;
    try discriminate.
  destruct (dijkstra_from_absent _ _ _ _ Ha Ed) as [-> Hs0].
  cbn [bind Nat.eqb] in Hs. rewrite Hs0 in Hs.
  destruct (stopsLoop_from_absent g _ Ha _ _ _ _ _ Hs) as [Hall Hr].
  assert (Hseq : forall x, In x (requiredStops (constraints request)
                                   ++ [end_ request]) -> x = start request).
  { rewrite Eseq. intros x [<-|Hx]; auto. }
  repeat split; auto.
  - apply Hseq, in_app_iff. right. now left.
  - intros x Hx. apply Hseq, in_app_iff. now left.
Qed.

(** How far a blocked identifier can reach an answered route: none occurs
    on it unless the start itself is blocked, and then the end and every
    required stop are the start and the route is that single node.  The start
    is checked neither against the declared nodes nor against the blocked
    ones. *)
Theorem blocked_nodes_stay_off_the_route_unless_start_blocked :
  forall request r,
    findOptimalPath request = Ok r ->
    (forall b, In b (blockedNodes (constraints request)) -> ~ In b (path r))
    \/
    (In (start request) (blockedNodes (constraints request)) /\
     path r = [start request] /\
     end_ request = start request /\
     forall s, In s (requiredStops (constraints request)) ->
               s = start request).
Proof.
  intros request r H.
  destruct (in_dec string_dec (start request)
                   (blockedNodes (constraints request))) as [Hb|Hb].
  - right. split; auto. now apply blocked_start_route.
  - left. now apply unblocked_start_route.
Qed.

Lemma blocked_nodes_stay_off_the_route_unless_start_blocked_witness :
  findOptimalPath detourRequest = Ok (mkPathResult ["A"; "B"; "C"] 3%float) /\
  ((forall b, In b ["D"] -> ~ In b ["A"; "B"; "C"])
   \/
   (In "A" ["D"] /\ ["A"; "B"; "C"] = ["A"] /\ "C" = "A" /\
    forall s, In s ["B"] -> s = "A")).
Proof.
  split; [reflexivity|].
  apply (blocked_nodes_stay_off_the_route_unless_start_blocked
           detourRequest (mkPathResult ["A"; "B"; "C"] 3%float)).
  reflexivity.
Defined.

(** * Checking the conditions on a concrete graph *)

Lemma distinct_NoDup l : distinct l = true -> NoDup l.
Proof.
  induction l as [|x l IH]; simpl; [constructor|].
  intros H. apply andb_true_iff in H. destruct H as [H1 H2].
  apply negb_true_iff, includes_false in H1. constructor; auto.
Qed.

Lemma uniqueNeighborsb_correct graph :
  uniqueNeighborsb graph = true -> uniqueNeighbors graph.
Proof.
  unfold uniqueNeighborsb. rewrite forallb_forall. intros H k m Hm.
  apply distinct_NoDup. apply (H (k, m)). now apply get_Some_In.
Qed.

Lemma nonEmptyIdsb_correct graph :
  nonEmptyIdsb graph = true -> nonEmptyIds graph.
Proof.
  unfold nonEmptyIdsb. rewrite forallb_forall. intros H k Hk Hempty.
  specialize (H k Hk). subst k. discriminate.
Qed.

(** The search from a non-empty identifier to itself answers the one-node
    path with cost 0, for every graph; and a validated request with
    start = end, non-empty, and no required stops is answered with
    that path. *)
Theorem same_node_search_on_nonempty_identifier : forall s,
  s <> "" ->
  (forall graph, dijkstra graph s s = Ok (Some (mkSegment [s] 0%float))) /\
  (forall request,
      start request = s -> end_ request = s ->
      requiredStops (constraints request) = [] ->
      validateNodesExist (nodes request) (edges request)
        (requiredStops (constraints request) ++ [end_ request]) = Ok tt ->
      findOptimalPath request = Ok (mkPathResult [s] 0%float)).
Proof.
  intros s Hs. split; [intros graph; now apply dijkstra_same_node|].
  intros request Hstart Hend Hstops Hv.
  destruct (buildGraph_total (edges request)
                             (blockedNodes (constraints request))) as [g Hg].
  unfold findOptimalPath. rewrite Hv. cbn [bind]. rewrite Hg. cbn [bind].
  rewrite Hstart, Hend, Hstops. unfold findPathWithRequiredStops. cbn [app].
  rewrite stopsLoop_cons, dijkstra_same_node by assumption. reflexivity.
Qed.

Lemma same_node_search_on_nonempty_identifier_witness :
  dijkstra triangleGraph "B" "B" = Ok (Some (mkSegment ["B"] 0%float)) /\
  findOptimalPath roundTripRequest = Ok (mkPathResult ["B"] 0%float).
Proof.
  destruct (same_node_search_on_nonempty_identifier "B") as [Hsearch Hrequest].
  - discriminate.
  - split; [apply Hsearch|apply Hrequest; reflexivity].
Defined.

(** The search returns for every graph, start and end, whatever the sign of
    the costs: its loops end within their budget. *)
Theorem dijkstra_terminates : forall graph start end_,
  exists r, dijkstra graph start end_ = Ok r.
Proof. exact dijkstra_total. Qed.

(** Every request is answered: with a route, or with one of the three
    errors. *)
Theorem findOptimalPath_outcomes : forall request,
  let stops := requiredStops (constraints request) in
  (exists r, findOptimalPath request = Ok r) \/
  findOptimalPath request =
    Throw (MissingNodes (missingOf (nodes request) (stops ++ [end_ request])))
  \/
  findOptimalPath request =
    Throw (InvalidEdgeNodes
             (invalidEdgeNodesOf (nodes request) (edges request)))
  \/
  findOptimalPath request = Throw (NoPathFound stops).
Proof.
  intros request stops.
  pose proof (validateNodesExist_cases (nodes request) (edges request)
                (stops ++ [end_ request])) as Hc.
  destruct (missingOf (nodes request) (stops ++ [end_ request])) eqn:Em.
  - destruct (invalidEdgeNodesOf (nodes request) (edges request)) eqn:Ei.
    + destruct (findOptimalPath_validated request Hc) as (g & [s|] & _ & _ & ->);
        eauto.
    + right. right. left. unfold findOptimalPath. fold stops. now rewrite Hc.
  - right. left. unfold findOptimalPath. fold stops. now rewrite Hc.
Qed.

(** * The returned route is a walk of the graph *)

Lemma walkBack_path graph start (D : JsMap.t number) P :
  getNum D start = 0%float ->
  (forall n q, JsMap.get P n = Some (Some q) ->
     exists w, costOf graph q n = Some w /\
               getNum D n = num_add (getNum D q) w) ->
  forall fuel c acc route,
    walkBack fuel start P (Some c) acc = Some (Some start, route) ->
    exists pre,
      route = pre ++ acc /\ Path graph start c (start :: pre) (getNum D c).
Proof.
  intros Hstart Htree. induction fuel as [|fuel IH]; intros c acc route;
    [discriminate|].
  rewrite walkBack_S. destruct (truthy c && negb (String.eqb c start)).
  - unfold previousOf.
    destruct (JsMap.get P c) as [[q|]|] eqn:Eq;
      try (destruct fuel; discriminate).
    destruct (truthy q); [|destruct fuel; discriminate].
    intros Hw. destruct (IH _ _ _ Hw) as (pre & -> & Hpath).
    destruct (Htree c q Eq) as (w & Hw' & Hdc).
    exists (pre ++ [c]). split; [now rewrite <- app_assoc|].
    change (start :: pre ++ [c]) with ((start :: pre) ++ [c]).
    rewrite Hdc. econstructor; eauto.
  - intros [= -> <-]. exists []. split; auto. rewrite Hstart. constructor.
Qed.

(** Whatever the costs: a segment returned by the search is a path of the
    graph from its start to its end, and its cost is the sum of the costs of
    the edges of that path, added one by one from 0 in the order of the
    path. *)
Lemma dijkstra_path graph a b s :
  uniqueNeighbors graph ->
  dijkstra graph a b = Ok (Some s) ->
  Path graph a b (seg_path s) (seg_cost s).
Proof.
  intros Hunique. unfold dijkstra.
  set (all := unvisited (initialState graph a)).
  destruct (searchLoop_invariant
              (treeInv graph a all) graph b
              (fun settled st c D' P' HT Hmin _ _ Hp =>
                 treeInv_step graph a all settled st c D' P'
                              Hunique HT Hmin Hp)
              (S (JsSet.size all)) [] (initialState graph a)
              (treeInv_initial graph a))
    as (settled & st & -> & HT & _); [unfold JsSet.size, all; lia|].
  cbn [bind]. unfold reconstructPath.
  destruct (walkBack (2 + JsSet.size all) a (previous st) (Some b) [])
    as [[cur route]|] eqn:Ew; [|discriminate].
  destruct (truthy_opt cur) eqn:Et; cbn [negb bind]; [|discriminate].
  intros [= <-]. cbn [seg_path seg_cost].
  destruct (walkBack_result (fun _ => True) a (previous st)
              (fun _ _ _ => I) _ _ _ _ _ Ew (fun _ _ => I) (fun _ _ => I))
    as [_ Hcur].
  rewrite (Hcur Et) in Ew.
  destruct (walkBack_path graph a (distances st) (previous st)
              (tree_start HT) (tree_edges HT) _ _ _ _ Ew)
    as (pre & -> & Hpath).
  now rewrite app_nil_r.
Qed.

Lemma Path_nonempty graph a b p d :
  Path graph a b p d -> exists t, p = a :: t /\ last p a = b.
Proof.
  intros H. induction H as [|b c p d w H IH Hw].
  - exists []. auto.
  - destruct IH as (t & -> & _). exists (t ++ [c]). split; auto.
    change (a :: t ++ [c]) with ((a :: t) ++ [c]). apply last_last.
Qed.

(** Walks that meet at a node make one walk. *)
Lemma Walk_join graph a b c p1 p2 :
  Walk graph a b p1 -> Walk graph b c p2 -> Walk graph a c (p1 ++ tl p2).
Proof.
  intros H1 [d2 H2]. induction H2 as [|c e p2 d2 w H2 IH Hw].
  - simpl. now rewrite app_nil_r.
  - destruct IH as [d IH].
    destruct (Path_nonempty _ _ _ _ _ H2) as (t & -> & _). simpl.
    rewrite app_assoc. eexists. econstructor; eauto.
Qed.

Lemma last_default (t : list string) : forall x d d',
  last (x :: t) d = last (x :: t) d'.
Proof.
  induction t as [|z t IH]; intros x d d'; [reflexivity|].
  change (last (z :: t) d = last (z :: t) d'). apply IH.
Qed.

Lemma last_app_cons (l : list string) x t d d' :
  last (l ++ x :: t) d = last (x :: t) d'.
Proof.
  induction l as [|y l IH]; cbn [app]; [apply last_default|].
  destruct (l ++ x :: t) as [|z r] eqn:E; [destruct l; discriminate|].
  change (last (z :: r) d = last (x :: t) d'). exact IH.
Qed.

Lemma stitchedPath_cons s rest :
  seg_path s <> [] ->
  tl (stitchedPath (s :: rest)) =
  flat_map (fun s' => tl (seg_path s')) (s :: rest).
Proof.
  unfold stitchedPath. intros H. cbn [flat_map].
  destruct (seg_path s); [congruence|reflexivity].
Qed.

(** Walks between the consecutive stops, stitched, make one walk from the
    first stop to the last. *)
Lemma walk_of_segments graph : forall rest a segments,
  Forall2 (fun ab s => Walk graph (fst ab) (snd ab) (seg_path s))
          (consecutivePairs (a :: rest)) segments ->
  rest <> [] ->
  Walk graph a (last rest a) (stitchedPath segments).
Proof.
  induction rest as [|b rest IH]; intros a segments H Hne; [congruence|].
  destruct rest as [|c rest].
  - cbn [consecutivePairs] in H.
    inversion H as [|? s ? segs' Hs Hrest]; subst. inversion Hrest; subst.
    cbn [stitchedPath flat_map last fst snd] in *. now rewrite app_nil_r.
  - change (consecutivePairs (a :: b :: c :: rest))
      with ((a, b) :: consecutivePairs (b :: c :: rest)) in H.
    inversion H as [|? s ? segs' Hs Hrest]; subst. cbn [fst snd] in Hs.
    assert (IH' := IH b segs' Hrest ltac:(discriminate)).
    change (last (b :: c :: rest) a) with (last (c :: rest) a).
    rewrite (last_default rest c a b).
    destruct segs' as [|s2 segs2]; [inversion Hrest|].
    assert (Hs2 : seg_path s2 <> []).
    { inversion Hrest as [|? ? ? ? [d2 Hp2] _]; subst.
      destruct (Path_nonempty _ _ _ _ _ Hp2) as (t & -> & _). discriminate. }
    change (stitchedPath (s :: s2 :: segs2))
      with (seg_path s ++
            flat_map (fun s' => tl (seg_path s')) (s2 :: segs2)).
    rewrite <- (stitchedPath_cons s2 segs2 Hs2).
    eapply Walk_join; eauto.
Qed.

(** A route is a single walk of the graph from start to end. *)
Lemma Route_Walk graph a stops b p d :
  Route graph a stops b p d -> Walk graph a b p.
Proof.
  intros (segments & Hsegs & -> & _).
  replace b with (last (stops ++ [b]) a) at 1
    by (rewrite (last_app_cons stops b [] a a); reflexivity).
  apply walk_of_segments; [|destruct stops; discriminate].
  eapply Forall2_impl; [|exact Hsegs]. intros ab s Hp. now exists (seg_cost s).
Qed.

Lemma stopsLoop_segments_exist graph sequence : forall i totalPath totalCost r,
  stopsLoop graph i sequence totalPath totalCost = Ok (Some r) ->
  exists segments,
    Forall2 (searchReturns graph) (consecutivePairs sequence) segments.
Proof.
  induction sequence as [|a rest IH]; intros i tp tc r;
    [exists []; constructor|].
  destruct rest as [|b rest]; [exists []; constructor|].
  rewrite stopsLoop_cons.
  destruct (dijkstra graph a b) as [[s|]| | |] eqn:Ed; try discriminate.
  cbn [bind]. intros H. destruct (IH _ _ _ _ H) as [segments Hsegs].
  exists (s :: segments). cbn [consecutivePairs]. constructor; auto.
Qed.

(** What [findPathWithRequiredStops] returns on a graph with unique
    neighbour keys is a route through the stops. *)
Lemma findPathWithRequiredStops_route graph a b stops r :
  uniqueNeighbors graph ->
  findPathWithRequiredStops graph a b stops = Ok (Some r) ->
  Route graph a stops b (seg_path r) (seg_cost r).
Proof.
  intros Hunique Hs. unfold findPathWithRequiredStops in Hs.
  destruct (stopsLoop_segments_exist _ _ _ _ _ _ Hs) as [segments Hsegs].
  rewrite (stopsLoop_segments graph _ _ Hsegs) in Hs
    by (simpl; rewrite length_app; simpl; lia).
  injection Hs as <-. cbn [seg_path seg_cost].
  exists segments. split; auto.
  eapply Forall2_impl; [|exact Hsegs].
  intros ab s0 Hret. now apply dijkstra_path.
Qed.

(** Every cost the graph records comes from an edge of the request that
    touches no blocked node, under one of its two orientations. *)
Theorem recorded_costs_come_from_unblocked_edges blocked es : forall g a b w,
  buildGraph es blocked = Ok g -> costOf g a b = Some w ->
  exists e, In e es /\ touchesBlocked blocked e = false /\
            recordedUnder e a b = true /\ cost e = w.
Proof.
  induction es as [|e es IH] using rev_ind; intros g a b w Hg Hw.
  - injection Hg as <-. discriminate.
  - unfold buildGraph in Hg. rewrite buildGraph_from_app in Hg.
    apply bind_Ok in Hg. destruct Hg as (g0 & Hg0 & Hg).
    cbn [buildGraph_from] in Hg. apply bind_Ok in Hg.
    destruct Hg as (g1 & Hg1 & [= <-]).
    assert (Hold : costOf g0 a b = Some w ->
                   exists e0, In e0 (es ++ [e]) /\
                              touchesBlocked blocked e0 = false /\
                              recordedUnder e0 a b = true /\ cost e0 = w).
    { intros H. destruct (IH _ _ _ _ Hg0 H) as (e0 & Hin & ?).
      exists e0. split; auto. apply in_app_iff. now left. }
    destruct (touchesBlocked blocked e) eqn:Hb.
    + rewrite addEdge_blocked in Hg1 by assumption.
      injection Hg1 as <-. auto.
    + rewrite (addEdge_costOf _ _ _ _ a b Hb Hg1) in Hw.
      destruct (recordedUnder e a b) eqn:Hr; auto.
      injection Hw as <-. exists e. repeat split; auto.
      apply in_app_iff. right. now left.
Qed.

(** Whatever the costs: the route a request is answered with is made of one
    path of the built graph for each consecutive pair of start, required
    stops and end, stitched at the stops; the whole is a walk of the graph
    from start to end.  Its total cost adds the costs of these paths to 0 one
    after the other, and the cost of each path adds the costs of its edges to
    0 in the order of the path: the sums are the rounded sums of the
    source. *)
Theorem answered_route_is_a_walk_through_the_stops : forall request r,
  findOptimalPath request = Ok r ->
  exists graph,
    buildGraph (edges request) (blockedNodes (constraints request)) = Ok graph /\
    Route graph (start request) (requiredStops (constraints request))
          (end_ request) (path r) (totalCost r) /\
    Walk graph (start request) (end_ request) (path r).
Proof.
  intros request r H. unfold findOptimalPath in H.
  apply bind_Ok in H. destruct H as (_ & _ & H).
  apply bind_Ok in H. destruct H as (g & Hg & H).
  apply bind_Ok in H. destruct H as ([s|] & Hs & H); [|discriminate].
  injection H as <-. cbn [path totalCost].
  destruct (buildGraph_invariant _ _ _ Hg) as [[_ Hclean] _].
  assert (Hunique : uniqueNeighbors g).
  { intros k m Hm. apply (Hclean _ _ Hm). }
  pose proof (findPathWithRequiredStops_route _ _ _ _ _ Hunique Hs) as Hroute.
  exists g. repeat split; auto. eapply Route_Walk; eauto.
Qed.

Lemma recorded_costs_come_from_unblocked_edges_witness :
  exists e, In e triangleEdges /\ touchesBlocked [] e = false /\
            recordedUnder e "C" "B" = true /\ cost e = 2%float.
Proof.
  apply (recorded_costs_come_from_unblocked_edges
           [] triangleEdges triangleGraph "C" "B" 2%float); reflexivity.
Defined.

Lemma answered_route_is_a_walk_through_the_stops_witness :
  exists graph,
    buildGraph (edges detourRequest)
               (blockedNodes (constraints detourRequest)) = Ok graph /\
    Route graph "A" ["B"] "C" ["A"; "B"; "C"] 3%float /\
    Walk graph "A" "C" ["A"; "B"; "C"].
Proof.
  apply (answered_route_is_a_walk_through_the_stops
           detourRequest (mkPathResult ["A"; "B"; "C"] 3%float)).
  reflexivity.
Defined.

(** * The unit tests of the service, run on the embedding *)

Example test_validate_all_nodes_exist :
  validateNodesExist ["A"; "B"; "C"] [mkEdge "A" "B" 1] ["A"; "B"] = Ok tt.
Proof. reflexivity. Qed.

Example test_validate_missing_required_node :
  validateNodesExist ["A"; "B"] [mkEdge "A" "B" 1] ["A"; "B"; "C"] =
  Throw (mkHttpException "Missing required nodes: C" 400).
Proof. reflexivity. Qed.

Example test_validate_invalid_edge_node :
  validateNodesExist ["A"; "B"] [mkEdge "A" "C" 1] ["A"; "B"] =
  Throw (mkHttpException "Invalid edge nodes: C" 400).
Proof. reflexivity. Qed.

Example test_buildGraph_line :
  buildGraph [mkEdge "A" "B" 1; mkEdge "B" "C" 2] [] =
  Ok [("A", [("B", 1%float)]);
      ("B", [("A", 1%float); ("C", 2%float)]);
      ("C", [("B", 2%float)])].
Proof. reflexivity. Qed.

Example test_buildGraph_blocked :
  buildGraph [mkEdge "A" "B" 1; mkEdge "B" "C" 2] ["B"] = Ok [].
Proof. reflexivity. Qed.

Example test_buildGraph_triangle :
  buildGraph triangleEdges [] = Ok triangleGraph.
Proof. reflexivity. Qed.

Example test_stops_found :
  findPathWithRequiredStops
    [("A", [("B", 1%float)]); ("B", [("A", 1%float); ("C", 2%float)]); ("C", [("B", 2%float)])]
    "A" "C" ["B"] =
  Ok (Some (mkSegment ["A"; "B"; "C"] 3%float)).
Proof. reflexivity. Qed.

Example test_stops_no_path :
  findPathWithRequiredStops
    [("A", [("B", 1%float)]); ("B", [("A", 1%float)]); ("C", [])] "A" "C" ["B"] =
  Ok None.
Proof. reflexivity. Qed.

Example test_dijkstra_shortest :
  dijkstra triangleGraph "A" "C" =
  Ok (Some (mkSegment ["A"; "B"; "C"] 3%float)).
Proof. reflexivity. Qed.

Example test_dijkstra_no_path :
  dijkstra [("A", [("B", 1%float)]); ("B", [("A", 1%float)]); ("C", [])] "A" "C" =
  Ok None.
Proof. reflexivity. Qed.

Example test_dijkstra_start_equals_end :
  dijkstra [("A", [("B", 1%float)]); ("B", [("A", 1%float)])] "A" "A" =
  Ok (Some (mkSegment ["A"] 0%float)).
Proof. reflexivity. Qed.

Example test_processNeighbors :
  processNeighbors "A" triangleGraph ["B"; "C"]
    [("A", 0%float); ("B", Infinity); ("C", Infinity)]
    [("A", None); ("B", None); ("C", None)] =
  ([("A", 0%float); ("B", 1%float); ("C", 4%float)],
   [("A", None); ("B", Some "A"); ("C", Some "A")]).
Proof. reflexivity. Qed.

Example test_processNeighbors_visited :
  processNeighbors "A" [("A", [("B", 1%float)]); ("B", [("A", 1%float)])] []
    [("A", 0%float); ("B", Infinity)] [("A", None); ("B", None)] =
  ([("A", 0%float); ("B", Infinity)], [("A", None); ("B", None)]).
Proof. reflexivity. Qed.

Example test_getMinDistanceNode :
  getMinDistanceNode ["A"; "B"; "C"] [("A", 1%float); ("B", 0%float); ("C", 2%float)]
  = Some "B".
Proof. reflexivity. Qed.

Example test_getMinDistanceNode_all_unreachable :
  getMinDistanceNode ["A"; "B"; "C"]
    [("A", Infinity); ("B", Infinity); ("C", Infinity)] = None.
Proof. reflexivity. Qed.

Example test_reconstructPath :
  reconstructPath 4 "A" "C" [("A", None); ("B", Some "A"); ("C", Some "B")] =
  Ok (Some ["A"; "B"; "C"]).
Proof. reflexivity. Qed.

Example test_reconstructPath_no_path :
  reconstructPath 4 "A" "C" [("A", None); ("B", None); ("C", None)] = Ok None.
Proof. reflexivity. Qed.

Example test_reconstructPath_start_equals_end :
  reconstructPath 2 "A" "A" [("A", None)] = Ok (Some ["A"]).
Proof. reflexivity. Qed.

(** The examples of the specification. *)
Example spec_example_line :
  findOptimalPath
    (mkRequest "A" "C" ["A"; "B"; "C"] [mkEdge "A" "B" 1; mkEdge "B" "C" 2]
               (mkConstraints [] [])) =
  Ok (mkPathResult ["A"; "B"; "C"] 3%float).
Proof. reflexivity. Qed.

Example spec_example_blocked :
  findOptimalPath blockedLineRequest =
  Throw (mkHttpException
           "No valid path found that satisfies all constraints of " 400).
Proof. reflexivity. Qed.

Example spec_example_required_stop :
  findOptimalPath
    (mkRequest "A" "C" ["A"; "B"; "C"] triangleEdges (mkConstraints [] ["B"])) =
  Ok (mkPathResult ["A"; "B"; "C"] 3%float).
Proof. reflexivity. Qed.

(** Further behaviours on concrete inputs. *)

(** An undeclared start alone does not fail the validation. *)
Example undeclared_start_is_not_checked :
  findOptimalPath
    (mkRequest "Z" "B" ["A"; "B"] [mkEdge "A" "B" 1] (mkConstraints [] [])) =
  Throw (NoPathFound []).
Proof. reflexivity. Qed.

(** Missing identifiers are listed in input order, repetitions kept, and
    take precedence over undeclared edge endpoints. *)
Example missing_nodes_in_input_order :
  findOptimalPath
    (mkRequest "A" "Y" ["A"; "B"] [mkEdge "A" "Q" 1]
               (mkConstraints [] ["X"; "B"; "X"])) =
  Throw (mkHttpException "Missing required nodes: X, X, Y" 400).
Proof. reflexivity. Qed.

(** A later edge between the same nodes replaces the recorded cost. *)
Example later_edge_replaces_cost :
  buildGraph [mkEdge "A" "B" 1; mkEdge "B" "A" 5] [] =
  Ok [("A", [("B", 5%float)]); ("B", [("A", 5%float)])].
Proof. reflexivity. Qed.

(** An edge dropped for a blocked endpoint adds neither endpoint; the other
    endpoint is present when another edge brings it. *)
Example dropped_edge_adds_no_node :
  buildGraph [mkEdge "A" "B" 1; mkEdge "A" "C" 2] ["B"] =
  Ok [("A", [("C", 2%float)]); ("C", [("A", 2%float)])].
Proof. reflexivity. Qed.

(** The empty identifier in the middle of the only path hides the path. *)
Example empty_identifier_in_the_middle :
  dijkstra [("A", [("", 1%float)]); ("", [("A", 1%float); ("B", 1%float)]);
            ("B", [("", 1%float)])] "A" "B" = Ok None.
Proof. reflexivity. Qed.

(** * Further properties of the service *)

(** ** validateNodesExist *)

Lemma undeclared_none validNodes (l : list string) :
  filter (fun n => negb (includes validNodes n)) l = [] <->
  forall x, In x l -> In x validNodes.
Proof.
  induction l as [|y l IH]; simpl; [tauto|].
  destruct (includes validNodes y) eqn:E; simpl.
  - apply includes_true in E. rewrite IH. split.
    + intros H x [<-|Hx]; auto.
    + intros H x Hx. auto.
  - apply includes_false in E. split; [discriminate|].
    intros H. exfalso. apply E, H. now left.
Qed.

Lemma validateNodesExist_Ok_iff : forall validNodes es mustExist,
  validateNodesExist validNodes es mustExist = Ok tt <->
  (forall x, In x mustExist -> In x validNodes) /\
  (forall e, In e es -> In (from e) validNodes /\ In (to e) validNodes).
Proof.
  intros validNodes es mustExist.
  pose proof (validateNodesExist_cases validNodes es mustExist) as Hc.
  pose proof (undeclared_none validNodes mustExist) as Hm.
  pose proof (undeclared_none validNodes
                (flat_map (fun e => [from e; to e]) es)) as He.
  fold (missingOf validNodes mustExist) in Hm.
  fold (invalidEdgeNodesOf validNodes es) in He.
  assert (Hflat : (forall x, In x (flat_map (fun e => [from e; to e]) es) ->
                             In x validNodes) <->
                  (forall e, In e es ->
                             In (from e) validNodes /\ In (to e) validNodes)).
  { split.
    - intros H e Hin. split; apply H, in_flat_map; exists e; simpl; auto.
    - intros H x Hx. apply in_flat_map in Hx. destruct Hx as (e & Hin & Hx).
      destruct (H e Hin). simpl in Hx. destruct Hx as [<-|[<-|[]]]; auto. }
  rewrite <- Hflat, <- Hm, <- He.
  destruct (missingOf validNodes mustExist).
  - destruct (invalidEdgeNodesOf validNodes es).
    + rewrite Hc. tauto.
    + rewrite Hc. split; [discriminate|intros [_ H]; discriminate].
  - rewrite Hc. split; [discriminate|intros [H _]; discriminate].
Qed.

(** The validation passes exactly when every identifier that must exist and
    both endpoints of every edge are declared. *)
Theorem validateNodesExist_passes_iff : forall validNodes es mustExist,
  validateNodesExist validNodes es mustExist = Ok tt <->
  (forall x, In x mustExist -> In x validNodes) /\
  (forall e, In e es -> In (from e) validNodes /\ In (to e) validNodes).
Proof. exact (@validateNodesExist_Ok_iff). Qed.

(** ** buildGraph *)

Lemma recordedUnder_sym e a b : recordedUnder e a b = recordedUnder e b a.
Proof.
  unfold recordedUnder.
  destruct (String.eqb a (from e)), (String.eqb b (to e)),
           (String.eqb a (to e)), (String.eqb b (from e)); reflexivity.
Qed.

Lemma buildGraph_snoc es e blocked :
  buildGraph (es ++ [e]) blocked =
  (g <- buildGraph es blocked ;; addEdge blocked g e).
Proof.
  unfold buildGraph. rewrite buildGraph_from_app.
  destruct (buildGraph_from (JsMap.empty (JsMap.t number)) es blocked); auto.
  cbn [bind buildGraph_from]. now destruct (addEdge blocked a e).
Qed.

Lemma buildGraph_costOf es blocked : forall g a b,
  buildGraph es blocked = Ok g -> costOf g a b = lastCost blocked es a b.
Proof.
  induction es as [|e es IH] using rev_ind; intros g' a b Hg'.
  - injection Hg' as <-. reflexivity.
  - rewrite buildGraph_snoc in Hg'. apply bind_Ok in Hg'.
    destruct Hg' as (g & Hg & Hg').
    unfold lastCost. rewrite rev_app_distr. cbn [rev app find].
    unfold joins at 1. destruct (touchesBlocked blocked e) eqn:Hb.
    + rewrite addEdge_blocked in Hg' by assumption. injection Hg' as <-.
      cbn [negb andb]. now apply IH.
    + rewrite (addEdge_costOf _ _ _ _ a b Hb Hg'). cbn [negb andb].
      destruct (recordedUnder e a b); [reflexivity|now apply IH].
Qed.

(** The cost the graph records for a pair is the cost of the last edge of
    the input that touches no blocked node and joins the pair, in one of the
    two directions; it records nothing when there is no such edge. *)
Theorem buildGraph_last_joining_edge_wins : forall es blocked,
  exists g, buildGraph es blocked = Ok g /\
            forall a b, costOf g a b = lastCost blocked es a b.
Proof.
  intros es blocked. destruct (buildGraph_total es blocked) as [g Hg].
  exists g. split; auto. intros a b. now apply buildGraph_costOf.
Qed.

Lemma find_same (f h : EdgeDto -> bool) (l : list EdgeDto) :
  (forall e, f e = h e) -> find f l = find h l.
Proof.
  intros H. induction l as [|e l IH]; simpl; auto. now rewrite H, IH.
Qed.

Lemma lastCost_sym blocked es a b :
  lastCost blocked es a b = lastCost blocked es b a.
Proof.
  unfold lastCost. f_equal. apply find_same. intros e. unfold joins.
  now rewrite recordedUnder_sym.
Qed.

Lemma buildGraph_symmetric es blocked g a b :
  buildGraph es blocked = Ok g -> costOf g a b = costOf g b a.
Proof.
  intros Hg. rewrite !(buildGraph_costOf _ _ _ _ _ Hg). apply lastCost_sym.
Qed.

Lemma buildGraph_closed es blocked g :
  buildGraph es blocked = Ok g -> closedGraph g.
Proof.
  intros Hg k m n Hm Hn. destruct (keys_get _ _ Hn) as [w Hw].
  assert (Hc : costOf g k n = Some w) by (unfold costOf; now rewrite Hm).
  rewrite (buildGraph_symmetric _ _ _ _ _ Hg) in Hc.
  eapply costOf_key; eauto.
Qed.

(** The graph is undirected: it records the same cost for a pair in both
    directions, and every neighbour key is itself a key of the graph. *)
Theorem buildGraph_is_undirected : forall es blocked,
  exists g, buildGraph es blocked = Ok g /\
            (forall a b, costOf g a b = costOf g b a) /\
            closedGraph g.
Proof.
  intros es blocked. destruct (buildGraph_total es blocked) as [g Hg].
  exists g. split; auto. split.
  - intros a b. eapply buildGraph_symmetric; eauto.
  - eapply buildGraph_closed; eauto.
Qed.

Lemma lastCost_Some blocked es a b w :
  lastCost blocked es a b = Some w ->
  exists e, In e es /\ joins blocked a b e = true /\ cost e = w.
Proof.
  unfold lastCost. destruct (find (joins blocked a b) (rev es)) as [e|] eqn:E;
    [|discriminate].
  intros [= <-]. apply find_some in E. destruct E as [Hin Hj].
  exists e. rewrite in_rev. auto.
Qed.

Lemma lastCost_joined blocked es a b e :
  In e es -> joins blocked a b e = true ->
  exists w, lastCost blocked es a b = Some w.
Proof.
  intros Hin Hj. unfold lastCost.
  destruct (find (joins blocked a b) (rev es)) as [e'|] eqn:E; [simpl; eauto|].
  apply in_rev in Hin. rewrite (find_none _ _ E _ Hin) in Hj. discriminate.
Qed.

Lemma recordedUnder_true e a b :
  recordedUnder e a b = true <->
  (a = from e /\ b = to e) \/ (a = to e /\ b = from e).
Proof.
  unfold recordedUnder.
  rewrite orb_true_iff, !andb_true_iff, !String.eqb_eq. tauto.
Qed.

Lemma buildGraph_keys : forall es blocked,
  exists g, buildGraph es blocked = Ok g /\
    forall k, In k (JsMap.keys g) <->
              exists e, In e es /\ touchesBlocked blocked e = false /\
                        (k = from e \/ k = to e).
Proof.
  intros es blocked. destruct (buildGraph_total es blocked) as [g Hg].
  exists g. split; auto. intros k.
  destruct (buildGraph_invariant _ _ _ Hg) as [_ Hne]. split.
  - intros Hk. destruct (keys_get _ _ Hk) as [m Hm].
    destruct m as [|[n w] m'] eqn:Em; [destruct (Hne _ _ Hm eq_refl)|].
    assert (Hc : costOf g k n = Some w).
    { unfold costOf. rewrite Hm. simpl. now rewrite String.eqb_refl. }
    rewrite (buildGraph_costOf _ _ _ _ _ Hg) in Hc.
    destruct (lastCost_Some _ _ _ _ _ Hc) as (e & Hin & Hj & _).
    unfold joins in Hj. apply andb_true_iff in Hj. destruct Hj as [Hb Hr].
    apply negb_true_iff in Hb. apply recordedUnder_true in Hr.
    exists e. repeat split; auto. tauto.
  - intros (e & Hin & Hb & Hk).
    assert (Hj : joins blocked (from e) (to e) e = true).
    { unfold joins. rewrite Hb. apply recordedUnder_true. auto. }
    destruct (lastCost_joined _ _ _ _ _ Hin Hj) as [w Hw].
    rewrite <- (buildGraph_costOf _ _ _ _ _ Hg) in Hw.
    destruct Hk as [->| ->].
    + eapply costOf_key; eauto.
    + rewrite (buildGraph_symmetric _ _ _ _ _ Hg) in Hw.
      eapply costOf_key; eauto.
Qed.

(** The keys of the graph are exactly the endpoints of the edges that touch
    no blocked node. *)
Theorem buildGraph_keys_are_unblocked_endpoints : forall es blocked,
  exists g, buildGraph es blocked = Ok g /\
    forall k, In k (JsMap.keys g) <->
              exists e, In e es /\ touchesBlocked blocked e = false /\
                        (k = from e \/ k = to e).
Proof. exact (@buildGraph_keys). Qed.

Lemma addEdge_unblocked_same blocked g e :
  touchesBlocked blocked e = false -> addEdge blocked g e = addEdge [] g e.
Proof. unfold touchesBlocked, addEdge. now intros ->. Qed.

Lemma buildGraph_from_filter blocked es : forall g,
  buildGraph_from g es blocked =
  buildGraph_from g (filter (fun e => negb (touchesBlocked blocked e)) es) [].
Proof.
  induction es as [|e es IH]; intros g; [reflexivity|].
  cbn [buildGraph_from filter]. destruct (touchesBlocked blocked e) eqn:Hb.
  - rewrite addEdge_blocked by assumption. cbn [negb bind]. apply IH.
  - cbn [negb buildGraph_from].
    rewrite addEdge_unblocked_same by assumption.
    destruct (addEdge [] g e); cbn [bind]; auto.
Qed.

(** Blocking nodes builds the graph of the edges that touch none of them:
    the same keys and maps, in the same order. *)
Theorem buildGraph_blocking_drops_edges : forall es blocked,
  buildGraph es blocked =
  buildGraph (filter (fun e => negb (touchesBlocked blocked e)) es) [].
Proof. intros es blocked. apply buildGraph_from_filter. Qed.

(** ** getMinDistanceNode *)

Lemma minFold_first distances (l : list string) :
  let r := fold_left (minStep distances) l (None, Infinity) in
  match fst r with
  | Some c =>
      snd r = getNum distances c /\
      num_lt (getNum distances c) Infinity = true /\
      exists pre post,
        l = pre ++ c :: post /\
        (forall u, In u pre -> isNaN (getNum distances u) = false ->
                   num_lt (getNum distances c) (getNum distances u) = true) /\
        (forall u, In u post ->
                   num_lt (getNum distances u) (getNum distances c) = false)
  | None =>
      snd r = Infinity /\
      forall u, In u l -> num_lt (getNum distances u) Infinity = false
  end.
Proof.
  induction l as [|x l IH] using rev_ind; [simpl; split; auto; intros u []|].
  rewrite fold_left_app. cbn [fold_left].
  set (r := fold_left (minStep distances) l (None, Infinity)) in *.
  cbv zeta in IH. unfold minStep.
  destruct (num_lt (getNum distances x) (snd r)) eqn:Elt; cbn [fst snd].
  - split; auto. destruct (fst r) as [c|].
    + destruct IH as (Hr & Hc & pre & post & -> & Hpre & Hpost).
      rewrite Hr in Elt. split; [eapply num_lt_trans; eauto|].
      exists (pre ++ c :: post), []. split; [reflexivity|].
      split; [|intros u []].
      intros u Hu Hnan. apply in_app_iff in Hu. destruct Hu as [Hu|[<-|Hu]].
      * eapply num_lt_trans; eauto.
      * assumption.
      * apply num_lt_le_trans with (getNum distances c); auto.
        apply num_le_total; auto. now apply (num_lt_isNaN _ _ Hc).
    + destruct IH as [Hr Hnone]. rewrite Hr in Elt. split; auto.
      exists l, []. split; [reflexivity|]. split; [|intros u []].
      intros u Hu Hnan. apply num_lt_le_trans with Infinity; auto.
      apply num_le_Infinity; auto.
  - destruct (fst r) as [c|].
    + destruct IH as (Hr & Hc & pre & post & -> & Hpre & Hpost).
      split; auto. split; auto. exists pre, (post ++ [x]).
      split; [now rewrite <- app_assoc|]. split; auto.
      intros u Hu. apply in_app_iff in Hu.
      destruct Hu as [Hu|[<-|[]]]; auto. now rewrite <- Hr.
    + destruct IH as [Hr Hnone]. split; auto. intros u Hu.
      apply in_app_iff in Hu. destruct Hu as [Hu|[<-|[]]]; auto.
      now rewrite <- Hr.
Qed.

(** [getMinDistanceNode] returns the first node, in the iteration order of
    [unvisited], whose distance is below [Infinity] and minimal: it is
    strictly below the distance of every earlier node and at most the
    distance of every later node, nodes whose distance is [NaN] apart; it
    returns [null] exactly when no unvisited node has a distance below
    [Infinity]. *)
Theorem getMinDistanceNode_first_minimum : forall unvisited distances,
  match getMinDistanceNode unvisited distances with
  | Some c =>
      exists pre post,
        unvisited = pre ++ c :: post /\
        num_lt (getNum distances c) Infinity = true /\
        (forall u, In u pre -> isNaN (getNum distances u) = false ->
                   num_lt (getNum distances c) (getNum distances u) = true) /\
        (forall u, In u post -> isNaN (getNum distances u) = false ->
                   num_le (getNum distances c) (getNum distances u) = true)
  | None =>
      forall u, In u unvisited ->
                num_lt (getNum distances u) Infinity = false
  end.
Proof.
  intros unvisited distances. unfold getMinDistanceNode.
  pose proof (minFold_first distances unvisited) as H. cbv zeta in H.
  destruct (fst (fold_left (minStep distances) unvisited (None, Infinity)))
    as [c|]; [|apply H].
  destruct H as (_ & Hc & pre & post & Hl & Hpre & Hpost).
  exists pre, post. repeat split; auto.
  intros u Hu Hnan. apply num_le_total; auto.
  now apply (num_lt_isNaN _ _ Hc).
Qed.

(** ** processNeighbors *)

Lemma relaxFold_changes current unvisited (m : JsMap.t number) :
  forall D P D' P',
    fold_left (relax current unvisited) m (D, P) = (D', P') ->
    forall k,
      (getNum D' k = getNum D k /\ JsMap.get P' k = JsMap.get P k) \/
      (In k unvisited /\ (exists w, In (k, w) m) /\
       num_lt (getNum D' k) (getNum D k) = true /\
       JsMap.get P' k = Some (Some current)).
Proof.
  induction m as [|[n w] m IH]; intros D P D' P'; cbn [fold_left].
  - intros [= <- <-] k. auto.
  - destruct (relax_cases current unvisited D P n w) as [[E _]|(Hn & Hlt & E)];
      rewrite E; clear E; intros Hfold k.
    + destruct (IH _ _ _ _ Hfold k) as [?|(Hk & [w' Hw'] & ?)]; auto.
      right. split; auto. split; [exists w'; now right|auto].
    + destruct (IH _ _ _ _ Hfold k) as [[Hd Hp]|(Hk & [w' Hw'] & Hlt' & Hp)].
      * rewrite getNum_set in Hd. rewrite get_set in Hp.
        destruct (String.eqb n k) eqn:Ek; auto.
        apply String.eqb_eq in Ek. subst k. right. split; auto.
        split; [exists w; now left|]. rewrite Hd. auto.
      * right. split; auto. split; [exists w'; now right|]. split; auto.
        rewrite getNum_set in Hlt'. destruct (String.eqb n k) eqn:Ek; auto.
        apply String.eqb_eq in Ek. subst k. eapply num_lt_trans; eauto.
Qed.

(** [processNeighbors] changes the entries of unvisited neighbours of
    [current] only: such a neighbour gets a strictly smaller distance and
    [current] as predecessor; every other key keeps its distance and its
    predecessor. *)
Theorem processNeighbors_only_lowers_unvisited_neighbors :
  forall current graph unvisited D P k,
    let r := processNeighbors current graph unvisited D P in
    (getNum (fst r) k = getNum D k /\ JsMap.get (snd r) k = JsMap.get P k) \/
    (In k unvisited /\
     (exists m w, JsMap.get graph current = Some m /\ In (k, w) m) /\
     num_lt (getNum (fst r) k) (getNum D k) = true /\
     JsMap.get (snd r) k = Some (Some current)).
Proof.
  intros current graph unvisited D P k.
  remember (processNeighbors current graph unvisited D P) as r eqn:E.
  cbv zeta. destruct r as [D' P']. symmetry in E.
  unfold processNeighbors in E. cbn [fst snd].
  destruct (relaxFold_changes _ _ _ _ _ _ _ E k) as [?|(Hk & [w Hw] & ?)]; auto.
  right. split; auto. split; auto.
  destruct (JsMap.get graph current) as [m|]; [eauto|destruct Hw].
Qed.

(** ** reconstructPath *)

Lemma walkBack_chain start P : forall fuel c acc route,
  walkBack fuel start P (Some c) acc = Some (Some start, route) ->
  linked P (c :: acc) ->
  (exists pre, route = pre ++ acc /\ last (start :: pre) start = c) /\
  linked P (start :: route).
Proof.
  induction fuel as [|fuel IH]; intros c acc route; [discriminate|].
  rewrite walkBack_S. destruct (truthy c && negb (String.eqb c start)).
  - destruct (previousOf P c) as [q|] eqn:Eq;
      [|destruct fuel; discriminate].
    intros Hw Hl.
    destruct (IH _ _ _ Hw) as [(pre & -> & Hlast) Hlinked].
    { unfold linked. cbn [consecutivePairs]. constructor; auto. }
    split; auto. exists (pre ++ [c]). split; [now rewrite <- app_assoc|].
    change (start :: pre ++ [c]) with ((start :: pre) ++ [c]).
    apply last_last.
  - intros [= -> <-] Hl. split; auto. exists []. auto.
Qed.

Lemma reconstructPath_chain :
  forall fuel start end_ previous p,
    reconstructPath fuel start end_ previous = Ok (Some p) ->
    (exists t, p = start :: t) /\ last p start = end_ /\ linked previous p.
Proof.
  intros fuel start end_ P p. unfold reconstructPath.
  destruct (walkBack fuel start P (Some end_) []) as [[cur route]|] eqn:Ew;
    [|discriminate].
  destruct (truthy_opt cur) eqn:Et; cbn [negb]; [|discriminate].
  intros [= <-].
  destruct (walkBack_result (fun _ => True) start P
              (fun _ _ _ => I) _ _ _ _ _ Ew (fun _ _ => I) (fun _ _ => I))
    as [_ Hcur].
  rewrite (Hcur Et) in Ew.
  destruct (walkBack_chain start P _ _ _ _ Ew) as [(pre & -> & Hlast) Hl].
  { unfold linked. simpl. constructor. }
  rewrite app_nil_r in *. split; eauto.
Qed.

(** A path returned by [reconstructPath] starts with [start], ends with
    [end], and each of its nodes is the recorded predecessor of the next. *)
Theorem reconstructPath_follows_predecessors :
  forall fuel start end_ previous p,
    reconstructPath fuel start end_ previous = Ok (Some p) ->
    (exists t, p = start :: t) /\ last p start = end_ /\ linked previous p.
Proof. exact (@reconstructPath_chain). Qed.

Lemma reconstructPath_follows_predecessors_witness :
  (exists t, ["A"; "B"; "C"] = "A" :: t) /\
  last ["A"; "B"; "C"] "A" = "C" /\
  linked chainPrevious ["A"; "B"; "C"].
Proof.
  apply (reconstructPath_follows_predecessors 4 "A" "C" chainPrevious).
  reflexivity.
Defined.

Lemma walkBack_cycle (onCycle : string -> Prop) start P :
  (forall n, onCycle n ->
     n <> "" /\ n <> start /\
     exists q, JsMap.get P n = Some (Some q) /\ onCycle q) ->
  forall fuel c acc, onCycle c -> walkBack fuel start P (Some c) acc = None.
Proof.
  intros Hcycle. induction fuel as [|fuel IH]; intros c acc Hc; [reflexivity|].
  destruct (Hcycle c Hc) as (He & Hs & q & Hq & Hqc).
  rewrite walkBack_S, (truthy_nonempty c He).
  apply String.eqb_neq in Hs. rewrite Hs. cbn [negb andb].
  unfold previousOf. rewrite Hq.
  destruct (Hcycle q Hqc) as (Hqe & _).
  rewrite (truthy_nonempty q Hqe). now apply IH.
Qed.

(** On predecessors that lead from [end] around a cycle of non-empty
    identifiers that avoids [start], the loop of [reconstructPath] never
    ends: no budget suffices. *)
Theorem reconstructPath_never_returns_on_a_cycle :
  forall (onCycle : string -> Prop) start end_ previous,
    (forall n, onCycle n ->
       n <> "" /\ n <> start /\
       exists q, JsMap.get previous n = Some (Some q) /\ onCycle q) ->
    onCycle end_ ->
    forall fuel, reconstructPath fuel start end_ previous = OutOfFuel.
Proof.
  intros onCycle start end_ P Hcycle Hend fuel. unfold reconstructPath.
  now rewrite (walkBack_cycle onCycle start P Hcycle fuel end_ [] Hend).
Qed.

Lemma reconstructPath_never_returns_on_a_cycle_witness :
  reconstructPath 1000 "A" "B" cyclicPrevious = OutOfFuel.
Proof.
  apply (reconstructPath_never_returns_on_a_cycle
           (fun n => n = "B" \/ n = "C") "A" "B" cyclicPrevious).
  - intros n [->| ->].
    + split; [discriminate|]. split; [discriminate|].
      exists "C". split; [reflexivity|now right].
    + split; [discriminate|]. split; [discriminate|].
      exists "B". split; [reflexivity|now left].
  - now left.
Defined.

(** ** Searches that start or end outside the graph *)

Lemma dijkstra_off_graph : forall graph a b,
  a <> b ->
  ~ In a (JsMap.keys graph) \/ ~ In b (JsMap.keys graph) ->
  dijkstra graph a b = Ok None.
Proof.
  intros graph a b Hab Hout.
  destruct (dijkstra_total graph a b) as [[s|] Hs]; auto.
  exfalso. destruct (dijkstra_nodes _ _ _ _ Hs) as [[Hba _]|[Hb Hkeys]].
  - now subst.
  - destruct (dijkstra_head _ _ _ _ Hs) as [t Ht].
    destruct Hout as [Ha|Hb']; auto.
    apply Ha, Hkeys. rewrite Ht. now left.
Qed.

(** When start and end differ and one of them is no key of the graph, the
    search answers [null]. *)
Theorem dijkstra_null_when_an_endpoint_is_no_key : forall graph a b,
  a <> b ->
  ~ In a (JsMap.keys graph) \/ ~ In b (JsMap.keys graph) ->
  dijkstra graph a b = Ok None.
Proof. exact (@dijkstra_off_graph). Qed.

Lemma dijkstra_null_when_an_endpoint_is_no_key_witness :
  dijkstra triangleGraph "A" "Z" = Ok None.
Proof.
  apply (dijkstra_null_when_an_endpoint_is_no_key triangleGraph "A" "Z").
  - discriminate.
  - right. simpl. intros [H|[H|[H|[]]]]; discriminate.
Defined.

(** ** findPathWithRequiredStops, one stop at a time *)

(** Whether the loop fails depends on the sequence only. *)
Lemma stopsLoop_none graph sequence : forall i tp tc j tp' tc',
  stopsLoop graph i sequence tp tc = Ok None ->
  stopsLoop graph j sequence tp' tc' = Ok None.
Proof.
  induction sequence as [|a rest IH]; intros i tp tc j tp' tc';
    [discriminate|].
  destruct rest as [|b rest]; [discriminate|].
  rewrite !stopsLoop_cons.
  destruct (dijkstra graph a b) as [[s|]| | |]; cbn [bind]; auto.
  apply IH.
Qed.

Lemma findPathWithRequiredStops_nil graph a b :
  findPathWithRequiredStops graph a b [] =
  (s <- dijkstra graph a b ;;
   Ok (option_map
         (fun s => mkSegment (seg_path s) (num_add 0%float (seg_cost s))) s)).
Proof.
  unfold findPathWithRequiredStops. cbn [app]. rewrite stopsLoop_cons.
  destruct (dijkstra graph a b) as [[s|]| | |]; reflexivity.
Qed.

Lemma findPathWithRequiredStops_cons graph a b s stops :
  pathOf (findPathWithRequiredStops graph a b (s :: stops)) =
  (first <- dijkstra graph a s ;;
   match first with
   | None => Ok None
   | Some s1 =>
       rest <- pathOf (findPathWithRequiredStops graph s b stops) ;;
       Ok (option_map (fun p2 => seg_path s1 ++ tl p2) rest)
   end).
Proof.
  unfold findPathWithRequiredStops, pathOf.
  change (a :: (s :: stops) ++ [b]) with (a :: s :: stops ++ [b]).
  rewrite stopsLoop_cons.
  destruct (dijkstra graph a s) as [[s1|]| | |]; cbn [bind]; auto.
  cbn [Nat.eqb].
  destruct (stopsLoop_total graph (s :: stops ++ [b]) 0 [] 0%float)
    as [[s2|] H2]; rewrite H2; cbn [bind option_map].
  - destruct (stopsLoop_segments_exist _ _ _ _ _ _ H2) as [segments Hsegs].
    rewrite (stopsLoop_segments graph _ _ Hsegs) in H2
      by (simpl; rewrite length_app; simpl; lia).
    injection H2 as <-. cbn [seg_path].
    rewrite (stopsLoop_later graph _ segments 0 _ _ Hsegs).
    cbn [bind option_map seg_path]. do 3 f_equal.
    destruct segments as [|s0 segments].
    + destruct stops; inversion Hsegs.
    + symmetry. apply stitchedPath_cons.
      assert (H0 : searchReturns graph (s, hd b stops) s0).
      { destruct stops; inversion Hsegs; subst; assumption. }
      unfold searchReturns in H0. cbn [fst snd] in H0.
      destruct (dijkstra_head _ _ _ _ H0) as [t ->]. discriminate.
  - now rewrite (stopsLoop_none graph _ _ _ _ 1 (seg_path s1)
                   (num_add 0%float (seg_cost s1)) H2).
Qed.

(** [findPathWithRequiredStops] with no stop is [dijkstra], the cost added
    to 0.  With a first stop, its nodes are those of the segment to that stop
    followed by the nodes of the route from it through the other stops, the
    stop not repeated, and it fails when one of the two fails.  The costs do
    not split in this way: the total is added up segment by segment from the
    start, and double addition is not associative. *)
Theorem findPathWithRequiredStops_splits_at_first_stop :
  (forall graph a b,
      findPathWithRequiredStops graph a b [] =
      (s <- dijkstra graph a b ;;
       Ok (option_map
             (fun s => mkSegment (seg_path s) (num_add 0%float (seg_cost s)))
             s))) /\
  (forall graph a b s stops,
      pathOf (findPathWithRequiredStops graph a b (s :: stops)) =
      (first <- dijkstra graph a s ;;
       match first with
       | None => Ok None
       | Some s1 =>
           rest <- pathOf (findPathWithRequiredStops graph s b stops) ;;
           Ok (option_map (fun p2 => seg_path s1 ++ tl p2) rest)
       end)) /\
  (exists graph a b s stops s1 r2 r,
      dijkstra graph a s = Ok (Some s1) /\
      findPathWithRequiredStops graph s b stops = Ok (Some r2) /\
      findPathWithRequiredStops graph a b (s :: stops) = Ok (Some r) /\
      seg_cost r <> num_add (seg_cost s1) (seg_cost r2)).
Proof.
  split; [exact findPathWithRequiredStops_nil|].
  split; [exact findPathWithRequiredStops_cons|].
  exists longChainGraph, "A", "D", "B", ["C"].
  do 3 eexists. split; [reflexivity|]. split; [reflexivity|].
  split; [reflexivity|]. cbn [seg_cost]. intros H.
  apply (f_equal (fun x => num_lt x 9007199254740994%float)) in H.
  vm_compute in H. discriminate H.
Qed.

(** ** Blocked stops *)

Lemma last_In (p : list string) a t : p = a :: t -> In (last p a) p.
Proof.
  intros Hp. assert (Hne : p <> []) by (subst; discriminate).
  rewrite (app_removelast_last a Hne) at 2.
  apply in_app_iff. right. now left.
Qed.

Lemma dijkstra_last graph a b s :
  dijkstra graph a b = Ok (Some s) -> In b (seg_path s).
Proof.
  intros H. unfold dijkstra in H.
  apply bind_Ok in H. destruct H as (st & _ & H).
  apply bind_Ok in H. destruct H as ([p|] & Hp & H); [|discriminate].
  injection H as <-. cbn [seg_path].
  destruct (reconstructPath_chain _ _ _ _ _ Hp) as ((t & Ht) & <- & _).
  eapply last_In; eauto.
Qed.

(** The route returned for a sequence of stops starts at the start and
    passes every stop and the end. *)
Lemma findPathWithRequiredStops_visits graph : forall stops a b r,
  findPathWithRequiredStops graph a b stops = Ok (Some r) ->
  (exists t, seg_path r = a :: t) /\
  forall x, In x (stops ++ [b]) -> In x (seg_path r).
Proof.
  induction stops as [|s stops IH]; intros a b r.
  - rewrite findPathWithRequiredStops_nil. intros H.
    apply bind_Ok in H. destruct H as ([s0|] & H0 & H); [|discriminate].
    injection H as <-. cbn [seg_path].
    split; [eapply dijkstra_head; eauto|].
    intros x [<-|[]]. eapply dijkstra_last; eauto.
  - intros H.
    assert (Hp : pathOf (findPathWithRequiredStops graph a b (s :: stops)) =
                 Ok (Some (seg_path r))) by now rewrite H.
    rewrite findPathWithRequiredStops_cons in Hp.
    apply bind_Ok in Hp. destruct Hp as ([s1|] & H1 & Hp); [|discriminate].
    apply bind_Ok in Hp. destruct Hp as ([p2|] & H2 & Hp); [|discriminate].
    injection Hp as Hp. rewrite <- Hp.
    apply bind_Ok in H2. destruct H2 as ([s2|] & H2 & [= <-]).
    destruct (dijkstra_head _ _ _ _ H1) as [t1 Ht1].
    destruct (IH _ _ _ H2) as [[t2 Ht2] Hall].
    split; [rewrite Ht1; cbn [app]; eauto|].
    intros x Hx. apply in_app_iff.
    assert (Hx2 : In x (seg_path s2)).
    { destruct Hx as [<-|Hx]; [rewrite Ht2; now left|auto]. }
    rewrite Ht2 in Hx2 |- *. destruct Hx2 as [<-|Hx2]; [|now right].
    left. eapply dijkstra_last; eauto.
Qed.

(** A validated request whose end or one of whose required stops is blocked
    and is not the start is answered with [NoPathFound]. *)
Theorem findOptimalPath_rejects_a_blocked_stop : forall request b,
  validateNodesExist (nodes request) (edges request)
    (requiredStops (constraints request) ++ [end_ request]) = Ok tt ->
  In b (blockedNodes (constraints request)) ->
  In b (requiredStops (constraints request) ++ [end_ request]) ->
  b <> start request ->
  findOptimalPath request =
  Throw (NoPathFound (requiredStops (constraints request))).
Proof.
  intros request b Hv Hblocked Hstop Hb.
  destruct (findOptimalPath_validated request Hv)
    as (g & [s|] & Hg & Hr & Hres); auto.
  exfalso.
  destruct (in_dec string_dec (start request)
                   (blockedNodes (constraints request))) as [Hs|Hs].
  - destruct (blocked_start_route _ _ Hres Hs) as (_ & Hend & Hstops).
    apply in_app_iff in Hstop. destruct Hstop as [Hstop|[<-|[]]]; auto.
  - apply (unblocked_start_route _ _ Hres Hs b Hblocked). cbn [path].
    now apply (proj2 (findPathWithRequiredStops_visits g _ _ _ _ Hr)).
Qed.

Lemma findOptimalPath_rejects_a_blocked_stop_witness :
  findOptimalPath blockedStopRequest = Throw (NoPathFound ["B"]).
Proof.
  apply (findOptimalPath_rejects_a_blocked_stop blockedStopRequest "B").
  - reflexivity.
  - now left.
  - now left.
  - discriminate.
Defined.

(** * The draft of the service against the final service *)

Lemma lift_get P k :
  JsMap.get (lift P) k = option_map Some (JsMap.get P k).
Proof.
  induction P as [|[k' v] r IH]; simpl; auto.
  destruct (String.eqb k' k); auto.
Qed.

Lemma lift_set P k v : lift (JsMap.set P k v) = JsMap.set (lift P) k (Some v).
Proof.
  induction P as [|[k' v'] r IH]; simpl; auto.
  destruct (String.eqb k' k); simpl; auto. now rewrite IH.
Qed.

(** ** findNextNode *)

Lemma nextFold_minFold D (l : list string) : forall o m,
  fold_left (Draft.nextStep D) l
            (match o with Some c => c | None => "" end, m) =
  (match fst (fold_left (minStep D) l (o, m)) with
   | Some c => c
   | None => ""
   end,
   snd (fold_left (minStep D) l (o, m))).
Proof.
  induction l as [|x l IH]; intros o m; cbn [fold_left]; [reflexivity|].
  unfold Draft.nextStep at 2, minStep at 2 4. cbn [snd].
  destruct (num_lt (getNum D x) m).
  - apply (IH (Some x)).
  - apply IH.
Qed.

Lemma findNextNode_sameNode u D :
  Draft.findNextNode u D =
  match getMinDistanceNode u D with Some c => c | None => "" end.
Proof.
  unfold Draft.findNextNode, getMinDistanceNode.
  now rewrite (nextFold_minFold D u None Infinity).
Qed.

(** [findNextNode] names the node [getMinDistanceNode] returns, and the
    empty string where that returns [null]. *)
Theorem findNextNode_is_getMinDistanceNode_or_empty :
  forall unvisited distances,
    Draft.findNextNode unvisited distances =
    match getMinDistanceNode unvisited distances with
    | Some c => c
    | None => ""
    end.
Proof. exact findNextNode_sameNode. Qed.

(** ** updateNeighbors and the loop of a segment *)

Lemma has_add (s : JsSet.t) c n :
  JsSet.has (JsSet.add s c) n = JsSet.has s n || String.eqb n c.
Proof.
  destruct (JsSet.has (JsSet.add s c) n) eqn:E; symmetry.
  - apply set_has_true, In_add in E. apply orb_true_iff.
    destruct E as [E| ->]; [left; now apply set_has_true|right].
    apply String.eqb_refl.
  - apply orb_false_iff. apply set_has_false in E. split.
    + apply set_has_false. intros H. apply E, In_add. now left.
    + apply String.eqb_neq. intros ->. apply E, In_add. now right.
Qed.

Lemma has_delete (s : JsSet.t) c n :
  JsSet.has (JsSet.delete s c) n = JsSet.has s n && negb (String.eqb n c).
Proof.
  destruct (JsSet.has (JsSet.delete s c) n) eqn:E; symmetry.
  - apply set_has_true, In_delete in E. destruct E as [E Hne].
    apply andb_true_iff. split; [now apply set_has_true|].
    apply negb_true_iff. now apply String.eqb_neq.
  - apply set_has_false in E. apply andb_false_iff.
    destruct (JsSet.has s n) eqn:Es; auto. right.
    apply negb_false_iff, String.eqb_eq.
    destruct (string_dec n c); auto.
    exfalso. apply E, In_delete. split; auto. now apply set_has_true.
Qed.

Lemma updateFold_relaxFold current vis unv (m : JsMap.t number) :
  (forall n w, In (n, w) m -> JsSet.has vis n = negb (JsSet.has unv n)) ->
  forall D P,
    fold_left (relax current unv) m (D, lift P) =
    (fst (fold_left (Draft.update current vis) m (D, P)),
     lift (snd (fold_left (Draft.update current vis) m (D, P)))).
Proof.
  induction m as [|[n w] m IH]; intros Hm D P; cbn [fold_left]; auto.
  assert (Hm' : forall n0 w0, In (n0, w0) m ->
                  JsSet.has vis n0 = negb (JsSet.has unv n0))
    by (intros n0 w0 H; apply (Hm n0 w0); now right).
  unfold relax at 2, Draft.update at 2 4.
  rewrite (Hm n w) by now left.
  destruct (negb (JsSet.has unv n)); [now apply IH|].
  destruct (num_lt _ _); [|now apply IH].
  rewrite <- lift_set. now apply IH.
Qed.

Lemma sameSearch_step graph ds fs current D' P' :
  closedGraph graph -> sameSearch graph ds fs ->
  processNeighbors current graph (JsSet.delete (unvisited fs) current)
                   (distances fs) (previous fs) = (D', P') ->
  sameSearch graph (Draft.updateNeighbors current graph ds)
             (mkSearchState (JsSet.delete (unvisited fs) current) D' P').
Proof.
  intros Hclosed (Hu & Hd & Hp & Hv) Hproc.
  unfold processNeighbors in Hproc. unfold Draft.updateNeighbors.
  set (m := match JsMap.get graph current with
            | Some m => m
            | None => JsMap.empty number
            end) in *.
  assert (Hvis : forall n, In n (JsMap.keys graph) ->
            JsSet.has (JsSet.add (Draft.visited ds) current) n =
            negb (JsSet.has (JsSet.delete (Draft.unvisited ds) current) n)).
  { intros n Hn. rewrite has_add, has_delete, (Hv n Hn).
    destruct (JsSet.has (Draft.unvisited ds) n), (String.eqb n current);
      reflexivity. }
  assert (Hm : forall n w, In (n, w) m ->
            JsSet.has (JsSet.add (Draft.visited ds) current) n =
            negb (JsSet.has (JsSet.delete (unvisited fs) current) n)).
  { intros n w Hin. rewrite <- Hu. apply Hvis. subst m.
    destruct (JsMap.get graph current) as [m0|] eqn:Em; [|destruct Hin].
    apply (Hclosed _ _ _ Em). apply (in_map fst) in Hin. exact Hin. }
  rewrite <- Hp, <- Hd in Hproc.
  rewrite (updateFold_relaxFold _ _ _ _ Hm) in Hproc.
  destruct (fold_left _ m (Draft.distances ds, Draft.previous ds))
    as [D1 P1].
  cbn [fst snd] in Hproc. injection Hproc as <- <-.
  split; [|split; [|split]]; cbn; auto. now rewrite Hu.
Qed.

Lemma searchLoop_sameSearch graph end_ :
  closedGraph graph ->
  forall fuel ds fs fs',
    sameSearch graph ds fs ->
    searchLoop fuel graph end_ fs = Ok fs' ->
    exists ds', Draft.searchLoop fuel graph end_ ds = Ok ds' /\
                sameSearch graph ds' fs'.
Proof.
  intros Hclosed. induction fuel as [|fuel IH]; intros ds fs fs' Hsim;
    [discriminate|].
  pose proof Hsim as (Hu & Hd & _).
  cbn [searchLoop Draft.searchLoop].
  rewrite findNextNode_sameNode, Hu, Hd.
  destruct (Nat.ltb 0 (JsSet.size (unvisited fs)));
    [|intros [= <-]; eauto].
  destruct (getMinDistanceNode (unvisited fs) (distances fs)) as [c|];
    [|intros [= <-]; exists ds; auto].
  destruct (negb (truthy c) || String.eqb c end_); [intros [= <-]; eauto|].
  destruct (processNeighbors c graph (JsSet.delete (unvisited fs) c)
                             (distances fs) (previous fs))
    as [D' P'] eqn:Hproc.
  apply IH. eapply sameSearch_step; eauto.
Qed.

Lemma of_list_NoDup (l : list string) : NoDup l -> JsSet.of_list l = l.
Proof.
  unfold JsSet.of_list.
  assert (H : forall acc, NoDup (acc ++ l) ->
                          fold_left JsSet.add l acc = acc ++ l).
  { induction l as [|x l IH]; intros acc Hnd; cbn [fold_left].
    - now rewrite app_nil_r.
    - assert (Hx : JsSet.has acc x = false).
      { apply set_has_false. intros Hin.
        apply NoDup_remove_2 in Hnd. apply Hnd, in_app_iff. now left. }
      unfold JsSet.add at 2. rewrite Hx.
      change (acc ++ x :: l) with (acc ++ [x] ++ l) in *.
      rewrite app_assoc in *. now apply IH. }
  intros Hnd. now apply (H []).
Qed.

Lemma sameSearch_initial graph start :
  NoDup (JsMap.keys graph) ->
  sameSearch graph
    (Draft.mkState [] (JsSet.of_list (JsMap.keys graph))
                   (fst (Draft.initializeDijkstra graph start))
                   (snd (Draft.initializeDijkstra graph start)))
    (initialState graph start).
Proof.
  intros Hnd. unfold sameSearch, initialState, Draft.initializeDijkstra.
  cbn. rewrite (of_list_NoDup _ Hnd). repeat split; auto.
  intros n Hn. symmetry. apply negb_false_iff. now apply set_has_true.
Qed.

Lemma searchSegment_sameSearch graph a b fs :
  closedGraph graph -> NoDup (JsMap.keys graph) ->
  searchLoop (S (JsSet.size (unvisited (initialState graph a)))) graph b
             (initialState graph a) = Ok fs ->
  exists ds, Draft.searchSegment graph a b = Ok ds /\ sameSearch graph ds fs.
Proof.
  intros Hclosed Hnd Hloop. unfold Draft.searchSegment.
  pose proof (sameSearch_initial graph a Hnd) as Hsim.
  destruct (Draft.initializeDijkstra graph a) as [D P]. cbn [fst snd] in Hsim.
  exact (searchLoop_sameSearch graph b Hclosed _ _ _ _ Hsim Hloop).
Qed.

(** ** reconstructSegmentPath *)

Lemma walk_S fuel start P c acc :
  Draft.walk (S fuel) start P c acc =
  if String.eqb c start then Ok (Some (start :: acc))
  else match JsMap.get P c with
       | Some p =>
           if truthy p then Draft.walk fuel start P p (c :: acc) else Ok None
       | None => Ok None
       end.
Proof. reflexivity. Qed.

(** From a non-empty identifier on, the two loops that walk back along the
    predecessors do the same. *)
Lemma walk_walkBack start P : forall fuel c acc cur path,
  truthy c = true ->
  walkBack fuel start (lift P) (Some c) acc = Some (cur, path) ->
  Draft.walk fuel start P c acc =
  if negb (truthy_opt cur) then Ok None else Ok (Some (start :: path)).
Proof.
  induction fuel as [|fuel IH]; intros c acc cur path Hc; [discriminate|].
  rewrite walkBack_S, walk_S, Hc. cbn [andb].
  destruct (String.eqb c start) eqn:Ecs; cbn [negb].
  - intros [= <- <-]. cbn [truthy_opt]. rewrite Hc. reflexivity.
  - unfold previousOf. rewrite lift_get.
    destruct (JsMap.get P c) as [q|]; cbn [option_map].
    + destruct (truthy q) eqn:Eq; [now apply IH|].
      destruct fuel; [discriminate|]. now intros [= <- <-].
    + destruct fuel; [discriminate|]. now intros [= <- <-].
Qed.

Lemma reconstructSegmentPath_reconstructPath fuel start end_ P r :
  end_ <> "" ->
  reconstructPath fuel start end_ (lift P) = Ok r ->
  Draft.reconstructSegmentPath fuel start end_ P = Ok r.
Proof.
  intros Hend. unfold reconstructPath, Draft.reconstructSegmentPath.
  destruct (walkBack fuel start (lift P) (Some end_) [])
    as [[cur path]|] eqn:Ew; [|discriminate].
  rewrite (walk_walkBack start P _ _ _ _ _ (truthy_nonempty _ Hend) Ew).
  destruct (negb (truthy_opt cur)); auto.
Qed.

(** ** The draft's search of one segment *)

Lemma segment_sameSearch graph a b r :
  closedGraph graph -> NoDup (JsMap.keys graph) -> b <> "" ->
  dijkstra graph a b = Ok r ->
  exists ds,
    Draft.searchSegment graph a b = Ok ds /\
    Draft.reconstructSegmentPath
      (2 + JsSet.size (JsSet.of_list (JsMap.keys graph))) a b
      (Draft.previous ds) = Ok (option_map seg_path r) /\
    forall s, r = Some s -> seg_cost s = getNum (Draft.distances ds) b.
Proof.
  intros Hclosed Hnd Hb H. unfold dijkstra in H.
  apply bind_Ok in H. destruct H as (fs & Hloop & H).
  apply bind_Ok in H. destruct H as (p & Hp & H). injection H as <-.
  destruct (searchSegment_sameSearch _ _ _ _ Hclosed Hnd Hloop)
    as (ds & Hds & Hu & Hd & Hprev & _).
  exists ds. split; auto. split.
  - rewrite <- Hprev in Hp.
    change (unvisited (initialState graph a))
      with (JsSet.of_list (JsMap.keys graph)) in Hp.
    rewrite (reconstructSegmentPath_reconstructPath _ _ _ _ _ Hb Hp).
    now destruct p.
  - intros s Hs. destruct p; [|discriminate]. injection Hs as <-.
    now rewrite Hd.
Qed.

Lemma segmentsLoop_stopsLoop graph :
  closedGraph graph -> NoDup (JsMap.keys graph) ->
  forall sequence i totalPath totalCost,
    (forall x, In x (tl sequence) -> x <> "") ->
    Draft.segmentsLoop graph i sequence totalPath totalCost =
    stopsLoop graph i sequence totalPath totalCost.
Proof.
  intros Hclosed Hnd. induction sequence as [|a rest IH];
    intros i tp tc Hne; [reflexivity|].
  destruct rest as [|b rest]; [reflexivity|].
  rewrite stopsLoop_cons.
  change (Draft.segmentsLoop graph i (a :: b :: rest) tp tc)
    with (st <- Draft.searchSegment graph a b ;;
          segmentPath <-
            Draft.reconstructSegmentPath
              (2 + JsSet.size (JsSet.of_list (JsMap.keys graph))) a b
              (Draft.previous st) ;;
          match segmentPath with
          | None => Ok None
          | Some p =>
              Draft.segmentsLoop graph (S i) (b :: rest)
                (if Nat.eqb i 0 then p else tp ++ tl p)
                (num_add tc (getNum (Draft.distances st) b))
          end).
  destruct (dijkstra_total graph a b) as [r Hr].
  destruct (segment_sameSearch graph a b r Hclosed Hnd)
    as (ds & Hds & Hrec & Hc); auto.
  { apply Hne. now left. }
  rewrite Hds. cbn [bind]. rewrite Hrec, Hr. cbn [bind].
  destruct r as [s|]; cbn [option_map]; auto.
  rewrite <- (Hc s eq_refl). apply IH.
  intros x Hx. apply Hne. now right.
Qed.

Lemma draft_dijkstra graph a b stops :
  closedGraph graph -> NoDup (JsMap.keys graph) ->
  (forall x, In x (stops ++ [b]) -> x <> "") ->
  Draft.dijkstra graph a b stops = findPathWithRequiredStops graph a b stops.
Proof.
  intros Hclosed Hnd Hne. now apply segmentsLoop_stopsLoop.
Qed.

(** On a graph whose adjacency maps name only keys of the graph, the draft's
    search through the required stops returns what
    [findPathWithRequiredStops] returns, when the end and the stops are
    non-empty identifiers. *)
Theorem draft_search_agrees_with_final_search : forall graph a b stops,
  closedGraph graph -> NoDup (JsMap.keys graph) ->
  (forall x, In x (stops ++ [b]) -> x <> "") ->
  Draft.dijkstra graph a b stops = findPathWithRequiredStops graph a b stops.
Proof. exact draft_dijkstra. Qed.

Lemma draft_search_agrees_with_final_search_witness :
  Draft.dijkstra triangleGraph "A" "C" ["B"] =
  findPathWithRequiredStops triangleGraph "A" "C" ["B"].
Proof.
  apply (draft_search_agrees_with_final_search triangleGraph "A" "C" ["B"]).
  - apply (buildGraph_closed triangleEdges []). reflexivity.
  - apply (buildGraph_invariant triangleEdges []). reflexivity.
  - intros x [<-|[<-|[]]]; discriminate.
Defined.

(** ** The draft never fails to finish a search *)

Lemma draft_segment_total graph a b :
  closedGraph graph -> NoDup (JsMap.keys graph) ->
  exists ds p,
    Draft.searchSegment graph a b = Ok ds /\
    Draft.reconstructSegmentPath
      (2 + JsSet.size (JsSet.of_list (JsMap.keys graph))) a b
      (Draft.previous ds) = Ok p.
Proof.
  intros Hclosed Hnd.
  destruct (searchLoop_total graph a b) as (settled & fs & Hloop & HS & _).
  destruct (searchSegment_sameSearch _ _ _ _ Hclosed Hnd Hloop)
    as (ds & Hds & _ & _ & Hprev & _).
  exists ds. change (unvisited (initialState graph a))
    with (JsSet.of_list (JsMap.keys graph)) in HS.
  destruct (string_dec b "") as [->|Hb].
  - (* the walk from the empty identifier *)
    unfold Draft.reconstructSegmentPath.
    change (2 + JsSet.size (JsSet.of_list (JsMap.keys graph)))
      with (S (S (JsSet.size (JsSet.of_list (JsMap.keys graph))))).
    rewrite walk_S. destruct (String.eqb "" a); eauto.
    destruct (JsMap.get (Draft.previous ds) "") as [q|] eqn:Eq; eauto.
    destruct (truthy q) eqn:Etq; eauto.
    destruct HS as (Hnds & HV & _ & _ & Hpred & _).
    assert (Hq : In q settled).
    { destruct (Hpred "" (Some q)) as (q' & [= <-] & Hin & _); auto.
      rewrite <- Hprev, lift_get, Eq. reflexivity. }
    assert (Hlen : length settled <=
                   length (JsSet.of_list (JsMap.keys graph)))
      by (apply NoDup_incl_length; auto).
    destruct (walkBack_settled a (previous fs) settled Hnds) with
      (c := q) (path := [""])
      (fuel := S (JsSet.size (JsSet.of_list (JsMap.keys graph))))
      as [[cur path] Hw]; auto.
    + intros n x Hn Hx. destruct (Hpred n x Hx) as (q' & -> & _ & Ho). eauto.
    + unfold JsSet.size. lia.
    + rewrite <- Hprev in Hw. rewrite (walk_walkBack _ _ _ _ _ _ _ Etq Hw).
      destruct (negb (truthy_opt cur)); eauto.
  - destruct (reconstructPath_total _ settled fs a b
                (2 + JsSet.size (JsSet.of_list (JsMap.keys graph))) HS)
      as [r Hr]; [unfold JsSet.size; lia|].
    rewrite <- Hprev in Hr. exists r. split; auto.
    now apply reconstructSegmentPath_reconstructPath.
Qed.

Lemma segmentsLoop_total graph :
  closedGraph graph -> NoDup (JsMap.keys graph) ->
  forall sequence i totalPath totalCost,
    exists r, Draft.segmentsLoop graph i sequence totalPath totalCost = Ok r.
Proof.
  intros Hclosed Hnd. induction sequence as [|a rest IH]; intros i tp tc;
    [cbn; eauto|].
  destruct rest as [|b rest]; [cbn; eauto|].
  destruct (draft_segment_total graph a b Hclosed Hnd)
    as (ds & p & Hds & Hp).
  change (Draft.segmentsLoop graph i (a :: b :: rest) tp tc)
    with (st <- Draft.searchSegment graph a b ;;
          segmentPath <-
            Draft.reconstructSegmentPath
              (2 + JsSet.size (JsSet.of_list (JsMap.keys graph))) a b
              (Draft.previous st) ;;
          match segmentPath with
          | None => Ok None
          | Some p =>
              Draft.segmentsLoop graph (S i) (b :: rest)
                (if Nat.eqb i 0 then p else tp ++ tl p)
                (num_add tc (getNum (Draft.distances st) b))
          end).
  rewrite Hds. cbn [bind]. rewrite Hp. cbn [bind].
  destruct p; eauto.
Qed.

Lemma built_graph es blocked :
  exists g, buildGraph es blocked = Ok g /\
            closedGraph g /\ NoDup (JsMap.keys g).
Proof.
  destruct (buildGraph_total es blocked) as [g Hg]. exists g.
  split; auto. split; [eapply buildGraph_closed; eauto|].
  apply (buildGraph_invariant _ _ _ Hg).
Qed.

Lemma draft_findOptimalPath_cases : forall request,
  let stops := requiredStops (constraints request) in
  Draft.findOptimalPath request =
  match missingOf (nodes request) (stops ++ [end_ request]) with
  | (_ :: _) as missing => Throw (Draft.MissingNodes missing)
  | [] =>
      match invalidEdgeNodesOf (nodes request) (edges request) with
      | (_ :: _) as invalid => Throw (Draft.InvalidEdgeNodes invalid)
      | [] =>
          graph <- buildGraph (edges request)
                              (blockedNodes (constraints request)) ;;
          r <- Draft.dijkstra graph (start request) (end_ request) stops ;;
          match r with
          | None => Throw (NoPathFound stops)
          | Some s => Ok (mkPathResult (seg_path s) (seg_cost s))
          end
      end
  end.
Proof.
  intros request stops. unfold Draft.findOptimalPath. fold stops.
  destruct (built_graph (edges request) (blockedNodes (constraints request)))
    as (g & -> & Hclosed & Hnd).
  cbn [bind].
  destruct (segmentsLoop_total g Hclosed Hnd
              (start request :: stops ++ [end_ request]) 0 [] 0%float)
    as [r Hr].
  unfold Draft.dijkstra. rewrite Hr. cbn [bind].
  destruct (missingOf (nodes request) (stops ++ [end_ request]));
    [|reflexivity].
  now destruct (invalidEdgeNodesOf (nodes request) (edges request)).
Qed.

(** That the draft searches before it validates changes no outcome: a
    request with an undeclared stop, end or edge node gets the validation
    error of the draft, every other request the result of the search. *)
Theorem draft_searches_then_validates : forall request,
  let stops := requiredStops (constraints request) in
  Draft.findOptimalPath request =
  match missingOf (nodes request) (stops ++ [end_ request]) with
  | (_ :: _) as missing => Throw (Draft.MissingNodes missing)
  | [] =>
      match invalidEdgeNodesOf (nodes request) (edges request) with
      | (_ :: _) as invalid => Throw (Draft.InvalidEdgeNodes invalid)
      | [] =>
          graph <- buildGraph (edges request)
                              (blockedNodes (constraints request)) ;;
          r <- Draft.dijkstra graph (start request) (end_ request) stops ;;
          match r with
          | None => Throw (NoPathFound stops)
          | Some s => Ok (mkPathResult (seg_path s) (seg_cost s))
          end
      end
  end.
Proof. exact (@draft_findOptimalPath_cases). Qed.

(** ** The two services on a request *)

Lemma validated_lists request :
  validateNodesExist (nodes request) (edges request)
    (requiredStops (constraints request) ++ [end_ request]) = Ok tt ->
  missingOf (nodes request)
            (requiredStops (constraints request) ++ [end_ request]) = [] /\
  invalidEdgeNodesOf (nodes request) (edges request) = [].
Proof.
  unfold validateNodesExist.
  destruct (missingOf _ _); [|discriminate].
  destruct (invalidEdgeNodesOf _ _); [auto|discriminate].
Qed.

(** A request that passes validation and whose end and required stops are
    non-empty identifiers gets the same answer from the draft and from the
    final service. *)
Theorem draft_agrees_with_final_service : forall request,
  validateNodesExist (nodes request) (edges request)
    (requiredStops (constraints request) ++ [end_ request]) = Ok tt ->
  (forall x, In x (requiredStops (constraints request) ++ [end_ request]) ->
             x <> "") ->
  Draft.findOptimalPath request = findOptimalPath request.
Proof.
  intros request Hv Hne.
  destruct (validated_lists request Hv) as [Hmiss Hinv].
  unfold Draft.findOptimalPath, findOptimalPath.
  rewrite Hv, Hmiss, Hinv. cbn [bind length Nat.ltb Nat.leb].
  destruct (built_graph (edges request) (blockedNodes (constraints request)))
    as (g & -> & Hclosed & Hnd).
  cbn [bind]. now rewrite draft_dijkstra.
Qed.

Lemma draft_agrees_with_final_service_witness :
  Draft.findOptimalPath detourRequest = findOptimalPath detourRequest.
Proof.
  apply (draft_agrees_with_final_service detourRequest).
  - reflexivity.
  - intros x [<-|[<-|[]]]; discriminate.
Defined.

Lemma draft_same_node graph s :
  closedGraph graph -> NoDup (JsMap.keys graph) ->
  Draft.dijkstra graph s s [] = Ok (Some (mkSegment [s] 0%float)).
Proof.
  intros Hclosed Hnd. unfold Draft.dijkstra. cbn [app].
  change (Draft.segmentsLoop graph 0 [s; s] [] 0%float)
    with (st <- Draft.searchSegment graph s s ;;
          segmentPath <-
            Draft.reconstructSegmentPath
              (2 + JsSet.size (JsSet.of_list (JsMap.keys graph))) s s
              (Draft.previous st) ;;
          match segmentPath with
          | None => Ok None
          | Some p =>
              Ok (Some (mkSegment p
                          (num_add 0%float (getNum (Draft.distances st) s))))
          end).
  destruct (searchSegment_sameSearch graph s s (initialState graph s)
              Hclosed Hnd (searchLoop_same_node graph s _))
    as (ds & -> & _ & Hd & _).
  cbn [bind]. unfold Draft.reconstructSegmentPath. cbn [plus].
  rewrite walk_S, String.eqb_refl. cbn [bind].
  now rewrite Hd, initial_distance, String.eqb_refl.
Qed.

(** A validated request from a node to itself with no required stop: the
    draft answers the one-node path with cost 0 whatever the identifier,
    while the final service answers [NoPathFound] when the identifier is
    empty. *)
Theorem draft_answers_same_node_requests : forall request,
  end_ request = start request ->
  requiredStops (constraints request) = [] ->
  validateNodesExist (nodes request) (edges request)
    (requiredStops (constraints request) ++ [end_ request]) = Ok tt ->
  Draft.findOptimalPath request =
  Ok (mkPathResult [start request] 0%float) /\
  (start request = "" ->
   findOptimalPath request = Throw (NoPathFound [])).
Proof.
  intros request Hend Hstops Hv.
  destruct (validated_lists request Hv) as [Hmiss Hinv]. split.
  - unfold Draft.findOptimalPath. rewrite Hmiss, Hinv, Hstops, Hend.
    destruct (built_graph (edges request)
                          (blockedNodes (constraints request)))
      as (g & -> & Hclosed & Hnd).
    cbn [bind]. now rewrite draft_same_node.
  - intros Hs.
    destruct (findOptimalPath_validated request Hv) as (g & r & _ & Hr & ->).
    rewrite Hstops, Hend, Hs, findPathWithRequiredStops_nil,
      dijkstra_empty_end in Hr.
    injection Hr as <-. now rewrite Hstops.
Qed.

Lemma draft_answers_same_node_requests_witness :
  Draft.findOptimalPath emptyRoundTripRequest =
  Ok (mkPathResult [""] 0%float) /\
  ("" = "" ->
   findOptimalPath emptyRoundTripRequest = Throw (NoPathFound [])).
Proof.
  apply (draft_answers_same_node_requests emptyRoundTripRequest);
    reflexivity.
Defined.

(** ** The status of a failure *)

Lemma draft_dijkstra_total graph a b stops :
  closedGraph graph -> NoDup (JsMap.keys graph) ->
  exists r, Draft.dijkstra graph a b stops = Ok r.
Proof. intros Hclosed Hnd. now apply segmentsLoop_total. Qed.

(** Both versions of the service answer every request with a route or with
    an exception of status [BAD_REQUEST]: no other status is used, not for a
    missing path either, and no other error escapes. *)
Theorem every_failure_is_a_bad_request : forall request,
  match findOptimalPath request with
  | Ok _ => True
  | Throw e => status e = BAD_REQUEST
  | _ => False
  end /\
  match Draft.findOptimalPath request with
  | Ok _ => True
  | Throw e => status e = BAD_REQUEST
  | _ => False
  end.
Proof.
  intros request. split.
  - pose proof (validateNodesExist_cases (nodes request) (edges request)
                  (requiredStops (constraints request) ++ [end_ request]))
      as Hc.
    destruct (missingOf (nodes request)
                (requiredStops (constraints request) ++ [end_ request])).
    + destruct (invalidEdgeNodesOf (nodes request) (edges request)).
      * destruct (findOptimalPath_validated request Hc)
          as (g & [s|] & _ & _ & ->); auto.
      * unfold findOptimalPath. now rewrite Hc.
    + unfold findOptimalPath. now rewrite Hc.
  - rewrite draft_findOptimalPath_cases.
    destruct (missingOf (nodes request)
                (requiredStops (constraints request) ++ [end_ request]));
      [|reflexivity].
    destruct (invalidEdgeNodesOf (nodes request) (edges request));
      [|reflexivity].
    destruct (built_graph (edges request)
                          (blockedNodes (constraints request)))
      as (g & -> & Hclosed & Hnd).
    cbn [bind].
    destruct (draft_dijkstra_total g (start request) (end_ request)
                (requiredStops (constraints request)) Hclosed Hnd)
      as [[s|] ->]; cbn [bind]; auto.
Qed.

(** * Cheapest paths, for integer costs whose sums are exact *)

(** ** Integers as doubles *)

Section ExactNumbers.
Variable B : Z.
Hypothesis exact : exactUpTo B.

Lemma isFin_lt x a y b :
  isFin B x a -> isFin B y b -> num_lt x y = (a <? b)%Z.
Proof. intros [Ha ->] [Hb ->]. now apply (exact_lt exact). Qed.

Lemma isFin_lt_Infinity x a : isFin B x a -> num_lt x Infinity = true.
Proof. intros [Ha ->]. now apply (exact_fin exact). Qed.

Lemma isFin_inj x a b : isFin B x a -> isFin B x b -> a = b.
Proof.
  intros Ha Hb.
  pose proof (isFin_lt x a x b Ha Hb) as H1.
  pose proof (isFin_lt x b x a Hb Ha) as H2.
  rewrite num_lt_irrefl in H1, H2. symmetry in H1, H2.
  apply Z.ltb_ge in H1, H2. lia.
Qed.

Lemma isFin_not_Infinity x a : isFin B x a -> x <> Infinity.
Proof.
  intros Ha E. apply isFin_lt_Infinity in Ha. rewrite E in Ha.
  rewrite num_lt_irrefl in Ha. discriminate.
Qed.

Lemma isFin_add x a y b :
  isFin B x a -> isFin B y b -> (a + b <= B)%Z ->
  isFin B (num_add x y) (a + b).
Proof.
  intros [Ha ->] [Hb ->] Hab. split; [lia|].
  apply (exact_add exact); lia.
Qed.

Lemma isFin_zero : (0 <= B)%Z -> isFin B 0%float 0.
Proof. intros HB. split; [lia|reflexivity]. Qed.

Lemma atMost_trans x a b : atMost B x a -> (a <= b)%Z -> atMost B x b.
Proof. intros (z & Hz & Hle) Hab. exists z. split; auto. lia. Qed.

Lemma not_lt_atMost x z y :
  isFin B x z -> typed B y -> num_lt x y = false -> atMost B y z.
Proof.
  intros Hx [->|[b Hb]] Hlt.
  - rewrite (isFin_lt_Infinity _ _ Hx) in Hlt. discriminate.
  - rewrite (isFin_lt _ _ _ _ Hx Hb) in Hlt. apply Z.ltb_ge in Hlt.
    exists b. auto.
Qed.

(** The node [getMinDistanceNode] returns is nearest among the unvisited
    ones. *)
Lemma getMinDistanceNode_least unvisited distances c :
  (forall u, In u unvisited -> typed B (getNum distances u)) ->
  getMinDistanceNode unvisited distances = Some c ->
  In c unvisited /\
  exists dc, isFin B (getNum distances c) dc /\
             forall u du, In u unvisited ->
                          isFin B (getNum distances u) du -> (dc <= du)%Z.
Proof.
  intros Htyped H. pose proof (getMinDistanceNode_In _ _ _ H) as Hin.
  split; auto. unfold getMinDistanceNode in H.
  pose proof (minFold_first distances unvisited) as Hf. cbv zeta in Hf.
  rewrite H in Hf. destruct Hf as (_ & Hc & pre & post & Hl & Hpre & Hpost).
  destruct (Htyped c Hin) as [E|[dc Hdc]].
  { rewrite E, num_lt_irrefl in Hc. discriminate. }
  exists dc. split; auto. intros u du Hu Hdu.
  rewrite Hl in Hu. apply in_app_iff in Hu. destruct Hu as [Hu|[<-|Hu]].
  - assert (Hn : isNaN (getNum distances u) = false).
    { apply isFin_lt_Infinity in Hdu. now apply (num_lt_isNaN _ _ Hdu). }
    specialize (Hpre u Hu Hn). rewrite (isFin_lt _ _ _ _ Hdc Hdu) in Hpre.
    apply Z.ltb_lt in Hpre. lia.
  - rewrite (isFin_inj _ _ _ Hdc Hdu). lia.
  - specialize (Hpost u Hu). rewrite (isFin_lt _ _ _ _ Hdu Hdc) in Hpost.
    apply Z.ltb_ge in Hpost. lia.
Qed.

Lemma getMinDistanceNode_unreached unvisited distances u :
  (forall u, In u unvisited -> typed B (getNum distances u)) ->
  getMinDistanceNode unvisited distances = None ->
  In u unvisited -> getNum distances u = Infinity.
Proof.
  intros Htyped H Hu. unfold getMinDistanceNode in H.
  pose proof (minFold_first distances unvisited) as Hf. cbv zeta in Hf.
  rewrite H in Hf. destruct Hf as [_ Hnone].
  destruct (Htyped u Hu) as [E|[du Hdu]]; auto.
  apply isFin_lt_Infinity in Hdu. rewrite (Hnone u Hu) in Hdu. discriminate.
Qed.

(** ** Relaxing the neighbours of the current node *)

Section Relax.
Variables (W : Z) (current : string) (unvisited' : JsSet.t) (dc : Z).
Hypothesis current_settled : ~ In current unvisited'.
Hypothesis room : (dc + W <= B)%Z.

Lemma relaxFold_exact (m : JsMap.t number) : forall D P D' P',
  isFin B (getNum D current) dc ->
  (forall k, In k unvisited' -> typed B (getNum D k)) ->
  (forall k c, In (k, c) m -> exists w, (0 <= w <= W)%Z /\ c = ofZ w) ->
  fold_left (relax current unvisited') m (D, P) = (D', P') ->
  (forall k z, isFin B (getNum D k) z -> atMost B (getNum D' k) z) /\
  (forall k w, In (k, ofZ w) m -> (0 <= w <= W)%Z -> In k unvisited' ->
               atMost B (getNum D' k) (dc + w)).
Proof.
  induction m as [|[n c] m IH]; intros D P D' P' Hc Htyped Hint;
    cbn [fold_left].
  - intros [= <- <-]. split.
    + intros k z Hz. exists z. split; auto. lia.
    + intros k w [].
  - assert (Hint' : forall k c0, In (k, c0) m ->
                      exists w, (0 <= w <= W)%Z /\ c0 = ofZ w)
      by (intros k c0 H; apply (Hint k c0); now right).
    destruct (Hint n c (or_introl eq_refl)) as (wn & Hwn & ->).
    assert (Hnew : isFin B (num_add (getNum D current) (ofZ wn)) (dc + wn)).
    { apply isFin_add; auto; [|lia]. split; [|reflexivity].
      destruct Hc as [Hdc _]. lia. }
    destruct (relax_cases current unvisited' D P n (ofZ wn))
      as [[E Hlow]|(Hn & Hlt & E)]; rewrite E; clear E; intros Hfold.
    + destruct (IH _ _ _ _ Hc Htyped Hint' Hfold) as (H3 & H4).
      split; auto.
      intros k w [[= -> Hw]|Hin] Hrange Hk; auto.
      assert (w = wn).
      { apply (isFin_inj (ofZ w)); split; auto; destruct Hc; lia. }
      subst w.
      destruct (not_lt_atMost _ _ _ Hnew (Htyped _ Hk) (Hlow Hk))
        as (z & Hz & Hle).
      eapply atMost_trans; [apply H3; eauto|lia].
    + assert (Hne : n <> current) by (intros ->; contradiction).
      set (D1 := JsMap.set D n (num_add (getNum D current) (ofZ wn))) in *.
      assert (Hc1 : isFin B (getNum D1 current) dc).
      { unfold D1. rewrite getNum_set. apply String.eqb_neq in Hne.
        now rewrite Hne. }
      assert (Htyped1 : forall k, In k unvisited' -> typed B (getNum D1 k)).
      { intros k Hk. unfold D1. rewrite getNum_set.
        destruct (String.eqb n k); [right; eauto|auto]. }
      destruct (IH _ _ _ _ Hc1 Htyped1 Hint' Hfold) as (H3 & H4).
      assert (Hn1 : atMost B (getNum D' n) (dc + wn)).
      { apply H3. unfold D1. rewrite getNum_set, String.eqb_refl. exact Hnew. }
      split.
      * intros k z Hz. destruct (String.eqb n k) eqn:Ek.
        -- apply String.eqb_eq in Ek. subst k.
           rewrite (isFin_lt _ _ _ _ Hnew Hz) in Hlt. apply Z.ltb_lt in Hlt.
           eapply atMost_trans; [exact Hn1|lia].
        -- apply H3. unfold D1. rewrite getNum_set, Ek. exact Hz.
      * intros k w [[= -> Hw]|Hin] Hrange Hk; auto.
        assert (w = wn).
        { apply (isFin_inj (ofZ w)); split; auto; destruct Hc; lia. }
        subst w. exact Hn1.
Qed.
End Relax.
End ExactNumbers.

(** ** The invariant of the search *)

Lemma length_of_list (l : list string) :
  length (JsSet.of_list l) <= length l.
Proof.
  destruct (of_list_spec l) as [Hnd Hin].
  apply NoDup_incl_length; auto. intros x Hx. now apply Hin.
Qed.

Section Correctness.
Variables (B W : Z) (graph : Graph) (start end_ : string) (all : list string).
Hypothesis exact : exactUpTo B.
Hypothesis weights : (0 <= W)%Z.
Hypothesis unique : uniqueNeighbors graph.
Hypothesis int_costs : intCosts graph W.
Hypothesis all_keys : forall k, In k (JsMap.keys graph) -> In k all.
Hypothesis room : (Z.of_nat (length all) * W <= B)%Z.

(** What [processNeighbors] does for the node [current] just removed from
    [unvisited], in terms of the edges of the graph. *)
Lemma processNeighbors_exact settled st current dc D' P' :
  searchShape all settled st ->
  (forall k, In k all -> typed B (getNum (distances st) k)) ->
  In current (unvisited st) ->
  isFin B (getNum (distances st) current) dc ->
  (dc + W <= B)%Z ->
  processNeighbors current graph (JsSet.delete (unvisited st) current)
                   (distances st) (previous st) = (D', P') ->
  (forall k,
      (getNum D' k = getNum (distances st) k /\
       JsMap.get P' k = JsMap.get (previous st) k) \/
      (In k (JsSet.delete (unvisited st) current) /\
       exists w, intCost graph W current k w /\
                 isFin B (getNum D' k) (dc + w) /\
                 JsMap.get P' k = Some (Some current)))
  /\ (forall k z, isFin B (getNum (distances st) k) z ->
                  atMost B (getNum D' k) z)
  /\ (forall k w, intCost graph W current k w ->
                  In k (JsSet.delete (unvisited st) current) ->
                  atMost B (getNum D' k) (dc + w))
  /\ (forall k, ~ In k (JsSet.delete (unvisited st) current) ->
                getNum D' k = getNum (distances st) k /\
                JsMap.get P' k = JsMap.get (previous st) k).
Proof.
  intros (_ & _ & HU & _) Htyped Hcu Hdc Hroom Hp.
  set (U' := JsSet.delete (unvisited st) current) in *.
  assert (HcU' : ~ In current U')
    by (unfold U'; rewrite In_delete; tauto).
  assert (Htyped' : forall k, In k U' -> typed B (getNum (distances st) k)).
  { intros k Hk. apply Htyped, HU. unfold U' in Hk.
    apply In_delete in Hk. tauto. }
  pose proof (processNeighbors_edges graph current U' _ _ _ _
                unique HcU' Hp) as H2.
  unfold processNeighbors in Hp.
  set (m := match JsMap.get graph current with
            | Some m => m
            | None => JsMap.empty number
            end) in *.
  assert (Hedge : forall k c, In (k, c) m <-> costOf graph current k = Some c).
  { intros k c. unfold costOf, m.
    destruct (JsMap.get graph current) as [m0|] eqn:Eg.
    - split; [apply In_get_NoDup; eauto|apply get_Some_In].
    - split; [intros []|discriminate]. }
  assert (Hint : forall k c, In (k, c) m ->
                   exists w, (0 <= w <= W)%Z /\ c = ofZ w).
  { intros k c Hin. apply Hedge in Hin. eapply int_costs; eauto. }
  destruct (relaxFold_exact B exact W current U' dc HcU' Hroom m _ _ _ _
              Hdc Htyped' Hint Hp) as (H3 & H4).
  assert (H2' : forall k,
      (getNum D' k = getNum (distances st) k /\
       JsMap.get P' k = JsMap.get (previous st) k) \/
      (In k U' /\
       exists w, intCost graph W current k w /\
                 isFin B (getNum D' k) (dc + w) /\
                 JsMap.get P' k = Some (Some current))).
  { intros k. destruct (H2 k) as [?|(Hk & c & Hc & Hd & Hprev)]; auto.
    right. split; auto.
    destruct (int_costs _ _ _ Hc) as (w & Hw & ->).
    exists w. split; [split; auto|]. split; auto.
    rewrite Hd. apply isFin_add; auto; [|lia]. split; [|reflexivity].
    destruct Hdc. lia. }
  split; [exact H2'|]. split; [exact H3|]. split.
  - intros k w [Hw Hrange] Hk. apply H4; auto. now apply Hedge.
  - intros k Hk. destruct (H2 k) as [?|[? _]]; tauto.
Qed.

(** A path that ends in an unvisited node costs at least the distance of some
    unvisited node. *)
Lemma path_crosses_frontier settled st v p d :
  searchInv B W graph start end_ all settled st ->
  ExactPath graph W start v p d -> In v (unvisited st) ->
  exists y, In y (unvisited st) /\ atMost B (getNum (distances st) y) d.
Proof.
  intros HI Hpath. induction Hpath as [|b c p d w Hpath IH Hw]; intros Hv.
  - exists start. split; auto. exists 0%Z. split; [|lia].
    rewrite (tree_start (inv_base HI)). apply isFin_zero.
    assert (0 <= Z.of_nat (length all) * W)%Z by (apply Z.mul_nonneg_nonneg; lia).
    lia.
  - destruct Hw as [Hw Hrange].
    destruct (inv_cover HI b (all_keys _ (costOf_key _ _ _ _ Hw))) as [Hb|Hb].
    + destruct (inv_optimal HI b Hb) as (db & Hdb & Hopt).
      destruct (inv_relaxed HI b c w Hb (conj Hw Hrange) Hv)
        as (db' & Hdb' & Hc).
      rewrite (isFin_inj B exact _ _ _ Hdb' Hdb) in Hc.
      exists c. split; auto. eapply atMost_trans; eauto.
      specialize (Hopt _ _ Hpath). lia.
    + destruct (IH Hb) as (y & Hy & Hle). exists y. split; auto.
      eapply atMost_trans; eauto. lia.
Qed.

Lemma searchInv_initial :
  all = unvisited (initialState graph start) ->
  searchInv B W graph start end_ all [] (initialState graph start).
Proof.
  intros Hall.
  assert (HB : (0 <= B)%Z).
  { assert (0 <= Z.of_nat (length all) * W)%Z
      by (apply Z.mul_nonneg_nonneg; lia). lia. }
  clear unique int_costs all_keys room. subst all. constructor.
  - apply treeInv_initial.
  - auto.
  - intros [].
  - intros k Hk. rewrite initial_distance.
    destruct (String.eqb start k).
    + right. exists 0%Z. split; [now apply isFin_zero|]. cbn [length]. lia.
    + apply includes_true in Hk. rewrite Hk. now left.
  - intros k z _. rewrite initial_distance.
    destruct (String.eqb start k) eqn:E.
    + apply String.eqb_eq in E. auto.
    + intros Hz. exfalso.
      destruct (includes _ k).
      * exact (isFin_not_Infinity B exact _ _ Hz eq_refl).
      * apply (isFin_lt_Infinity B exact) in Hz. discriminate Hz.
  - intros k x. discriminate.
  - intros n q. discriminate.
  - intros s [].
  - intros s v w [].
Qed.

Lemma searchInv_step settled st current D' P' :
  searchInv B W graph start end_ all settled st ->
  getMinDistanceNode (unvisited st) (distances st) = Some current ->
  current <> end_ ->
  processNeighbors current graph (JsSet.delete (unvisited st) current)
                   (distances st) (previous st) = (D', P') ->
  searchInv B W graph start end_ all (current :: settled)
            (mkSearchState (JsSet.delete (unvisited st) current) D' P').
Proof.
  intros HI Hmin Hend Hp.
  pose proof (inv_base HI) as HT.
  destruct (tree_shape HT) as (Hnd & HV & HU & Hdisj & Hprev & Hkeys).
  assert (Htyped : forall k, In k all -> typed B (getNum (distances st) k)).
  { intros k Hk. destruct (inv_typed HI k Hk) as [?|(z & Hz & _)];
      [now left|right; eauto]. }
  destruct (getMinDistanceNode_least B exact _ _ _
              (fun u Hu => Htyped u (HU u Hu)) Hmin)
    as (Hcu & dc & Hdc & Hleast).
  assert (Hdcb : (dc <= Z.of_nat (length settled) * W)%Z).
  { destruct (inv_typed HI current (HU _ Hcu)) as [E|(z & Hz & Hle)].
    - destruct (isFin_not_Infinity B exact _ _ Hdc E).
    - now rewrite (isFin_inj B exact _ _ _ Hdc Hz). }
  assert (Hlen : S (length settled) <= length all).
  { change (S (length settled)) with (length (current :: settled)).
    apply NoDup_incl_length.
    - constructor; auto. intros H. exact (Hdisj _ H Hcu).
    - intros x [<-|Hx]; auto. }
  assert (Hroom : (dc + W <= B)%Z) by nia.
  destruct (processNeighbors_exact settled st current dc D' P'
              (tree_shape HT) Htyped Hcu Hdc Hroom Hp)
    as (H2 & H3 & H4 & Hframe).
  set (U' := JsSet.delete (unvisited st) current) in *.
  assert (HcU' : ~ In current U')
    by (unfold U'; rewrite In_delete; tauto).
  assert (HU'U : forall k, In k U' -> In k (unvisited st))
    by (unfold U'; intros k Hk; apply In_delete in Hk; tauto).
  assert (HVU' : forall k, In k settled -> ~ In k U')
    by (intros k Hk HkU; apply (Hdisj k Hk); auto).
  constructor; cbn [unvisited distances previous].
  - now apply treeInv_step.
  - intros k Hk. destruct (inv_cover HI k Hk) as [Hs|Hu]; [left; now right|].
    destruct (string_dec current k) as [->|Hne]; [left; now left|].
    right. unfold U'. apply In_delete. split; auto.
  - intros [Heq|Hin]; [contradiction|]. exact (inv_end HI Hin).
  - intros k Hk. cbn [length]. rewrite Nat2Z.inj_succ.
    destruct (H2 k) as [[Hd _]|(_ & w & [_ Hw] & Hd & _)].
    + rewrite Hd. destruct (inv_typed HI k Hk) as [?|(z & Hz & Hle)]; auto.
      right. exists z. split; auto. nia.
    + right. exists (dc + w)%Z. split; auto. nia.
  - intros k z Hk Hz. destruct (H2 k) as [[Hd Hpk]|(_ & w & _ & _ & Hpk)].
    + rewrite Hd in Hz. rewrite Hpk. eapply (inv_reached HI); eauto.
    + right. eauto.
  - intros k x Hx. destruct (H2 k) as [[Hd Hpk]|(_ & w & _ & Hd & _)].
    + rewrite Hpk in Hx. rewrite Hd. eapply (inv_unreached HI); eauto.
    + eauto.
  - intros n q Hq. destruct (H2 n) as [[Hd Hpn]|(_ & w & Hw & Hd & Hpn)].
    + rewrite Hpn in Hq.
      destruct (inv_edges HI n q Hq) as (dq & w & Hdq & Hw & Hdn).
      destruct (Hprev _ _ Hq) as (q' & [= <-] & Hqs & _).
      exists dq, w. rewrite Hd.
      destruct (Hframe q (HVU' _ Hqs)) as [-> _]. auto.
    + rewrite Hpn in Hq. injection Hq as <-. exists dc, w.
      destruct (Hframe current HcU') as [-> _]. auto.
  - intros s [<-|Hs].
    + exists dc. destruct (Hframe current HcU') as [-> _]. split; auto.
      intros p d Hpath.
      destruct (path_crosses_frontier settled st current p d HI Hpath Hcu)
        as (y & Hy & dy & Hdy & Hle).
      specialize (Hleast y dy Hy Hdy). lia.
    + destruct (Hframe s (HVU' _ Hs)) as [-> _]. now apply (inv_optimal HI).
  - intros s v w [<-|Hs] Hw Hv.
    + exists dc. destruct (Hframe current HcU') as [-> _]. split; auto.
    + destruct (inv_relaxed HI s v w Hs Hw (HU'U _ Hv))
        as (ds & Hds & z & Hz & Hle).
      exists ds. destruct (Hframe s (HVU' _ Hs)) as [-> _]. split; auto.
      eapply atMost_trans; eauto.
Qed.
End Correctness.

(** ** Walking back along the predecessors of a finished search *)

Lemma walkBack_exact B W (exact : exactUpTo B) graph start
    (D : JsMap.t number) P : forall settled,
  NoDup settled ->
  isFin B (getNum D start) 0 ->
  (forall n, In n settled -> n <> "") ->
  (forall n, In n settled ->
     n = start \/
     exists q, JsMap.get P n = Some (Some q) /\ olderIn settled q n) ->
  (forall n q, JsMap.get P n = Some (Some q) ->
     exists dq w, isFin B (getNum D q) dq /\ intCost graph W q n w /\
                  isFin B (getNum D n) (dq + w)) ->
  forall c acc fuel,
    In c settled -> length settled < fuel ->
    exists p d,
      walkBack fuel start P (Some c) acc = Some (Some start, p ++ acc) /\
      ExactPath graph W start c (start :: p) d /\
      isFin B (getNum D c) d.
Proof.
  induction settled as [|v rest IH];
    intros Hnd Hstart Hids Hreach Htree c acc fuel Hin Hlen; [destruct Hin|].
  inversion Hnd as [|? ? Hv Hnd']; subst.
  assert (Hreach' : forall n, In n rest ->
            n = start \/
            exists q, JsMap.get P n = Some (Some q) /\ olderIn rest q n).
  { intros n Hn. destruct (Hreach n (or_intror Hn)) as [?|(q & Hq & Ho)]; auto.
    right. exists q. split; auto. apply olderIn_tail in Ho; auto. congruence. }
  assert (Hids' : forall n, In n rest -> n <> "")
    by (intros n Hn; apply Hids; now right).
  destruct Hin as [->|Hin].
  2:{ apply IH; auto. simpl in Hlen. lia. }
  destruct fuel as [|fuel]; [lia|]. simpl in Hlen. cbn [walkBack].
  destruct (String.eqb c start) eqn:Ec.
  - apply String.eqb_eq in Ec. subst c. rewrite andb_false_r.
    exists [], 0%Z. repeat split; auto; try apply Hstart. constructor.
  - apply String.eqb_neq in Ec.
    rewrite (truthy_nonempty c) by (apply Hids; now left). cbn [andb negb].
    destruct (Hreach c (or_introl eq_refl)) as [?|(q & Hq & Ho)]; [contradiction|].
    apply olderIn_head in Ho.
    unfold previousOf. rewrite Hq, (truthy_nonempty q) by auto.
    destruct (IH Hnd' Hstart Hids' Hreach' Htree q (c :: acc) fuel Ho)
      as (p & d & Hwalk & Hpath & Hd); [lia|].
    destruct (Htree c q Hq) as (dq & w & Hdq & Hw & Hdc).
    rewrite (isFin_inj B exact _ _ _ Hdq Hd) in Hdc.
    exists (p ++ [c]), (d + w)%Z. split; [|split; auto].
    + rewrite Hwalk. now rewrite <- app_assoc.
    + change (start :: p ++ [c]) with ((start :: p) ++ [c]).
      econstructor; eauto.
Qed.

Lemma ExactPath_cost_nonneg graph W a b p d :
  ExactPath graph W a b p d -> (0 <= d)%Z.
Proof.
  intros H. induction H as [|b c p d w H IH [_ Hw]]; lia.
Qed.

(** ** Correctness of the single-pair search on integer costs *)

Lemma dijkstra_cheapest : forall B W graph start end_,
  exactUpTo B -> (0 <= W)%Z -> intCosts graph W ->
  (Z.of_nat (length (JsMap.keys graph)) * W <= B)%Z ->
  uniqueNeighbors graph -> nonEmptyIds graph ->
  In start (JsMap.keys graph) -> In end_ (JsMap.keys graph) ->
  (exists s d,
      dijkstra graph start end_ = Ok (Some s) /\
      seg_cost s = ofZ d /\
      (d <= Z.of_nat (length (JsMap.keys graph)) * W)%Z /\
      ExactPath graph W start end_ (seg_path s) d /\
      forall p' d', ExactPath graph W start end_ p' d' -> (d <= d')%Z)
  \/
  (dijkstra graph start end_ = Ok None /\
   forall p d, ~ ExactPath graph W start end_ p d).
Proof.
  intros B W graph start end_ exact HW Hint Hbound Hunique Hids Hstart Hend.
  set (all := unvisited (initialState graph start)).
  assert (Hall : forall k, In k all <-> In k (JsMap.keys graph))
    by (intros k; apply (proj2 (of_list_spec (JsMap.keys graph)))).
  assert (Hall1 : forall k, In k (JsMap.keys graph) -> In k all)
    by (intros k; apply Hall).
  assert (Hne : forall k, In k all -> k <> "")
    by (intros k Hk; apply Hids, Hall, Hk).
  assert (Hroom : (Z.of_nat (length all) * W <= B)%Z).
  { pose proof (length_of_list (JsMap.keys graph)) as Hl.
    change (JsSet.of_list (JsMap.keys graph)) with all in Hl. nia. }
  assert (HB : (0 <= B)%Z).
  { assert (0 <= Z.of_nat (length all) * W)%Z
      by (apply Z.mul_nonneg_nonneg; lia). lia. }
  destruct (searchLoop_invariant
              (searchInv B W graph start end_ all) graph end_
              (fun settled st c D' P' HI Hmin _ Hce Hp =>
                 searchInv_step B W graph start end_ all exact HW Hunique Hint
                                Hall1 Hroom settled st c D' P' HI Hmin Hce Hp)
              (S (JsSet.size all)) [] (initialState graph start)
              (searchInv_initial B W graph start end_ all exact HW Hroom
                                 eq_refl))
    as (settled & st & Hloop & HI & Hstop);
    [unfold JsSet.size, all; lia|].
  unfold dijkstra. fold all. rewrite Hloop. cbn [bind].
  unfold reconstructPath. change (2 + JsSet.size all) with (S (S (JsSet.size all))).
  rewrite walkBack_S.
  rewrite (truthy_nonempty end_) by (apply Hids, Hend). cbn [andb].
  pose proof (inv_base HI) as HT.
  assert (Hzero : isFin B (getNum (distances st) start) 0).
  { rewrite (tree_start HT). now apply isFin_zero. }
  destruct (String.eqb end_ start) eqn:Ees.
  { (* the search from a node to itself *)
    apply String.eqb_eq in Ees. subst end_. cbn [negb truthy_opt].
    rewrite (truthy_nonempty start) by (apply Hids, Hstart). cbn [negb].
    left. exists (mkSegment [start] (getNum (distances st) start)), 0%Z.
    repeat split; cbn [seg_cost seg_path].
    - apply (tree_start HT).
    - apply Z.mul_nonneg_nonneg; lia.
    - constructor.
    - intros p' d' Hp. eapply ExactPath_cost_nonneg; eauto. }
  apply String.eqb_neq in Ees. cbn [negb].
  destruct (tree_shape HT) as (Hnd & HV & HU & Hdisj & Hprev & Hkeys).
  assert (Htyped : forall u, In u (unvisited st) ->
                             typed B (getNum (distances st) u)).
  { intros u Hu. destruct (inv_typed HI u (HU _ Hu)) as [?|(z & Hz & _)];
      [now left|right; eauto]. }
  assert (HendU : In end_ (unvisited st)).
  { destruct (inv_cover HI end_ (Hall1 _ Hend)) as [H|H]; auto.
    destruct (inv_end HI H). }
  assert (Hlen : length settled <= length all)
    by (apply NoDup_incl_length; auto).
  destruct Hstop as [Hempty|[Hnone|(c & Hmin & Hc)]].
  - rewrite Hempty in HendU. destruct HendU.
  - (* every unvisited node is out of reach *)
    right.
    assert (Hp : previousOf (previous st) end_ = None).
    { unfold previousOf.
      destruct (JsMap.get (previous st) end_) as [x|] eqn:Ex; auto.
      destruct (inv_unreached HI _ _ Ex) as [z Hz].
      destruct (isFin_not_Infinity B exact _ _ Hz
                  (getMinDistanceNode_unreached B exact _ _ end_
                     Htyped Hnone HendU)). }
    rewrite Hp. cbn [walkBack truthy_opt negb]. split; auto.
    intros p d Hpath.
    destruct (path_crosses_frontier B W graph start end_ all exact HW Hall1
                Hroom settled st end_ p d HI Hpath HendU)
      as (y & Hy & z & Hz & _).
    exact (isFin_not_Infinity B exact _ _ Hz
             (getMinDistanceNode_unreached B exact _ _ y Htyped Hnone Hy)).
  - (* the end node is the nearest unvisited node *)
    destruct (getMinDistanceNode_least B exact _ _ _ Htyped Hmin)
      as (Hcu & de & Hde & Hleast).
    destruct Hc as [Hc|Hc].
    { rewrite (truthy_nonempty c) in Hc by (apply Hne, HU, Hcu). discriminate. }
    subst c. left.
    destruct (inv_reached HI end_ de (Hall1 _ Hend) Hde) as [?|[q Hq]];
      [contradiction|].
    destruct (Hprev _ _ Hq) as (q' & [= <-] & Hqs & _).
    unfold previousOf. rewrite Hq.
    rewrite (truthy_nonempty q) by (apply Hne, HV, Hqs).
    assert (Hsids : forall n, In n settled -> n <> "")
      by (intros n Hn; apply Hne, HV, Hn).
    assert (Hsreach : forall n, In n settled ->
              n = start \/
              exists q0, JsMap.get (previous st) n = Some (Some q0) /\
                         olderIn settled q0 n).
    { intros n Hn. destruct (inv_optimal HI n Hn) as (dn & Hdn & _).
      destruct (inv_reached HI n dn (HV _ Hn) Hdn) as [?|[q0 Hq0]]; auto.
      right. exists q0. split; auto.
      destruct (Hprev _ _ Hq0) as (q1 & [= <-] & _ & Ho). auto. }
    assert (Hfuel : length settled < S (JsSet.size all))
      by (unfold JsSet.size; lia).
    destruct (walkBack_exact B W exact graph start (distances st)
                (previous st) settled
                Hnd Hzero Hsids Hsreach (inv_edges HI)
                q [end_] (S (JsSet.size all)) Hqs Hfuel)
      as (p & d & Hwalk & Hpath & Hd).
    rewrite Hwalk. cbn [truthy_opt].
    rewrite (truthy_nonempty start) by (apply Hids, Hstart). cbn [negb].
    destruct (inv_edges HI end_ q Hq) as (dq & w & Hdq & Hw & Hdend).
    rewrite (isFin_inj B exact _ _ _ Hdq Hd) in Hdend.
    exists (mkSegment (start :: p ++ [end_]) (getNum (distances st) end_)),
           (d + w)%Z.
    cbn [seg_cost seg_path]. split; auto. split; [apply Hdend|].
    split; [|split].
    * destruct (inv_typed HI end_ (Hall1 _ Hend)) as [E|(z & Hz & Hle)].
      -- destruct (isFin_not_Infinity B exact _ _ Hde E).
      -- rewrite (isFin_inj B exact _ _ _ Hdend Hz).
         pose proof (length_of_list (JsMap.keys graph)) as Hl.
         change (JsSet.of_list (JsMap.keys graph)) with all in Hl. nia.
    * change (start :: p ++ [end_]) with ((start :: p) ++ [end_]).
      econstructor; eauto.
    * intros p' d' Hp'.
      destruct (path_crosses_frontier B W graph start end_ all exact HW Hall1
                  Hroom settled st end_ p' d' HI Hp' HendU)
        as (y & Hy & z & Hz & Hle).
      specialize (Hleast y z Hy Hz).
      rewrite (isFin_inj B exact _ _ _ Hdend Hde). lia.
Qed.

(** For integer costs between 0 and [W] on a graph of [n] keys, where double
    arithmetic is exact up to [n * W], and non-empty identifiers, with
    [start] and [end] among the keys: [dijkstra] returns a path from [start]
    to [end] with the sum of its costs, which no path from [start] to [end]
    undercuts and which is at most [n * W], when some path exists, and
    [null] when none exists. *)
Theorem dijkstra_shortest_path_nonempty_ids : forall B W graph start end_,
  exactUpTo B -> (0 <= W)%Z -> intCosts graph W ->
  (Z.of_nat (length (JsMap.keys graph)) * W <= B)%Z ->
  uniqueNeighbors graph -> nonEmptyIds graph ->
  In start (JsMap.keys graph) -> In end_ (JsMap.keys graph) ->
  (exists s d,
      dijkstra graph start end_ = Ok (Some s) /\
      seg_cost s = ofZ d /\
      (d <= Z.of_nat (length (JsMap.keys graph)) * W)%Z /\
      ExactPath graph W start end_ (seg_path s) d /\
      forall p' d', ExactPath graph W start end_ p' d' -> (d <= d')%Z)
  \/
  (dijkstra graph start end_ = Ok None /\
   forall p d, ~ ExactPath graph W start end_ p d).
Proof. exact dijkstra_cheapest. Qed.

(** ** Checking the conditions on integer costs *)

Lemma In_upTo n z : (0 <= z <= Z.of_nat n)%Z -> In z (upTo n).
Proof.
  intros Hz. unfold upTo. apply in_map_iff. exists (Z.to_nat z).
  split; [lia|]. apply in_seq. lia.
Qed.

Lemma upTo_range n z : In z (upTo n) -> (0 <= z <= Z.of_nat n)%Z.
Proof.
  unfold upTo. intros H. apply in_map_iff in H.
  destruct H as (k & <- & Hk). apply in_seq in Hk. lia.
Qed.

Lemma exactUpTob_correct n :
  exactUpTob n = true -> exactUpTo (Z.of_nat n).
Proof.
  unfold exactUpTob. rewrite forallb_forall. intros H.
  assert (Hab : forall a b, (0 <= a <= Z.of_nat n)%Z ->
                            (0 <= b <= Z.of_nat n)%Z ->
            num_lt (ofZ a) Infinity = true /\
            num_lt (ofZ a) (ofZ b) = (a <? b)%Z /\
            ((a + b <= Z.of_nat n)%Z ->
             num_add (ofZ a) (ofZ b) = ofZ (a + b))).
  { intros a b Ha Hb. specialize (H a (In_upTo n a Ha)).
    apply andb_true_iff in H. destruct H as [Hfin H].
    rewrite forallb_forall in H. specialize (H b (In_upTo n b Hb)).
    apply andb_true_iff in H. destruct H as [Hlt Hadd].
    split; auto. split; [now apply Bool.eqb_prop|].
    intros Hsum. apply orb_true_iff in Hadd. destruct Hadd as [Hadd|Hadd].
    - apply Z.ltb_lt in Hadd. lia.
    - now apply FloatAxioms.Leibniz.eqb_spec. }
  constructor.
  - intros a b Ha Hb Hsum. apply Hab; lia.
  - intros a b Ha Hb. now apply Hab.
  - intros a Ha. now apply (Hab a a).
Qed.

Lemma intCostsb_correct graph n :
  intCostsb graph n = true -> intCosts graph (Z.of_nat n).
Proof.
  unfold intCostsb. rewrite forallb_forall. intros H a b c Hc.
  unfold costOf in Hc. destruct (JsMap.get graph a) as [m|] eqn:Em;
    [|discriminate].
  apply get_Some_In in Em. apply get_Some_In in Hc.
  specialize (H _ Em). cbn [snd] in H. rewrite forallb_forall in H.
  specialize (H _ Hc). cbn [snd] in H. apply existsb_exists in H.
  destruct H as (w & Hw & E). exists w. split; [now apply upTo_range|].
  now apply FloatAxioms.Leibniz.eqb_spec.
Qed.

Lemma dijkstra_shortest_path_nonempty_ids_witness :
  (exists s d,
      dijkstra triangleGraph "A" "C" = Ok (Some s) /\
      seg_cost s = ofZ d /\
      (d <= 3 * 4)%Z /\
      ExactPath triangleGraph 4 "A" "C" (seg_path s) d /\
      forall p' d', ExactPath triangleGraph 4 "A" "C" p' d' -> (d <= d')%Z)
  \/
  (dijkstra triangleGraph "A" "C" = Ok None /\
   forall p d, ~ ExactPath triangleGraph 4 "A" "C" p d).
Proof.
  apply (dijkstra_shortest_path_nonempty_ids 12 4 triangleGraph "A" "C").
  - apply (exactUpTob_correct 12). vm_compute. reflexivity.
  - lia.
  - apply (intCostsb_correct triangleGraph 4). vm_compute. reflexivity.
  - simpl. lia.
  - apply uniqueNeighborsb_correct. vm_compute. reflexivity.
  - apply nonEmptyIdsb_correct. vm_compute. reflexivity.
  - simpl. auto.
  - simpl. auto.
Defined.

(** ** Cheapest routes on integer costs *)

Lemma ExactPath_keys graph W a b p d :
  closedGraph graph -> ExactPath graph W a b p d ->
  b = a \/ (In a (JsMap.keys graph) /\ In b (JsMap.keys graph)).
Proof.
  intros Hclosed H. induction H as [|b c p d w H IH [Hw _]]; auto.
  right. pose proof (costOf_key _ _ _ _ Hw) as Hb.
  assert (Hc : In c (JsMap.keys graph)).
  { unfold costOf in Hw. destruct (JsMap.get graph b) as [m|] eqn:Em;
      [|discriminate].
    eapply Hclosed; eauto. eapply get_Some_keys; eauto. }
  destruct IH as [->|[Ha _]]; auto.
Qed.

(** The single-pair search between any two non-empty identifiers. *)
Lemma dijkstra_cheapest_any B W graph a b :
  exactUpTo B -> (0 <= W)%Z -> intCosts graph W ->
  (Z.of_nat (length (JsMap.keys graph)) * W <= B)%Z ->
  uniqueNeighbors graph -> nonEmptyIds graph -> closedGraph graph ->
  a <> "" -> b <> "" ->
  (exists s d,
      dijkstra graph a b = Ok (Some s) /\
      seg_cost s = ofZ d /\
      (d <= Z.of_nat (length (JsMap.keys graph)) * W)%Z /\
      ExactPath graph W a b (seg_path s) d /\
      forall p' d', ExactPath graph W a b p' d' -> (d <= d')%Z)
  \/
  (dijkstra graph a b = Ok None /\ forall p d, ~ ExactPath graph W a b p d).
Proof.
  intros exact HW Hint Hroom Hunique Hids Hclosed Ha Hb.
  destruct (string_dec b a) as [->|Hab].
  { left. exists (mkSegment [a] 0%float), 0%Z. repeat split.
    - now apply dijkstra_same_node.
    - apply Z.mul_nonneg_nonneg; lia.
    - constructor.
    - intros p' d' Hp. eapply ExactPath_cost_nonneg; eauto. }
  destruct (in_dec string_dec a (JsMap.keys graph)) as [Hka|Hka];
    [destruct (in_dec string_dec b (JsMap.keys graph)) as [Hkb|Hkb]|].
  - now apply (dijkstra_cheapest B W).
  - right. split; [apply dijkstra_off_graph; auto|].
    intros p d Hp.
    destruct (ExactPath_keys _ _ _ _ _ _ Hclosed Hp) as [?|[_ ?]]; auto.
  - right. split; [apply dijkstra_off_graph; auto|].
    intros p d Hp.
    destruct (ExactPath_keys _ _ _ _ _ _ Hclosed Hp) as [?|[? _]]; auto.
Qed.

Lemma consecutivePairs_first a stops b :
  exists y rest, consecutivePairs (a :: stops ++ [b]) = (a, y) :: rest.
Proof. destruct stops as [|s stops]; cbn; eauto. Qed.

(** The searches between the consecutive stops either all succeed, and
    their segments make a cheapest route whose cost the loop adds up without
    rounding, or one of them fails, and no route exists. *)
Lemma segments_cheapest B W graph :
  exactUpTo B -> (0 <= W)%Z -> intCosts graph W ->
  uniqueNeighbors graph -> nonEmptyIds graph -> closedGraph graph ->
  forall stops a b,
    a <> "" -> (forall s, In s stops -> s <> "") -> b <> "" ->
    (Z.of_nat (S (length stops)) *
       (Z.of_nat (length (JsMap.keys graph)) * W) <= B)%Z ->
    (exists segments d,
        Forall2 (searchReturns graph)
                (consecutivePairs (a :: stops ++ [b])) segments /\
        ExactRoute graph W a stops b (stitchedPath segments) d /\
        (0 <= d <= Z.of_nat (S (length stops)) *
                    (Z.of_nat (length (JsMap.keys graph)) * W))%Z /\
        (forall acc, (0 <= acc)%Z ->
            (acc + Z.of_nat (S (length stops)) *
                     (Z.of_nat (length (JsMap.keys graph)) * W) <= B)%Z ->
            fold_left (fun acc s => num_add acc (seg_cost s)) segments
                      (ofZ acc) = ofZ (acc + d)) /\
        forall p' d', ExactRoute graph W a stops b p' d' -> (d <= d')%Z)
    \/
    ((exists x y, In (x, y) (consecutivePairs (a :: stops ++ [b])) /\
                  dijkstra graph x y = Ok None) /\
     forall p d, ~ ExactRoute graph W a stops b p d).
Proof.
  intros exact HW Hint Hunique Hids Hclosed.
  set (K := (Z.of_nat (length (JsMap.keys graph)) * W)%Z).
  assert (HK : (0 <= K)%Z) by (apply Z.mul_nonneg_nonneg; lia).
  induction stops as [|s stops IH]; intros a b Ha Hstops Hb Hroom.
  - assert (HKB : (K <= B)%Z) by (cbn [length] in Hroom; lia).
    destruct (dijkstra_cheapest_any B W graph a b exact HW Hint HKB Hunique
                Hids Hclosed Ha Hb)
      as [(s1 & d1 & Hs1 & Hc1 & Hb1 & Hp1 & Hmin1)|[Hnone Hno]].
    + left. exists [s1], d1. split; [|split; [|split; [|split]]].
      * cbn. constructor; [exact Hs1|constructor].
      * cbn [ExactRoute stitchedPath flat_map]. now rewrite app_nil_r.
      * pose proof (ExactPath_cost_nonneg _ _ _ _ _ _ Hp1).
        cbn [length]. fold K in Hb1. lia.
      * intros acc Hacc Hsum. cbn [fold_left]. rewrite Hc1.
        apply (exact_add exact); auto.
        -- eapply ExactPath_cost_nonneg; eauto.
        -- cbn [length] in Hsum. fold K in Hb1. lia.
      * intros p' d' Hr. apply (Hmin1 _ _ Hr).
    + right. split; [|exact Hno].
      exists a, b. split; [now left|exact Hnone].
  - assert (Hs : s <> "") by (apply Hstops; now left).
    assert (Hroom' : (Z.of_nat (S (length stops)) * K <= B)%Z).
    { cbn [length] in Hroom. rewrite !Nat2Z.inj_succ in Hroom |- *. nia. }
    assert (HKB : (K <= B)%Z).
    { rewrite !Nat2Z.inj_succ in Hroom'. nia. }
    change (a :: (s :: stops) ++ [b]) with (a :: s :: stops ++ [b]).
    cbn [consecutivePairs].
    destruct (dijkstra_cheapest_any B W graph a s exact HW Hint HKB Hunique
                Hids Hclosed Ha Hs)
      as [(s1 & d1 & Hs1 & Hc1 & Hb1 & Hp1 & Hmin1)|[Hnone Hno]].
    + destruct (IH s b Hs (fun x Hx => Hstops x (or_intror Hx)) Hb Hroom')
        as [(segs2 & d2 & Hsegs & Hr2 & Hd2 & Hfold & Hmin2)|
            [(x & y & Hin & Hnone) Hno]].
      * left. exists (s1 :: segs2), (d1 + d2)%Z.
        pose proof (ExactPath_cost_nonneg _ _ _ _ _ _ Hp1) as Hd1.
        fold K in Hb1.
        split; [|split; [|split; [|split]]].
        -- constructor; assumption.
        -- cbn [ExactRoute].
           exists (seg_path s1), d1, (stitchedPath segs2), d2.
           repeat split; auto.
           destruct (consecutivePairs_first s stops b) as (y & rest & E).
           rewrite E in Hsegs.
           inversion Hsegs as [|? s2 ? segs3 H2 Hrest]; subst.
           unfold searchReturns in H2. cbn [fst snd] in H2.
           destruct (dijkstra_head _ _ _ _ H2) as [t Ht].
           rewrite stitchedPath_cons by (rewrite Ht; discriminate).
           reflexivity.
        -- cbn [length]. rewrite Nat2Z.inj_succ in Hd2 |- *.
           rewrite Nat2Z.inj_succ. nia.
        -- intros acc Hacc Hsum. cbn [fold_left]. rewrite Hc1.
           cbn [length] in Hsum. rewrite !Nat2Z.inj_succ in Hsum.
           rewrite Nat2Z.inj_succ in Hd2.
           rewrite (exact_add exact) by nia.
           rewrite Hfold.
           ++ f_equal. lia.
           ++ lia.
           ++ rewrite Nat2Z.inj_succ. nia.
        -- intros p' d'. cbn [ExactRoute].
           intros (p1' & d1' & p2' & d2' & H1 & H2 & _ & ->).
           apply Hmin1 in H1. apply Hmin2 in H2. lia.
      * right. split.
        -- exists x, y. split; [now right|exact Hnone].
        -- intros p d. cbn [ExactRoute].
           intros (p1' & d1' & p2' & d2' & _ & H2 & _). exact (Hno _ _ H2).
    + right. split.
      * exists a, s. split; [now left|exact Hnone].
      * intros p d. cbn [ExactRoute].
        intros (p1' & d1' & p2' & d2' & H1 & _). exact (Hno _ _ H1).
Qed.

(** When the edge costs are integers between 0 and [W], the sums up to
    (number of stops + 1) * (number of declared nodes) * [W] are exact in
    double arithmetic, and the identifiers are non-empty, a request that
    passes validation is answered with a cheapest route of the graph from
    start to end through the required stops in order, the total being the
    sum of its edge costs, and with [NoPathFound] exactly when the graph has
    no such route. *)
Theorem findOptimalPath_answers_with_a_cheapest_route : forall B W request,
  exactUpTo B -> (0 <= W)%Z ->
  (forall e, In e (edges request) ->
             exists w, (0 <= w <= W)%Z /\ cost e = ofZ w) ->
  (forall n, In n (nodes request) -> n <> "") ->
  start request <> "" ->
  (Z.of_nat (S (length (requiredStops (constraints request)))) *
     (Z.of_nat (length (nodes request)) * W) <= B)%Z ->
  validateNodesExist (nodes request) (edges request)
    (requiredStops (constraints request) ++ [end_ request]) = Ok tt ->
  exists graph,
    buildGraph (edges request) (blockedNodes (constraints request)) = Ok graph /\
    ((exists r d,
         findOptimalPath request = Ok r /\ totalCost r = ofZ d /\
         ExactRoute graph W (start request)
                    (requiredStops (constraints request))
                    (end_ request) (path r) d /\
         forall p' d',
           ExactRoute graph W (start request)
                      (requiredStops (constraints request))
                      (end_ request) p' d' -> (d <= d')%Z)
     \/
     (findOptimalPath request =
      Throw (NoPathFound (requiredStops (constraints request))) /\
      forall p d,
        ~ ExactRoute graph W (start request)
                     (requiredStops (constraints request))
                     (end_ request) p d)).
Proof.
  intros B W request exact HW Hcost Hnodes Hstart Hroom Hv.
  destruct (findOptimalPath_validated request Hv) as (g & r & Hg & Hr & Hres).
  exists g. split; auto.
  apply validateNodesExist_Ok_iff in Hv. destruct Hv as [Hmust Hedges].
  destruct (buildGraph_invariant _ _ _ Hg) as [[Hnodup Hclean] _].
  assert (Hunique : uniqueNeighbors g)
    by (intros k m Hm; apply (Hclean _ _ Hm)).
  assert (Hint : intCosts g W).
  { intros a b c Hc. rewrite (buildGraph_costOf _ _ _ _ _ Hg) in Hc.
    destruct (lastCost_Some _ _ _ _ _ Hc) as (e & He & _ & <-). auto. }
  assert (Hsub : forall k, In k (JsMap.keys g) -> In k (nodes request)).
  { intros k Hk.
    destruct (buildGraph_keys (edges request)
                (blockedNodes (constraints request))) as (g' & Hg' & Hkeys).
    rewrite Hg in Hg'. injection Hg' as <-.
    apply Hkeys in Hk. destruct Hk as (e & He & _ & Hk).
    destruct (Hedges e He). destruct Hk; subst; auto. }
  assert (Hids : nonEmptyIds g) by (intros k Hk; auto).
  assert (Hclosed : closedGraph g) by (eapply buildGraph_closed; eauto).
  assert (Hlen : (Z.of_nat (length (JsMap.keys g)) <=
                  Z.of_nat (length (nodes request)))%Z).
  { apply inj_le. apply NoDup_incl_length; auto. }
  assert (Hroom' :
    (Z.of_nat (S (length (requiredStops (constraints request)))) *
       (Z.of_nat (length (JsMap.keys g)) * W) <= B)%Z).
  { etransitivity; [|exact Hroom].
    apply Z.mul_le_mono_nonneg_l; [lia|].
    apply Z.mul_le_mono_nonneg_r; lia. }
  destruct (segments_cheapest B W g exact HW Hint Hunique Hids Hclosed
              (requiredStops (constraints request))
              (start request) (end_ request) Hstart)
    as [(segments & d & Hsegs & Hroute & Hd & Hfold & Hmin)|
        [(x & y & Hin & Hnone) Hno]]; auto.
  - intros x Hx. apply Hnodes, Hmust, in_app_iff. now left.
  - apply Hnodes, Hmust, in_app_iff. right. now left.
  - left. unfold findPathWithRequiredStops in Hr.
    rewrite (stopsLoop_segments _ _ _ Hsegs) in Hr
      by (simpl; rewrite length_app; simpl; lia).
    injection Hr as <-.
    exists (mkPathResult (stitchedPath segments) (sumCosts segments)), d.
    cbn [path totalCost]. repeat split; auto.
    unfold sumCosts. change 0%float with (ofZ 0).
    rewrite Hfold; [reflexivity|lia|rewrite Z.add_0_l; exact Hroom'].
  - right. split; auto.
    unfold findPathWithRequiredStops in Hr.
    rewrite (stopsLoop_fails _ _ _ _ _ _ _ Hin Hnone) in Hr.
    injection Hr as <-. exact Hres.
Qed.

Lemma findOptimalPath_answers_with_a_cheapest_route_witness :
  exists graph,
    buildGraph (edges detourRequest)
               (blockedNodes (constraints detourRequest)) = Ok graph /\
    ((exists r d,
         findOptimalPath detourRequest = Ok r /\ totalCost r = ofZ d /\
         ExactRoute graph 4 "A" ["B"] "C" (path r) d /\
         forall p' d', ExactRoute graph 4 "A" ["B"] "C" p' d' -> (d <= d')%Z)
     \/
     (findOptimalPath detourRequest = Throw (NoPathFound ["B"]) /\
      forall p d, ~ ExactRoute graph 4 "A" ["B"] "C" p d)).
Proof.
  apply (findOptimalPath_answers_with_a_cheapest_route 32 4 detourRequest).
  - apply (exactUpTob_correct 32). vm_compute. reflexivity.
  - lia.
  - intros e [<-|[<-|[<-|[<-|[]]]]]; cbn [cost].
    + exists 1%Z. split; [lia|reflexivity].
    + exists 2%Z. split; [lia|reflexivity].
    + exists 4%Z. split; [lia|reflexivity].
    + exists 1%Z. split; [lia|reflexivity].
  - intros n [<-|[<-|[<-|[<-|[]]]]]; discriminate.
  - discriminate.
  - simpl. lia.
  - reflexivity.
Defined.

(** ** Where the sums are rounded *)

(** Past 2^53 the distances are rounded sums: the search keeps the path
    through B, whose edges cost 2^53 and 1, at the distance 2^53, and the
    path through C, whose edges cost 2^53 and 0, does not replace it. *)
Example dijkstra_on_rounded_sums :
  dijkstra roundingGraph "A" "D" =
    Ok (Some (mkSegment ["A"; "B"; "D"] 0x1p53%float)) /\
  costOf roundingGraph "A" "B" = Some 0x1p53%float /\
  costOf roundingGraph "B" "D" = Some 1%float /\
  costOf roundingGraph "A" "C" = Some 0x1p53%float /\
  costOf roundingGraph "C" "D" = Some 0%float.
Proof. repeat split. Qed.

(** The total of a route depends on where the required stops cut it: the
    chain of costs 0.1, 0.2 and 0.3 totals 0.6000000000000001 without a
    stop and 0.6 with the stop B, for the same nodes. *)
Example total_cost_depends_on_the_stops :
  findOptimalPath (fractionRequest []) =
    Ok (mkPathResult ["A"; "B"; "C"; "D"] 0x1.3333333333334p-1%float) /\
  findOptimalPath (fractionRequest ["B"]) =
    Ok (mkPathResult ["A"; "B"; "C"; "D"] 0x1.3333333333333p-1%float).
Proof. split; reflexivity. Qed.
